(** * Acknowledgment reconciliation in mvfst

    A shallow embedding of [quic/state/AckHandlers.cpp]: the merge of an
    incoming ack frame with the list of outstanding packets
    ([processAckFrame]) and the maintenance of the received-packet
    intervals once an outgoing ack frame is confirmed
    ([commonAckVisitorForAckFrame]).

    Conventions of the embedding.
    - Unsigned 64-bit quantities are [N]; every addition the code performs
      on them is followed by [wrap64].  Subtractions in the code are all
      guarded by a [CHECK_GE] or a comparison and are written with [N.sub].
    - A [TimePoint] is the tick count of the steady clock, in nanoseconds,
      as a [Z]; [duration_cast<microseconds>] truncates towards zero.
    - The deque of outstanding packets is a [list], index 0 at the front.
      A reverse iterator [r] is represented by the index of [r.base()]:
      it designates the element at index [r.base() - 1], [rend()] is [0],
      [rbegin()] is the length and [r++] decrements the index.
    - Calls to collaborators and the verbose log line of a matched packet
      are recorded, in order, in a trace of [Event]s.
    - A failed [CHECK] aborts the process: [Fatal]. *)

From Stdlib Require Import ZArith NArith List Lia.
From stdpp Require Import base option list gmap.

(** ** Machine integers and time *)

Definition wrap64 (n : N) : N := (n mod 2 ^ 64)%N.

Definition PacketNum : Type := N.
Definition TimePoint : Type := Z.
Definition microseconds : Type := Z.

Bind Scope N_scope with PacketNum.
Bind Scope Z_scope with TimePoint microseconds.

(** [std::chrono::duration_cast<std::chrono::microseconds>] applied to a
    difference of two [TimePoint]s. *)
Definition duration_cast_microseconds (d : Z) : microseconds := Z.quot d 1000.

Inductive PacketNumberSpace : Type := Initial | Handshake | AppData.

#[export] Instance PacketNumberSpace_eq_dec : EqDecision PacketNumberSpace.
Proof. solve_decision. Defined.

(** ** Types the reconciler only stores or forwards *)

Class ExternalTypes : Type := {
  PacketEvent : Type;
  PacketEvent_eq_dec :: EqDecision PacketEvent;
  PacketEvent_countable :: Countable PacketEvent;
  QuicWriteFrame : Type;
  LastAckedPacketInfo : Type;
  RttState : Type;
  AppState : Type;
  CongestionController : Type;
  LossVisitor : Type;
  LossDetails : Type
}.

Section DataModel.
Context {T : ExternalTypes}.

(** The structs below are declared in headers of the library; each record
    lists the members [AckHandlers.cpp] reads or writes, under the names
    it uses.  [ackStates] and [appState] stand for the state the ack
    visitor acts on. *)

(** ** Sent packets *)

Record PacketHeader : Type := mkPacketHeader {
  getPacketSequenceNum : PacketNum;
  getPacketNumberSpace : PacketNumberSpace
}.

Record RegularQuicWritePacket : Type := mkRegularQuicWritePacket {
  header : PacketHeader;
  frames : list QuicWriteFrame
}.

Record OutstandingPacket : Type := mkOutstandingPacket {
  packet : RegularQuicWritePacket;
  time : TimePoint;
  encodedSize : N;
  isHandshake : bool;
  totalBytesSent : N;
  lastAckedPacketInfo : option LastAckedPacketInfo;
  associatedEvent : option PacketEvent;
  isAppLimited : bool
}.

(** ** Incoming ack frame *)

Record AckBlock : Type := mkAckBlock {
  startPacket : PacketNum;
  endPacket : PacketNum
}.

Record ReadAckFrame : Type := mkReadAckFrame {
  largestAcked : PacketNum;
  ackDelay : microseconds;
  ackBlocks : list AckBlock
}.

(** ** Received-packet intervals and outgoing ack frame *)

Record Interval : Type := mkInterval {
  start : PacketNum;
  end_ : PacketNum
}.

Definition IntervalSet : Type := list Interval.

Record AckState : Type := mkAckState {
  acks : IntervalSet
}.

Record AckStates : Type := mkAckStates {
  initialAckState : AckState;
  handshakeAckState : AckState;
  appDataAckState : AckState
}.

Record WriteAckFrame : Type := mkWriteAckFrame {
  wa_ackBlocks : list Interval
}.

(** ** Events handed to the congestion controller *)

Record AckPacket : Type := mkAckPacket {
  sentTime : TimePoint;
  ap_encodedSize : N;
  ap_lastAckedPacketInfo : option LastAckedPacketInfo;
  totalBytesSentThen : N;
  ap_isAppLimited : bool
}.

Record AckEvent : Type := mkAckEvent {
  ackTime : TimePoint;
  ackedBytes : N;
  ackedPackets : list AckPacket;
  largestAckedPacket : option PacketNum;
  largestAckedPacketSentTime : TimePoint;
  largestAckedPacketAppLimited : bool;
  mrttSample : option microseconds
}.

Record LossEvent : Type := mkLossEvent {
  smallestLostSentTime : option TimePoint;
  largestLostSentTime : option TimePoint;
  persistentCongestion : bool;
  lossDetails : LossDetails
}.

(** ** Connection state *)

Record OutstandingsInfo : Type := mkOutstandings {
  packets : list OutstandingPacket;
  packetEvents : gset PacketEvent;
  initialPacketsCount : N;
  handshakePacketsCount : N;
  clonedPacketsCount : N
}.

Record LossState : Type := mkLossState {
  ls_totalBytesSent : N;
  totalBytesAcked : N;
  totalBytesSentAtLastAck : N;
  totalBytesAckedAtLastAck : N;
  lastAckedTime : option TimePoint;
  lastAckedPacketSentTime : option TimePoint;
  rtt : RttState
}.

Record QuicConnectionStateBase : Type := mkConn {
  outstandings : OutstandingsInfo;
  lossState : LossState;
  ackStates : AckStates;
  congestionController : option CongestionController;
  appState : AppState
}.

(** The part of the connection an ack visitor acts on: the visitor is a
    closure [(OutstandingPacket, QuicWriteFrame, ReadAckFrame) -> void]
    that does not touch the list of outstanding packets. *)
Definition VisitorScope : Type := (AckStates * AppState)%type.

Definition AckVisitor : Type :=
  VisitorScope -> OutstandingPacket -> QuicWriteFrame -> ReadAckFrame -> VisitorScope.

(** ** Trace of observable calls *)

Inductive Event : Type :=
| EvAcked (p : OutstandingPacket)
| EvUpdateRtt (rttSample : microseconds) (delay : microseconds)
| EvAckVisitor (p : OutstandingPacket) (f : QuicWriteFrame)
| EvHandleAckForLoss (c : QuicConnectionStateBase) (a : AckEvent) (s : PacketNumberSpace)
| EvIsPersistentCongestion (smallest largest : TimePoint)
| EvOnPacketAckOrLoss (a : AckEvent) (l : option LossEvent).

Inductive CheckFailure : Type :=
| CheckHandshakeSpace
| CheckInitialPacketsCount
| CheckHandshakePacketsCount
| CheckClonedPacketsCount
| CheckOutstandingHandshake
| CheckOutstandingCloned
| CheckLostSentTimes.

Inductive Outcome (A : Type) : Type :=
| Ok (a : A)
| Fatal (c : CheckFailure) (t : list Event).

End DataModel.

Arguments Ok {T A} a.
Arguments Fatal {T A} c t.

#[export] Instance Outcome_ret {T : ExternalTypes} : MRet Outcome :=
  fun _ a => Ok a.

#[export] Instance Outcome_bind {T : ExternalTypes} : MBind Outcome :=
  fun _ _ f m => match m with Ok a => f a | Fatal c t => Fatal c t end.

(** ** Collaborators

    Functions the reconciler calls whose bodies live in other translation
    units: the clock, the RTT estimator, the loss detector, the
    persistent-congestion predicate, the congestion controller, the
    purging threshold constant, and the search for the packet the walk
    starts from.  [Clock_now k] is the reading returned by the [k]-th call
    to [Clock::now()] made during one [processAckFrame].
    [getLastOutstandingPacket] returns a reverse iterator into the deque
    of outstanding packets; it is given by its distance from [rbegin()],
    a distance of the deque's size or more being [rend()]. *)

Class Collaborators {T : ExternalTypes} : Type := {
  Clock_now : nat -> TimePoint;
  getLastOutstandingPacket : QuicConnectionStateBase -> PacketNumberSpace -> nat;
  updateRtt : RttState -> microseconds -> microseconds -> RttState;
  handleAckForLoss :
    QuicConnectionStateBase -> LossVisitor -> AckEvent -> PacketNumberSpace ->
    QuicConnectionStateBase * option LossEvent;
  isPersistentCongestion :
    QuicConnectionStateBase -> TimePoint -> TimePoint -> bool;
  onPacketAckOrLoss :
    CongestionController -> AckEvent -> option LossEvent -> CongestionController;
  kAckPurgingThresh : N
}.

Section Reconciler.
Context {T : ExternalTypes} {X : Collaborators}.

(** ** Reverse iterators over the deque *)

(** [*r] for the reverse iterator of base index [r]. *)
Definition deref (l : list OutstandingPacket) (r : nat) : option OutstandingPacket :=
  match r with
  | O => None
  | S i => l !! i
  end.

(** [deque::erase(first, last)] on forward indices [first <= last]; the
    iterator it returns has index [first] in the new deque. *)
Definition erase (l : list OutstandingPacket) (first last : nat) : list OutstandingPacket :=
  take first l ++ drop last l.

(** [std::lower_bound(first, rend(), val, comp)] with
    [comp(p, val) = p.packet.header.getPacketSequenceNum() > val], as the
    standard library implements it on random-access iterators: bisection
    of the range of [len] elements that starts at [first].  [len] at least
    halves at each turn, so [len] turns are enough. *)
Fixpoint lower_bound_loop (turns : nat) (l : list OutstandingPacket)
    (val : PacketNum) (first len : nat) : nat :=
  match turns with
  | O => first
  | S turns' =>
    if (len =? 0)%nat then first
    else
      let half := Nat.div2 len in
      let middle := (first - half)%nat in
      match deref l middle with
      | Some p =>
        if (val <? getPacketSequenceNum (header (packet p)))%N
        then lower_bound_loop turns' l val (middle - 1)%nat (len - half - 1)%nat
        else lower_bound_loop turns' l val first half
      | None => first
      end
  end.

Definition lower_bound (l : list OutstandingPacket) (first : nat) (val : PacketNum) : nat :=
  lower_bound_loop first l val first first.

(** ** State of the merge loop: the connection and the locals of
    [processAckFrame] *)

Record AckLoopState : Type := mkLoop {
  conn : QuicConnectionStateBase;
  ack : AckEvent;
  initialPacketAcked : N;
  handshakePacketAcked : N;
  clonedPacketsAcked : N;
  lastAckedPacketSentTimeLocal : option TimePoint;
  trace : list Event;
  clockReads : nat
}.

Definition ledger (st : AckLoopState) : list OutstandingPacket :=
  packets (outstandings (conn st)).

Definition setPackets (l : list OutstandingPacket) (st : AckLoopState) : AckLoopState :=
  let c := conn st in
  let o := outstandings c in
  mkLoop
    (mkConn
       (mkOutstandings l (packetEvents o) (initialPacketsCount o)
          (handshakePacketsCount o) (clonedPacketsCount o))
       (lossState c) (ackStates c) (congestionController c) (appState c))
    (ack st) (initialPacketAcked st) (handshakePacketAcked st)
    (clonedPacketsAcked st) (lastAckedPacketSentTimeLocal st) (trace st)
    (clockReads st).

(** [conn.outstandings.packets.erase(rPacketIt.base(), eraseEnd.base())] *)
Definition erasePackets (rPacketIt eraseEnd : nat) (st : AckLoopState) : AckLoopState :=
  setPackets (erase (ledger st) rPacketIt eraseEnd) st.

(** ** Body of the inner loop for a packet the current block acknowledges
    (from the log line to [rPacketIt++]). *)
Definition ackOutstandingPacket (frame : ReadAckFrame) (ackVisitor : AckVisitor)
    (ackReceiveTime : TimePoint) (p : OutstandingPacket) (st : AckLoopState)
    : Outcome AckLoopState :=
  let c := conn st in
  let o := outstandings c in
  let ls := lossState c in
  let a := ack st in
  let currentPacketNum := getPacketSequenceNum (header (packet p)) in
  let currentPacketNumberSpace := getPacketNumberSpace (header (packet p)) in
  let tr0 := trace st ++ [EvAcked p] in
  let needsProcess :=
    match associatedEvent p with
    | None => true
    | Some e => bool_decide (e ∈ packetEvents o)
    end in
  '(initialAcked, handshakeAcked) ←
    (if isHandshake p && needsProcess then
       match currentPacketNumberSpace with
       | Initial =>
         mret (wrap64 (initialPacketAcked st + 1), handshakePacketAcked st)
       | Handshake =>
         mret (initialPacketAcked st, wrap64 (handshakePacketAcked st + 1))
       | AppData => Fatal CheckHandshakeSpace tr0
       end
     else mret (initialPacketAcked st, handshakePacketAcked st));
  let bytes := wrap64 (ackedBytes a + encodedSize p) in
  let clonedAcked :=
    match associatedEvent p with
    | Some _ => wrap64 (clonedPacketsAcked st + 1)
    | None => clonedPacketsAcked st
    end in
  let '(ackReceiveTimeOrNow, reads) :=
    if (time p <? ackReceiveTime)%Z then (ackReceiveTime, clockReads st)
    else (Clock_now (clockReads st), S (clockReads st)) in
  let rttSample := duration_cast_microseconds (ackReceiveTimeOrNow - time p) in
  let isLargestAcked := (currentPacketNum =? largestAcked frame)%N in
  let rtt1 :=
    if isLargestAcked then updateRtt (rtt ls) rttSample (ackDelay frame)
    else rtt ls in
  let tr1 :=
    if isLargestAcked then tr0 ++ [EvUpdateRtt rttSample (ackDelay frame)]
    else tr0 in
  let scope1 : VisitorScope :=
    if needsProcess
    then fold_left (fun s f => ackVisitor s p f frame) (frames (packet p))
           (ackStates c, appState c)
    else (ackStates c, appState c) in
  let tr2 :=
    if needsProcess then tr1 ++ map (EvAckVisitor p) (frames (packet p))
    else tr1 in
  let events1 :=
    if needsProcess then
      match associatedEvent p with
      | Some e => packetEvents o ∖ {[ e ]}
      | None => packetEvents o
      end
    else packetEvents o in
  let newLargest :=
    match largestAckedPacket a with
    | None => true
    | Some n => (n <? currentPacketNum)%N
    end in
  let mrtt1 :=
    if (time p <? ackReceiveTime)%Z
    then Some (Z.min (default rttSample (mrttSample a)) rttSample)
    else mrttSample a in
  let acked1 := wrap64 (totalBytesAcked ls + encodedSize p) in
  let lastSent :=
    match lastAckedPacketSentTimeLocal st with
    | None => Some (time p)
    | Some t => Some t
    end in
  let record :=
    mkAckPacket (time p) (encodedSize p) (lastAckedPacketInfo p)
      (totalBytesSent p) (isAppLimited p) in
  mret
    (mkLoop
       (mkConn
          (mkOutstandings (packets o) events1 (initialPacketsCount o)
             (handshakePacketsCount o) (clonedPacketsCount o))
          (mkLossState (ls_totalBytesSent ls) acked1 (ls_totalBytesSent ls)
             acked1 (Some ackReceiveTime) (lastAckedPacketSentTime ls) rtt1)
          (fst scope1) (congestionController c) (snd scope1))
       (mkAckEvent (ackTime a) bytes (ackedPackets a ++ [record])
          (if newLargest then Some currentPacketNum else largestAckedPacket a)
          (if newLargest then time p else largestAckedPacketSentTime a)
          (if newLargest then isAppLimited p else largestAckedPacketAppLimited a)
          mrtt1)
       initialAcked handshakeAcked clonedAcked lastSent tr2 reads).

(** ** The inner [while (rPacketIt != rend())]: the walk from the position
    found for one ack block towards the front of the deque.  Returns the
    final [rPacketIt] and [eraseEnd] with the state.  Every turn that does
    not leave the loop moves [rPacketIt] by one element.  The iterators
    stay within the deque, so the element under [rPacketIt] exists. *)
Fixpoint walkAckBlock (pnSpace : PacketNumberSpace) (frame : ReadAckFrame)
    (ackVisitor : AckVisitor) (ackReceiveTime : TimePoint) (blk : AckBlock)
    (rPacketIt eraseEnd : nat) (st : AckLoopState) {struct rPacketIt}
    : Outcome (nat * nat * AckLoopState) :=
  match rPacketIt with
  | O => mret (rPacketIt, eraseEnd, st)
  | S next =>
    match ledger st !! next with
    | None => mret (rPacketIt, eraseEnd, st)
    | Some p =>
      if bool_decide (pnSpace ≠ getPacketNumberSpace (header (packet p))) then
        if bool_decide (rPacketIt ≠ eraseEnd)
        then walkAckBlock pnSpace frame ackVisitor ackReceiveTime blk next next
               (erasePackets rPacketIt eraseEnd st)
        else walkAckBlock pnSpace frame ackVisitor ackReceiveTime blk next next st
      else if (getPacketSequenceNum (header (packet p)) <? startPacket blk)%N
      then mret (rPacketIt, eraseEnd, st)
      else
        match ackOutstandingPacket frame ackVisitor ackReceiveTime p st with
        | Ok st' =>
          walkAckBlock pnSpace frame ackVisitor ackReceiveTime blk next eraseEnd st'
        | Fatal c t => Fatal c t
        end
    end
  end.

(** ** The outer [while] over the ack blocks, from [ackBlockIt] and
    [currentPacketIt]. *)
Fixpoint matchAckBlocks (pnSpace : PacketNumberSpace) (frame : ReadAckFrame)
    (ackVisitor : AckVisitor) (ackReceiveTime : TimePoint)
    (ackBlockIt : list AckBlock) (currentPacketIt : nat) (st : AckLoopState)
    : Outcome AckLoopState :=
  match ackBlockIt with
  | [] => mret st
  | blk :: rest =>
    if (currentPacketIt =? 0)%nat then mret st
    else
      let rPacketIt := lower_bound (ledger st) currentPacketIt (endPacket blk) in
      if (rPacketIt =? 0)%nat then mret st
      else
        '(rPacketIt', eraseEnd, st1) ←
          walkAckBlock pnSpace frame ackVisitor ackReceiveTime blk
            rPacketIt rPacketIt st;
        let st2 :=
          if bool_decide (rPacketIt' ≠ eraseEnd)
          then erasePackets rPacketIt' eraseEnd st1
          else st1 in
        matchAckBlocks pnSpace frame ackVisitor ackReceiveTime rest rPacketIt' st2
  end.

(** The base index of the reverse iterator
    [getLastOutstandingPacket(conn, pnSpace)]. *)
Definition lastOutstandingPacket (c : QuicConnectionStateBase)
    (pnSpace : PacketNumberSpace) : nat :=
  (length (packets (outstandings c)) - getLastOutstandingPacket c pnSpace)%nat.

(** The default-constructed [AckEvent] with [ackTime] set. *)
Definition newAckEvent (ackReceiveTime : TimePoint) : AckEvent :=
  mkAckEvent ackReceiveTime 0 [] None 0%Z false None.

(** ** Lines 185 to 199: the last-acked sent time, the decrements of the
    three counters and the checks on the ledger's size. *)
Definition settleCounters (st : AckLoopState) : Outcome AckLoopState :=
  let c := conn st in
  let o := outstandings c in
  let ls := lossState c in
  let ls1 :=
    match lastAckedPacketSentTimeLocal st with
    | Some t =>
      mkLossState (ls_totalBytesSent ls) (totalBytesAcked ls)
        (totalBytesSentAtLastAck ls) (totalBytesAckedAtLastAck ls)
        (lastAckedTime ls) (Some t) (rtt ls)
    | None => ls
    end in
  if negb (initialPacketAcked st <=? initialPacketsCount o)%N
  then Fatal CheckInitialPacketsCount (trace st)
  else
    let initialCount := (initialPacketsCount o - initialPacketAcked st)%N in
    if negb (handshakePacketAcked st <=? handshakePacketsCount o)%N
    then Fatal CheckHandshakePacketsCount (trace st)
    else
      let handshakeCount := (handshakePacketsCount o - handshakePacketAcked st)%N in
      if negb (clonedPacketsAcked st <=? clonedPacketsCount o)%N
      then Fatal CheckClonedPacketsCount (trace st)
      else
        let clonedCount := (clonedPacketsCount o - clonedPacketsAcked st)%N in
        let updatedOustandingPacketsCount := N.of_nat (length (packets o)) in
        if negb (wrap64 (handshakeCount + initialCount) <=? updatedOustandingPacketsCount)%N
        then Fatal CheckOutstandingHandshake (trace st)
        else if negb (clonedCount <=? updatedOustandingPacketsCount)%N
        then Fatal CheckOutstandingCloned (trace st)
        else
          mret
            (mkLoop
               (mkConn
                  (mkOutstandings (packets o) (packetEvents o) initialCount
                     handshakeCount clonedCount)
                  ls1 (ackStates c) (congestionController c) (appState c))
               (ack st) (initialPacketAcked st) (handshakePacketAcked st)
               (clonedPacketsAcked st) (lastAckedPacketSentTimeLocal st)
               (trace st) (clockReads st)).

(** ** Lines 43 to 199: everything [processAckFrame] does before it hands
    the ack event to the loss detector. *)
Definition reconcileAckFrame (c : QuicConnectionStateBase)
    (pnSpace : PacketNumberSpace) (frame : ReadAckFrame)
    (ackVisitor : AckVisitor) (ackReceiveTime : TimePoint)
    : Outcome AckLoopState :=
  let st0 := mkLoop c (newAckEvent ackReceiveTime) 0 0 0 None [] 0 in
  st ← matchAckBlocks pnSpace frame ackVisitor ackReceiveTime (ackBlocks frame)
         (lastOutstandingPacket c pnSpace) st0;
  settleCounters st.

Definition setPersistentCongestion (b : bool) (le : LossEvent) : LossEvent :=
  mkLossEvent (smallestLostSentTime le) (largestLostSentTime le) b (lossDetails le).

Definition setCongestionController (cc : CongestionController)
    (c : QuicConnectionStateBase) : QuicConnectionStateBase :=
  mkConn (outstandings c) (lossState c) (ackStates c) (Some cc) (appState c).

(** ** Lines 200 to 217: the loss detector, the persistent-congestion
    predicate and the congestion controller. *)
Definition notifyAckOrLoss (pnSpace : PacketNumberSpace) (lossVisitor : LossVisitor)
    (st : AckLoopState) : Outcome (QuicConnectionStateBase * list Event) :=
  let a := ack st in
  let tr0 := trace st ++ [EvHandleAckForLoss (conn st) a pnSpace] in
  let '(c1, lossEvent) := handleAckForLoss (conn st) lossVisitor a pnSpace in
  match congestionController c1 with
  | Some cc =>
    if bool_decide (is_Some (largestAckedPacket a)) || bool_decide (is_Some lossEvent)
    then
      '(lossEvent1, tr1) ←
        match lossEvent with
        | Some le =>
          match largestLostSentTime le, smallestLostSentTime le with
          | Some largest, Some smallest =>
            mret
              (Some (setPersistentCongestion
                       (isPersistentCongestion c1 smallest largest) le),
               tr0 ++ [EvIsPersistentCongestion smallest largest])
          | _, _ => Fatal CheckLostSentTimes tr0
          end
        | None => mret (None, tr0)
        end;
      mret
        (setCongestionController (onPacketAckOrLoss cc a lossEvent1) c1,
         tr1 ++ [EvOnPacketAckOrLoss a lossEvent1])
    else mret (c1, tr0)
  | None => mret (c1, tr0)
  end.

Definition processAckFrame (c : QuicConnectionStateBase)
    (pnSpace : PacketNumberSpace) (frame : ReadAckFrame)
    (ackVisitor : AckVisitor) (lossVisitor : LossVisitor)
    (ackReceiveTime : TimePoint)
    : Outcome (QuicConnectionStateBase * list Event) :=
  st ← reconcileAckFrame c pnSpace frame ackVisitor ackReceiveTime;
  notifyAckOrLoss pnSpace lossVisitor st.

(** ** Received-packet intervals *)

(** Modelled from the spec: [IntervalSet::withdraw] is defined in
    [quic/common/IntervalSet.h], which is not among the sources at hand.
    Withdrawing the inclusive range [w] removes its packet numbers from
    every tracked interval, leaving the pieces outside [w]. *)
Definition withdrawFrom (w i : Interval) : list Interval :=
  (if (start i <? start w)%N
   then [mkInterval (start i) (N.min (end_ i) (start w - 1)%N)] else []) ++
  (if (end_ w <? end_ i)%N
   then [mkInterval (N.max (start i) (end_ w + 1)%N) (end_ i)] else []).

Definition withdraw (s : IntervalSet) (w : Interval) : IntervalSet :=
  flat_map (withdrawFrom w) s.

(** A packet number is tracked when one of the intervals contains it. *)
Definition inInterval (n : PacketNum) (i : Interval) : bool :=
  (start i <=? n)%N && (n <=? end_ i)%N.

Definition tracked (s : IntervalSet) (n : PacketNum) : bool :=
  existsb (inInterval n) s.

(** [frame.ackBlocks.front().end] *)
Definition frontEnd (blocks : list Interval) : option PacketNum :=
  match blocks with
  | [] => None
  | b :: _ => Some (end_ b)
  end.

(** The range the purge withdraws, if any: [[0, largestAcked -
    kAckPurgingThresh]] when the largest acknowledged packet number, the
    end of the first block, exceeds the threshold. *)
Definition purgedRange (blocks : list Interval) : list Interval :=
  match frontEnd blocks with
  | Some largestAcked =>
    if (kAckPurgingThresh <? largestAcked)%N
    then [mkInterval 0%N (largestAcked - kAckPurgingThresh)%N] else []
  | None => []
  end.

Definition commonAckVisitorForAckFrame (ackState : AckState) (frame : WriteAckFrame)
    : AckState :=
  let acks1 := fold_left withdraw (rev (wa_ackBlocks frame)) (acks ackState) in
  match frontEnd (wa_ackBlocks frame) with
  | Some largestAcked =>
    if (kAckPurgingThresh <? largestAcked)%N
    then mkAckState (withdraw acks1 (mkInterval 0%N (largestAcked - kAckPurgingThresh)%N))
    else mkAckState acks1
  | None => mkAckState acks1
  end.

End Reconciler.

(** ** Reading a trace *)

Section Observations.
Context {T : ExternalTypes}.

Definition pn (p : OutstandingPacket) : PacketNum :=
  getPacketSequenceNum (header (packet p)).

Definition spaceOf (p : OutstandingPacket) : PacketNumberSpace :=
  getPacketNumberSpace (header (packet p)).

(** Outstanding packets acknowledged, in the order the walk reached them. *)
Definition ackedOf (t : list Event) : list OutstandingPacket :=
  omap (fun e => match e with EvAcked p => Some p | _ => None end) t.

Definition rttFeedsOf (t : list Event) : list (microseconds * microseconds) :=
  omap (fun e => match e with EvUpdateRtt s d => Some (s, d) | _ => None end) t.

Definition visitorCallsOf (t : list Event) : list (OutstandingPacket * QuicWriteFrame) :=
  omap (fun e => match e with EvAckVisitor p f => Some (p, f) | _ => None end) t.

Definition lossHandoffsOf (t : list Event)
    : list (QuicConnectionStateBase * AckEvent * PacketNumberSpace) :=
  omap (fun e => match e with EvHandleAckForLoss c a s => Some (c, a, s) | _ => None end) t.

Definition persistentCongestionCallsOf (t : list Event) : list (TimePoint * TimePoint) :=
  omap (fun e => match e with EvIsPersistentCongestion s l => Some (s, l) | _ => None end) t.

Definition controllerCallsOf (t : list Event) : list (AckEvent * option LossEvent) :=
  omap (fun e => match e with EvOnPacketAckOrLoss a l => Some (a, l) | _ => None end) t.

Definition outcomeTrace (o : Outcome (QuicConnectionStateBase * list Event)) : list Event :=
  match o with
  | Ok (_, t) => t
  | Fatal _ t => t
  end.

(** Entries of a list of packets that carry the associated event [e],
    those that carry some event (clones), those that carry none, and the
    visitor calls made on packets carrying [e]. *)
Definition entriesOf (e : PacketEvent) (l : list OutstandingPacket)
    : list OutstandingPacket :=
  filter (fun p => associatedEvent p = Some e) l.

Definition clonesOf (l : list OutstandingPacket) : list OutstandingPacket :=
  filter (fun p => is_Some (associatedEvent p)) l.

Definition originalsOf (l : list OutstandingPacket) : list OutstandingPacket :=
  filter (fun p => associatedEvent p = None) l.

Definition visitsOf (e : PacketEvent) (calls : list (OutstandingPacket * QuicWriteFrame))
    : list (OutstandingPacket * QuicWriteFrame) :=
  filter (fun c => associatedEvent (fst c) = Some e) calls.

Definition visitsOfOriginals (calls : list (OutstandingPacket * QuicWriteFrame))
    : list (OutstandingPacket * QuicWriteFrame) :=
  filter (fun c => associatedEvent (fst c) = None) calls.

Definition isClone (p : OutstandingPacket) : bool :=
  bool_decide (is_Some (associatedEvent p)).

(** The visitor calls one packet receives when it is processed: one per
    frame it carries, in order. *)
Definition callsFor (p : OutstandingPacket) : list (OutstandingPacket * QuicWriteFrame) :=
  map (pair p) (frames (packet p)).

Definition sumEncodedSize (l : list OutstandingPacket) : N :=
  foldr (fun p acc => (encodedSize p + acc)%N) 0%N l.

(** Minimum of a list of samples, absent for the empty list. *)
Definition minimumOf (l : list microseconds) : option microseconds :=
  foldr (fun x acc => Some (match acc with None => x | Some y => Z.min x y end)) None l.

(** A ledger in ascending order of packet number, and an ack frame none
    of whose blocks covers the number of a packet of the ledger. *)
Definition ascending (l : list OutstandingPacket) : Prop :=
  forall i j p q,
    (i <= j)%nat -> l !! i = Some p -> l !! j = Some q -> (pn p <= pn q)%N.

(** A packet a block covers, a packet one of the blocks covers, and ack
    blocks in descending order: each from a start to an end not below it,
    and each later block ending below the start of the earlier ones. *)
Definition covers (blk : AckBlock) (p : OutstandingPacket) : bool :=
  (startPacket blk <=? pn p)%N && (pn p <=? endPacket blk)%N.

Definition coveredBy (blocks : list AckBlock) (p : OutstandingPacket) : bool :=
  existsb (fun blk => covers blk p) blocks.

Fixpoint descendingBlocks (blocks : list AckBlock) : Prop :=
  match blocks with
  | [] => True
  | blk :: rest =>
    (startPacket blk <= endPacket blk)%N /\
    Forall (fun later => (endPacket later < startPacket blk)%N) rest /\
    descendingBlocks rest
  end.

Definition coversNone (frame : ReadAckFrame) (l : list OutstandingPacket) : Prop :=
  forall p blk,
    p ∈ l -> blk ∈ ackBlocks frame ->
    ~ (startPacket blk <= pn p <= endPacket blk)%N.

(** A trace without calls to the loss detector, the persistent-congestion
    predicate or the congestion controller. *)
Definition quiet (t : list Event) : Prop :=
  lossHandoffsOf t = [] /\ persistentCongestionCallsOf t = [] /\ controllerCallsOf t = [].

(** The ledger invariants of the connection state. *)
Definition ledgerInvariant (o : OutstandingsInfo) : Prop :=
  (initialPacketsCount o + handshakePacketsCount o <= N.of_nat (length (packets o)))%N /\
  (clonedPacketsCount o <= N.of_nat (length (packets o)))%N.

End Observations.

Section Samples.
Context {T : ExternalTypes} {X : Collaborators}.

(** The RTT sample of a matched packet when [k] readings of the clock
    have been taken before it: the ack's receive time when that is later
    than the send time, the clock otherwise. *)
Definition rttSampleOf (ackReceiveTime : TimePoint) (k : nat) (p : OutstandingPacket)
    : microseconds :=
  duration_cast_microseconds
    ((if (time p <? ackReceiveTime)%Z then ackReceiveTime else Clock_now k) - time p).

(** The sample as the specification words it:
    [max(ackReceiveTime, now) - sendTime]. *)
Definition rttSampleByMax (ackReceiveTime : TimePoint) (k : nat) (p : OutstandingPacket)
    : microseconds :=
  duration_cast_microseconds (Z.max ackReceiveTime (Clock_now k) - time p).

(** Matched packets paired with their samples, the clock being read once
    for each packet sent at or after the ack's receive time. *)
Fixpoint rttSamples (ackReceiveTime : TimePoint) (k : nat) (l : list OutstandingPacket)
    : list (OutstandingPacket * microseconds) :=
  match l with
  | [] => []
  | p :: rest =>
    (p, rttSampleOf ackReceiveTime k p) ::
    rttSamples ackReceiveTime
      (if (time p <? ackReceiveTime)%Z then k else S k) rest
  end.

Definition sentBefore (ackReceiveTime : TimePoint) (p : OutstandingPacket) : bool :=
  (time p <? ackReceiveTime)%Z.

(** Number of packets of [l] for which the clock is read. *)
Definition clockReadsFor (ackReceiveTime : TimePoint) (l : list OutstandingPacket) : nat :=
  length (filter (fun p => sentBefore ackReceiveTime p = false) l).

(** The calls [updateRtt] receives for a list of matched packets with
    their samples: one for each packet numbered [largestAcked]. *)
Definition rttFeedsFor (frame : ReadAckFrame)
    (samples : list (OutstandingPacket * microseconds))
    : list (microseconds * microseconds) :=
  map (fun ps => (snd ps, ackDelay frame))
    (filter (fun ps => pn (fst ps) = largestAcked frame) samples).

(** The samples that enter the minimum-RTT of the frame: those of the
    packets sent before the ack was received. *)
Definition mrttSamplesOf (ackReceiveTime : TimePoint)
    (samples : list (OutstandingPacket * microseconds)) : list microseconds :=
  map snd (filter (fun ps => sentBefore ackReceiveTime (fst ps) = true) samples).

(** The record appended to [ack.ackedPackets] for a matched packet. *)
Definition ackPacketOf (p : OutstandingPacket) : AckPacket :=
  mkAckPacket (time p) (encodedSize p) (lastAckedPacketInfo p) (totalBytesSent p)
    (isAppLimited p).

(** The notifications a trace may end with: the persistent-congestion
    predicate and the congestion controller. *)
Definition isNotification (e : Event) : bool :=
  match e with
  | EvIsPersistentCongestion _ _ | EvOnPacketAckOrLoss _ _ => true
  | _ => false
  end.

(** What the five checks that follow the loop test, on the counters the
    connection holds and the counts the loop accumulated: no decrement
    goes below zero and the decremented counters do not exceed the size of
    the ledger.  The sum is the 64-bit sum the code computes. *)
Definition checksPass (st : AckLoopState) : Prop :=
  let o := outstandings (conn st) in
  (initialPacketAcked st <= initialPacketsCount o)%N /\
  (handshakePacketAcked st <= handshakePacketsCount o)%N /\
  (clonedPacketsAcked st <= clonedPacketsCount o)%N /\
  (wrap64 ((handshakePacketsCount o - handshakePacketAcked st) +
           (initialPacketsCount o - initialPacketAcked st))
   <= N.of_nat (length (packets o)))%N /\
  (clonedPacketsCount o - clonedPacketsAcked st <= N.of_nat (length (packets o)))%N.


(** The checks on the counters, as opposed to the check on a handshake
    packet's space and the check on a loss event's sent times. *)
Definition isCounterCheck (chk : CheckFailure) : bool :=
  match chk with
  | CheckInitialPacketsCount | CheckHandshakePacketsCount
  | CheckClonedPacketsCount | CheckOutstandingHandshake
  | CheckOutstandingCloned => true
  | CheckHandshakeSpace | CheckLostSentTimes => false
  end.

(** The state the merge loop starts from. *)
Definition initialLoopState (c : QuicConnectionStateBase) (ackReceiveTime : TimePoint)
    : AckLoopState :=
  mkLoop c (newAckEvent ackReceiveTime) 0 0 0 None [] 0.

(** Whether a matched packet is processed, given the pending packet
    events at the time it is reached. *)
Definition needsProcess (pending : gset PacketEvent) (p : OutstandingPacket) : bool :=
  match associatedEvent p with
  | None => true
  | Some e => bool_decide (e ∈ pending)
  end.

(** The pending packet events once a matched packet has been handled. *)
Definition pendingAfter (pending : gset PacketEvent) (p : OutstandingPacket)
    : gset PacketEvent :=
  match associatedEvent p with
  | None => pending
  | Some e => pending ∖ {[ e ]}
  end.

(** What one matched packet adds to the trace. *)
Definition entryEvents (frame : ReadAckFrame) (ackReceiveTime : TimePoint) (k : nat)
    (pending : gset PacketEvent) (p : OutstandingPacket) : list Event :=
  EvAcked p ::
  (if (pn p =? largestAcked frame)%N
   then [EvUpdateRtt (rttSampleOf ackReceiveTime k p) (ackDelay frame)] else []) ++
  (if needsProcess pending p then map (EvAckVisitor p) (frames (packet p)) else []).

(** The merge loop as [processAckFrame] runs it. *)
Definition mergeLoop (c : QuicConnectionStateBase) (pnSpace : PacketNumberSpace)
    (frame : ReadAckFrame) (ackVisitor : AckVisitor) (ackReceiveTime : TimePoint)
    : Outcome AckLoopState :=
  matchAckBlocks pnSpace frame ackVisitor ackReceiveTime (ackBlocks frame)
    (lastOutstandingPacket c pnSpace) (initialLoopState c ackReceiveTime).

End Samples.

(** ** Bookkeeping of the connection state *)

Section Bookkeeping.
Context {T : ExternalTypes} {X : Collaborators}.

(** The visitor's scope after a list of calls made for [frame], in
    order, and the RTT estimator's state after a list of feeds. *)
Definition applyVisits (ackVisitor : AckVisitor) (frame : ReadAckFrame)
    (calls : list (OutstandingPacket * QuicWriteFrame)) (scope : VisitorScope)
    : VisitorScope :=
  fold_left (fun s call => ackVisitor s (fst call) (snd call) frame) calls scope.

Definition applyRttFeeds (feeds : list (microseconds * microseconds)) (r : RttState)
    : RttState :=
  fold_left (fun r feed => updateRtt r (fst feed) (snd feed)) feeds r.

(** The packet events the packets of a list carry. *)
Definition carriedEvents (l : list OutstandingPacket) : gset PacketEvent :=
  list_to_set (omap associatedEvent l).

(** The packets of a list that are not in the space [pnSpace]. *)
Definition otherSpaces (pnSpace : PacketNumberSpace) (l : list OutstandingPacket)
    : list OutstandingPacket :=
  filter (fun p => spaceOf p <> pnSpace) l.

(** The handshake packets of the space [s] in a list. *)
Definition handshakeIn (s : PacketNumberSpace) (l : list OutstandingPacket)
    : list OutstandingPacket :=
  filter (fun p => isHandshake p = true /\ spaceOf p = s) l.

(** A ledger whose counters are exact: handshake packets are in the
    Initial or the Handshake space and carry no associated event, and the
    three counters are the numbers of Initial handshake packets, of
    Handshake handshake packets and of packets with an associated event. *)
Definition wellCounted (o : OutstandingsInfo) : Prop :=
  Forall (fun p => isHandshake p = true ->
                   associatedEvent p = None /\ spaceOf p <> AppData) (packets o) /\
  initialPacketsCount o = N.of_nat (length (handshakeIn Initial (packets o))) /\
  handshakePacketsCount o = N.of_nat (length (handshakeIn Handshake (packets o))) /\
  clonedPacketsCount o = N.of_nat (length (clonesOf (packets o))).

(** A packet the frame acknowledges, one of the space [pnSpace] that one
    of the blocks covers, and a packet it does not. *)
Definition acknowledged (pnSpace : PacketNumberSpace) (blocks : list AckBlock)
    (p : OutstandingPacket) : bool :=
  bool_decide (spaceOf p = pnSpace) && coveredBy blocks p.

Definition retained (pnSpace : PacketNumberSpace) (blocks : list AckBlock)
    (p : OutstandingPacket) : bool :=
  negb (acknowledged pnSpace blocks p).

(** The events the loop logs for a list of matched packets, in order,
    when [k] readings of the clock have been taken and the events
    [pending] are pending before the first of them. *)
Fixpoint loopEvents (frame : ReadAckFrame) (ackReceiveTime : TimePoint) (k : nat)
    (pending : gset PacketEvent) (l : list OutstandingPacket) : list Event :=
  match l with
  | [] => []
  | p :: rest =>
    entryEvents frame ackReceiveTime k pending p ++
    loopEvents frame ackReceiveTime
      (if sentBefore ackReceiveTime p then k else S k) (pendingAfter pending p) rest
  end.

(** The first ack block ends below every packet of the list, or there is
    no ack block. *)
Definition firstBlockBelow (blocks : list AckBlock) (l : list OutstandingPacket) : Prop :=
  match blocks with
  | [] => True
  | blk :: _ => Forall (fun p => (endPacket blk < pn p)%N) l
  end.

End Bookkeeping.

(** ** A concrete instance, for running the reconciler on examples *)

Module Scenario.

#[local] Instance types : ExternalTypes := {|
  PacketEvent := N;
  QuicWriteFrame := N;
  LastAckedPacketInfo := unit;
  RttState := list (Z * Z);
  AppState := list (N * N);
  CongestionController := nat;
  LossVisitor := unit;
  LossDetails := unit
|}.

(** The number of packets sent after the last packet of the space [s],
    for a ledger given last packet first: the distance from [rbegin()]
    of the first packet of that space, and the length of the ledger, that
    is [rend()], when it holds none. *)
Fixpoint packetsBehind (s : PacketNumberSpace) (reversed : list OutstandingPacket) : nat :=
  match reversed with
  | [] => 0
  | p :: rest => if bool_decide (spaceOf p = s) then 0 else S (packetsBehind s rest)
  end.

(** The clock reads one millisecond past the epoch, plus one tick per
    reading; the walk starts at the last packet of the space
    acknowledged, or at the front of the ledger when it holds none; the
    RTT estimator keeps the samples it is fed; the loss detector leaves
    the connection alone and answers [loss]; the congestion controller
    counts its notifications. *)
Definition collaborators (loss : option LossEvent) : Collaborators := {|
  Clock_now := fun k => (1000000 + Z.of_nat k)%Z;
  getLastOutstandingPacket := fun c s => packetsBehind s (rev (packets (outstandings c)));
  updateRtt := fun s x d => (s : list (Z * Z)) ++ [(x, d)];
  handleAckForLoss := fun c _ _ _ => (c, loss);
  isPersistentCongestion := fun _ smallest largest => (100 <? largest - smallest)%Z;
  onPacketAckOrLoss := fun cc _ _ => S cc;
  kAckPurgingThresh := 256%N
|}.

(** A packet numbered [n] in space [s], sent at [10 * n] nanoseconds,
    of 100 bytes, carrying the two frames [n] and [n + 1000]. *)
Definition sent (s : PacketNumberSpace) (n : N) (ev : option N) (hs : bool)
    : OutstandingPacket :=
  mkOutstandingPacket
    (mkRegularQuicWritePacket (mkPacketHeader n s) [n; (n + 1000)%N])
    (Z.of_N n * 10) 100 hs 0 None ev false.

(** The visitor appends the packet number and the frame to the
    application state. *)
Definition visitor : AckVisitor :=
  fun s p f _ => (fst s, snd s ++ [(pn p, f)]).

Definition noAcks : AckStates :=
  mkAckStates (mkAckState []) (mkAckState []) (mkAckState []).

Definition connection (l : list OutstandingPacket) (evs : gset N)
    (initials handshakes clones : N) (cc : option nat) : QuicConnectionStateBase :=
  mkConn (mkOutstandings l evs initials handshakes clones)
    (mkLossState 0 0 0 0 None None []) noAcks cc [].

Definition run (loss : option LossEvent) (c : QuicConnectionStateBase)
    (s : PacketNumberSpace) (frame : ReadAckFrame)
    : Outcome (QuicConnectionStateBase * list Event) :=
  processAckFrame (X := collaborators loss) c s frame visitor tt 5000%Z.

(** Two clones of one logical packet, event 7 pending. *)
Definition clonePair : QuicConnectionStateBase :=
  connection [sent AppData 1 (Some 7%N) false; sent AppData 2 (Some 7%N) false]
    {[ 7%N ]} 0 0 2 (Some 0%nat).

(** An Initial packet sent between two AppData packets. *)
Definition interleaved : QuicConnectionStateBase :=
  connection [sent AppData 8 None false; sent Initial 1 None true; sent AppData 9 None false]
    ∅ 1 0 0 (Some 0%nat).

(** The ledger of the ordering example: packets 40, 55, 60, 95 and 99. *)
Definition ordering : QuicConnectionStateBase :=
  connection (map (fun n => sent AppData n None false) [40; 55; 60; 95; 99]%N)
    ∅ 0 0 0 (Some 0%nat).

Definition lossAt (smallest largest : option TimePoint) : LossEvent :=
  mkLossEvent smallest largest false tt.

(** A lone AppData packet numbered 5. *)
Definition lone : QuicConnectionStateBase :=
  connection [sent AppData 5 None false] ∅ 0 0 0 (Some 0%nat).

(** A ledger in ascending order holding the three spaces: the Initial
    packet 1, the Handshake packet 3 and the AppData packets 2, 4 and 5. *)
Definition mixed : QuicConnectionStateBase :=
  connection
    [sent Initial 1 None true; sent AppData 2 None false; sent Handshake 3 None true;
     sent AppData 4 None false; sent AppData 5 None false]
    ∅ 1 1 0 (Some 0%nat).



End Scenario.

(** * Properties of the reconciler *)

Section Properties.
Context {T : ExternalTypes} {X : Collaborators}.

Implicit Types (st : AckLoopState) (p : OutstandingPacket) (t : list Event).
Implicit Types (frame : ReadAckFrame) (ackVisitor : AckVisitor).

(** ** The bisection *)

Lemma lower_bound_loop_le turns l val first len :
  (lower_bound_loop turns l val first len <= first)%nat.
Proof.
  revert first len. induction turns as [|turns IH]; intros first len; simpl.
  - lia.
  - destruct (len =? 0)%nat; [lia|].
    destruct (deref l (first - Nat.div2 len)) as [p|]; [|lia].
    destruct (val <? _)%N; [|apply IH].
    etransitivity; [apply IH|]. generalize (Nat.div2 len). lia.
Qed.

Lemma lower_bound_le l first val : (lower_bound l first val <= first)%nat.
Proof. apply lower_bound_loop_le. Qed.

(** More turns than elements change nothing: the bisection of [len]
    elements ends within [len] turns. *)
Lemma lower_bound_loop_enough turns turns' l val first len :
  (len <= turns)%nat -> (len <= turns')%nat ->
  lower_bound_loop turns l val first len = lower_bound_loop turns' l val first len.
Proof.
  revert turns' first len. induction turns as [|turns IH]; intros turns' first len H1 H2.
  - assert (len = 0%nat) as -> by lia. destruct turns'; reflexivity.
  - destruct turns' as [|turns'].
    + assert (len = 0%nat) as -> by lia. reflexivity.
    + simpl. destruct (len =? 0)%nat eqn:E; [reflexivity|].
      apply Nat.eqb_neq in E.
      destruct (deref l (first - Nat.div2 len)) as [p|]; [|reflexivity].
      assert (Nat.div2 len < len)%nat as Hhalf by (apply Nat.lt_div2; lia).
      revert Hhalf. generalize (Nat.div2 len). intros half Hhalf.
      destruct (val <? _)%N; apply IH; lia.
Qed.


(** ** Reading a trace piecewise *)

Lemma ackedOf_app t1 t2 : ackedOf (t1 ++ t2) = ackedOf t1 ++ ackedOf t2.
Proof. apply omap_app. Qed.

Lemma rttFeedsOf_app t1 t2 : rttFeedsOf (t1 ++ t2) = rttFeedsOf t1 ++ rttFeedsOf t2.
Proof. apply omap_app. Qed.

Lemma visitorCallsOf_app t1 t2 :
  visitorCallsOf (t1 ++ t2) = visitorCallsOf t1 ++ visitorCallsOf t2.
Proof. apply omap_app. Qed.

Lemma lossHandoffsOf_app t1 t2 :
  lossHandoffsOf (t1 ++ t2) = lossHandoffsOf t1 ++ lossHandoffsOf t2.
Proof. apply omap_app. Qed.

Lemma persistentCongestionCallsOf_app t1 t2 :
  persistentCongestionCallsOf (t1 ++ t2) =
  persistentCongestionCallsOf t1 ++ persistentCongestionCallsOf t2.
Proof. apply omap_app. Qed.

Lemma controllerCallsOf_app t1 t2 :
  controllerCallsOf (t1 ++ t2) = controllerCallsOf t1 ++ controllerCallsOf t2.
Proof. apply omap_app. Qed.

Lemma visitorCallsOf_visits p (fs : list QuicWriteFrame) :
  visitorCallsOf (map (EvAckVisitor p) fs) = map (pair p) fs.
Proof. induction fs as [|f fs IH]; simpl; [reflexivity|]. unfold visitorCallsOf in *. simpl. by rewrite IH. Qed.

Lemma ackedOf_visits p (fs : list QuicWriteFrame) : ackedOf (map (EvAckVisitor p) fs) = [].
Proof. induction fs as [|f fs IH]; simpl; [reflexivity|]. exact IH. Qed.

Lemma rttFeedsOf_visits p (fs : list QuicWriteFrame) :
  rttFeedsOf (map (EvAckVisitor p) fs) = [].
Proof. induction fs as [|f fs IH]; simpl; [reflexivity|]. exact IH. Qed.

Lemma lossHandoffsOf_visits p (fs : list QuicWriteFrame) :
  lossHandoffsOf (map (EvAckVisitor p) fs) = [].
Proof. induction fs as [|f fs IH]; simpl; [reflexivity|]. exact IH. Qed.

Lemma persistentCongestionCallsOf_visits p (fs : list QuicWriteFrame) :
  persistentCongestionCallsOf (map (EvAckVisitor p) fs) = [].
Proof. induction fs as [|f fs IH]; simpl; [reflexivity|]. exact IH. Qed.

Lemma controllerCallsOf_visits p (fs : list QuicWriteFrame) :
  controllerCallsOf (map (EvAckVisitor p) fs) = [].
Proof. induction fs as [|f fs IH]; simpl; [reflexivity|]. exact IH. Qed.

(** What one matched packet contributes to each reading of the trace. *)
Lemma ackedOf_entry frame art k pending p :
  ackedOf (entryEvents frame art k pending p) = [p].
Proof.
  unfold entryEvents. change (EvAcked p :: ?l) with ([EvAcked p] ++ l).
  rewrite !ackedOf_app. repeat case_match; simpl; rewrite ?ackedOf_visits; reflexivity.
Qed.

Lemma rttFeedsOf_entry frame art k pending p :
  rttFeedsOf (entryEvents frame art k pending p) =
  if (pn p =? largestAcked frame)%N
  then [(rttSampleOf art k p, ackDelay frame)] else [].
Proof.
  unfold entryEvents. change (EvAcked p :: ?l) with ([EvAcked p] ++ l).
  rewrite !rttFeedsOf_app.
  repeat case_match; simpl; rewrite ?rttFeedsOf_visits; reflexivity.
Qed.

Lemma visitorCallsOf_entry frame art k pending p :
  visitorCallsOf (entryEvents frame art k pending p) =
  if needsProcess pending p then callsFor p else [].
Proof.
  unfold entryEvents. change (EvAcked p :: ?l) with ([EvAcked p] ++ l).
  rewrite !visitorCallsOf_app.
  repeat case_match; simpl; rewrite ?visitorCallsOf_visits; reflexivity.
Qed.

Lemma lossHandoffsOf_entry frame art k pending p :
  lossHandoffsOf (entryEvents frame art k pending p) = [].
Proof.
  unfold entryEvents. change (EvAcked p :: ?l) with ([EvAcked p] ++ l).
  rewrite !lossHandoffsOf_app.
  repeat case_match; simpl; rewrite ?lossHandoffsOf_visits; reflexivity.
Qed.

Lemma persistentCongestionCallsOf_entry frame art k pending p :
  persistentCongestionCallsOf (entryEvents frame art k pending p) = [].
Proof.
  unfold entryEvents. change (EvAcked p :: ?l) with ([EvAcked p] ++ l).
  rewrite !persistentCongestionCallsOf_app.
  repeat case_match; simpl; rewrite ?persistentCongestionCallsOf_visits; reflexivity.
Qed.

Lemma controllerCallsOf_entry frame art k pending p :
  controllerCallsOf (entryEvents frame art k pending p) = [].
Proof.
  unfold entryEvents. change (EvAcked p :: ?l) with ([EvAcked p] ++ l).
  rewrite !controllerCallsOf_app.
  repeat case_match; simpl; rewrite ?controllerCallsOf_visits; reflexivity.
Qed.

(** ** One matched packet *)

Ltac ack_inv H :=
  unfold ackOutstandingPacket in H;
  match type of H with
  | mbind _ ?m = _ =>
    let E := fresh "Ecount" in
    let Et := fresh "Etime" in
    destruct m as [[? ?]|] eqn:E; [|discriminate H];
    unfold mbind, Outcome_bind, mret, Outcome_ret in H;
    destruct (time _ <? _)%Z eqn:Et;
    injection H as <-
  end.

Lemma ack_ledger frame ackVisitor art p st st' :
  ackOutstandingPacket frame ackVisitor art p st = Ok st' -> ledger st' = ledger st.
Proof. intros H. ack_inv H; reflexivity. Qed.

Lemma ack_trace frame ackVisitor art p st st' :
  ackOutstandingPacket frame ackVisitor art p st = Ok st' ->
  trace st' =
  trace st ++
  entryEvents frame art (clockReads st) (packetEvents (outstandings (conn st))) p.
Proof.
  intros H. ack_inv H; simpl; unfold entryEvents, rttSampleOf, needsProcess, pn;
    rewrite Etime;
    destruct (getPacketSequenceNum (header (packet p)) =? largestAcked frame)%N;
    destruct (match associatedEvent p with Some _ => _ | None => _ end);
    simpl; rewrite <- ?app_assoc; reflexivity.
Qed.

Lemma ack_clockReads frame ackVisitor art p st st' :
  ackOutstandingPacket frame ackVisitor art p st = Ok st' ->
  clockReads st' = if sentBefore art p then clockReads st else S (clockReads st).
Proof. intros H. unfold sentBefore. ack_inv H; reflexivity. Qed.

Lemma ack_packetEvents frame ackVisitor art p st st' :
  ackOutstandingPacket frame ackVisitor art p st = Ok st' ->
  packetEvents (outstandings (conn st')) =
  pendingAfter (packetEvents (outstandings (conn st))) p.
Proof.
  intros H. unfold pendingAfter.
  ack_inv H; simpl; destruct (associatedEvent p) as [e|]; try reflexivity;
    case_bool_decide as Hin; try reflexivity.
  all: apply set_eq; intros x; rewrite elem_of_difference, elem_of_singleton;
    split; [intros Hx; split; [done|by intros ->]|by intros [? _]].
Qed.

Lemma ack_counts frame ackVisitor art p st st' :
  ackOutstandingPacket frame ackVisitor art p st = Ok st' ->
  initialPacketsCount (outstandings (conn st')) = initialPacketsCount (outstandings (conn st)) /\
  handshakePacketsCount (outstandings (conn st')) = handshakePacketsCount (outstandings (conn st)) /\
  clonedPacketsCount (outstandings (conn st')) = clonedPacketsCount (outstandings (conn st)) /\
  congestionController (conn st') = congestionController (conn st).
Proof. intros H. ack_inv H; simpl; auto. Qed.

Lemma ack_ackedBytes frame ackVisitor art p st st' :
  ackOutstandingPacket frame ackVisitor art p st = Ok st' ->
  ackedBytes (ack st') = wrap64 (ackedBytes (ack st) + encodedSize p).
Proof. intros H. ack_inv H; reflexivity. Qed.

Lemma ack_ackTime frame ackVisitor art p st st' :
  ackOutstandingPacket frame ackVisitor art p st = Ok st' ->
  ackTime (ack st') = ackTime (ack st).
Proof. intros H. ack_inv H; reflexivity. Qed.

Lemma ack_clonedPacketsAcked frame ackVisitor art p st st' :
  ackOutstandingPacket frame ackVisitor art p st = Ok st' ->
  clonedPacketsAcked st' =
  if isClone p then wrap64 (clonedPacketsAcked st + 1) else clonedPacketsAcked st.
Proof.
  intros H. unfold isClone.
  ack_inv H; simpl; destruct (associatedEvent p); simpl; try reflexivity;
    case_bool_decide as Hs; try reflexivity;
    first [ destruct Hs; eauto | destruct Hs as [? [=]] ].
Qed.

Lemma ack_largestAckedPacket frame ackVisitor art p st st' :
  ackOutstandingPacket frame ackVisitor art p st = Ok st' ->
  is_Some (largestAckedPacket (ack st')).
Proof.
  intros H.
  ack_inv H; simpl; destruct (largestAckedPacket (ack st)) as [m|]; simpl;
    try destruct (m <? _)%N; eauto.
Qed.

Lemma ack_mrttSample frame ackVisitor art p st st' :
  ackOutstandingPacket frame ackVisitor art p st = Ok st' ->
  mrttSample (ack st') =
  if sentBefore art p
  then Some (Z.min (default (rttSampleOf art (clockReads st) p) (mrttSample (ack st)))
               (rttSampleOf art (clockReads st) p))
  else mrttSample (ack st).
Proof.
  intros H. unfold sentBefore, rttSampleOf. ack_inv H; simpl; rewrite ?Etime; reflexivity.
Qed.

Lemma ack_ackedPackets frame ackVisitor art p st st' :
  ackOutstandingPacket frame ackVisitor art p st = Ok st' ->
  ackedPackets (ack st') =
  ackedPackets (ack st) ++
  [mkAckPacket (time p) (encodedSize p) (lastAckedPacketInfo p) (totalBytesSent p)
     (isAppLimited p)].
Proof. intros H. ack_inv H; reflexivity. Qed.

(** The only check inside the loop is the one on the space of a handshake
    packet: it fails for a processed handshake packet in the AppData
    space, after the packet has been logged. *)
Lemma ack_Fatal frame ackVisitor art p st c t :
  ackOutstandingPacket frame ackVisitor art p st = Fatal c t ->
  c = CheckHandshakeSpace /\ t = trace st ++ [EvAcked p] /\
  spaceOf p = AppData /\ isHandshake p = true.
Proof.
  unfold ackOutstandingPacket, spaceOf. intros H.
  destruct (isHandshake p) eqn:Eh; simpl in H.
  - destruct (match associatedEvent p with Some _ => _ | None => _ end);
      [destruct (getPacketNumberSpace (header (packet p)))|];
      simpl in H; try (destruct (time p <? art)%Z; discriminate H).
    injection H as <- <-. auto.
  - destruct (time p <? art)%Z; discriminate H.
Qed.


(** ** Invariants of the merge loop

    A property of the loop state that does not depend on the list of
    outstanding packets, and that every matched packet preserves, holds
    when the loop ends; [Q] is what is known if a check aborts it. *)

Section LoopInvariant.
Variables (pnSpace : PacketNumberSpace) (frame : ReadAckFrame).
Variables (ackVisitor : AckVisitor) (art : TimePoint).
Variable P : AckLoopState -> Prop.
Variable Q : CheckFailure -> list Event -> Prop.
Hypothesis P_setPackets : forall l st, P st -> P (setPackets l st).
Hypothesis P_step : forall p st,
  P st -> spaceOf p = pnSpace ->
  match ackOutstandingPacket frame ackVisitor art p st with
  | Ok st' => P st'
  | Fatal c t => Q c t
  end.

Lemma walkAckBlock_invariant blk rPacketIt eraseEnd st :
  P st ->
  match walkAckBlock pnSpace frame ackVisitor art blk rPacketIt eraseEnd st with
  | Ok (_, _, st') => P st'
  | Fatal c t => Q c t
  end.
Proof.
  revert eraseEnd st. induction rPacketIt as [|next IH]; intros eraseEnd st HP; simpl.
  - exact HP.
  - destruct (ledger st !! next) as [p|] eqn:Ep; [|exact HP].
    case_bool_decide as Hspace.
    + case_bool_decide; apply IH; [apply P_setPackets|]; exact HP.
    + destruct (_ <? _)%N; [exact HP|].
      assert (spaceOf p = pnSpace) as Hp by (unfold spaceOf; congruence).
      pose proof (P_step p st HP Hp) as Hstep.
      destruct (ackOutstandingPacket frame ackVisitor art p st) as [st'|c t]; [|exact Hstep].
      apply IH, Hstep.
Qed.

Lemma matchAckBlocks_invariant blocks currentPacketIt st :
  P st ->
  match matchAckBlocks pnSpace frame ackVisitor art blocks currentPacketIt st with
  | Ok st' => P st'
  | Fatal c t => Q c t
  end.
Proof.
  revert currentPacketIt st.
  induction blocks as [|blk rest IH]; intros currentPacketIt st HP; simpl.
  - exact HP.
  - destruct (currentPacketIt =? 0)%nat; [exact HP|].
    destruct (lower_bound (ledger st) currentPacketIt (endPacket blk) =? 0)%nat; [exact HP|].
    pose proof (walkAckBlock_invariant blk
                  (lower_bound (ledger st) currentPacketIt (endPacket blk))
                  (lower_bound (ledger st) currentPacketIt (endPacket blk)) st HP) as Hw.
    destruct (walkAckBlock _ _ _ _ _ _ _ _) as [[[r e] st1]|c t]; simpl; [|exact Hw].
    apply IH. case_bool_decide; [apply P_setPackets|]; exact Hw.
Qed.

End LoopInvariant.


(** ** What the loop accumulates *)

Lemma wrap64_add_l a b : wrap64 (wrap64 a + b) = wrap64 (a + b).
Proof. unfold wrap64. apply N.Div0.add_mod_idemp_l. Qed.

Lemma wrap64_small n : (n < 2 ^ 64)%N -> wrap64 n = n.
Proof. intros. unfold wrap64. by apply N.mod_small. Qed.

Lemma sumEncodedSize_snoc (l : list OutstandingPacket) p :
  sumEncodedSize (l ++ [p]) = (sumEncodedSize l + encodedSize p)%N.
Proof. induction l as [|q l IH]; simpl; [lia|]. rewrite IH. lia. Qed.

Lemma clonesOf_snoc (l : list OutstandingPacket) p :
  length (clonesOf (l ++ [p])) =
  if isClone p then S (length (clonesOf l)) else length (clonesOf l).
Proof.
  unfold clonesOf, isClone. rewrite filter_app, length_app.
  case_bool_decide as Hc.
  - rewrite filter_cons_True by done. simpl. lia.
  - rewrite filter_cons_False by done. simpl. lia.
Qed.

Ltac loop_invariant P Q H :=
  lazymatch type of H with
  | matchAckBlocks ?s ?f ?v ?a ?bs ?cur ?st0 = _ =>
    let Hi := fresh "Hinv" in
    pose proof (matchAckBlocks_invariant s f v a P Q) as Hi;
    specialize (fun H1 H2 H3 => Hi H1 H2 bs cur st0 H3);
    rewrite H in Hi; apply Hi; clear Hi
  end.

Section Accumulated.
Variables (c0 : QuicConnectionStateBase) (pnSpace : PacketNumberSpace).
Variables (frame : ReadAckFrame) (ackVisitor : AckVisitor) (art : TimePoint).
Variables (blocks : list AckBlock) (cur : nat).

Let loop : Outcome AckLoopState :=
  matchAckBlocks pnSpace frame ackVisitor art blocks cur (initialLoopState c0 art).

Lemma loop_ackedBytes st :
  loop = Ok st ->
  ackedBytes (ack st) = wrap64 (sumEncodedSize (ackedOf (trace st))) /\
  ackTime (ack st) = art.
Proof.
  unfold loop. intros H.
  loop_invariant
    (fun st => ackedBytes (ack st) = wrap64 (sumEncodedSize (ackedOf (trace st))) /\
               ackTime (ack st) = art)
    (fun (_ : CheckFailure) (_ : list Event) => True) H.
  - intros l s Hs. exact Hs.
  - intros p s [Hb Ht] _.
    destruct (ackOutstandingPacket frame ackVisitor art p s) as [s'|] eqn:E; [|done].
    rewrite (ack_ackedBytes _ _ _ _ _ _ E), (ack_trace _ _ _ _ _ _ E),
      (ack_ackTime _ _ _ _ _ _ E), ackedOf_app, ackedOf_entry, sumEncodedSize_snoc, Hb.
    split; [apply wrap64_add_l|exact Ht].
  - split; reflexivity.
Qed.

Lemma loop_clonedPacketsAcked st :
  loop = Ok st ->
  clonedPacketsAcked st = wrap64 (N.of_nat (length (clonesOf (ackedOf (trace st))))).
Proof.
  unfold loop. intros H.
  loop_invariant
    (fun st => clonedPacketsAcked st =
               wrap64 (N.of_nat (length (clonesOf (ackedOf (trace st))))))
    (fun (_ : CheckFailure) (_ : list Event) => True) H.
  - intros l s Hs. exact Hs.
  - intros p s Hs _.
    destruct (ackOutstandingPacket frame ackVisitor art p s) as [s'|] eqn:E; [|done].
    rewrite (ack_clonedPacketsAcked _ _ _ _ _ _ E), (ack_trace _ _ _ _ _ _ E),
      ackedOf_app, ackedOf_entry, clonesOf_snoc, Hs.
    destruct (isClone p); [|reflexivity].
    rewrite wrap64_add_l. f_equal. lia.
  - reflexivity.
Qed.

Lemma loop_largestAckedPacket st :
  loop = Ok st ->
  (is_Some (largestAckedPacket (ack st)) <-> ackedOf (trace st) <> []).
Proof.
  unfold loop. intros H.
  loop_invariant
    (fun st => is_Some (largestAckedPacket (ack st)) <-> ackedOf (trace st) <> [])
    (fun (_ : CheckFailure) (_ : list Event) => True) H.
  - intros l s Hs. exact Hs.
  - intros p s Hs _.
    destruct (ackOutstandingPacket frame ackVisitor art p s) as [s'|] eqn:E; [|done].
    rewrite (ack_trace _ _ _ _ _ _ E), ackedOf_app, ackedOf_entry.
    split; intros _.
    + intros Hnil. by apply app_nil in Hnil as [_ ?].
    + exact (ack_largestAckedPacket _ _ _ _ _ _ E).
  - simpl. split; [intros [? [=]]|done].
Qed.

Lemma loop_ackedPackets st :
  loop = Ok st -> ackedPackets (ack st) = map ackPacketOf (ackedOf (trace st)).
Proof.
  unfold loop. intros H.
  loop_invariant
    (fun st => ackedPackets (ack st) = map ackPacketOf (ackedOf (trace st)))
    (fun (_ : CheckFailure) (_ : list Event) => True) H.
  - intros l s Hs. exact Hs.
  - intros p s Hs _.
    destruct (ackOutstandingPacket frame ackVisitor art p s) as [s'|] eqn:E; [|done].
    rewrite (ack_ackedPackets _ _ _ _ _ _ E), (ack_trace _ _ _ _ _ _ E),
      ackedOf_app, ackedOf_entry, map_app, Hs. reflexivity.
  - reflexivity.
Qed.

Lemma loop_spaces st :
  loop = Ok st -> Forall (fun p => spaceOf p = pnSpace) (ackedOf (trace st)).
Proof.
  unfold loop. intros H.
  loop_invariant
    (fun st => Forall (fun p => spaceOf p = pnSpace) (ackedOf (trace st)))
    (fun (_ : CheckFailure) (_ : list Event) => True) H.
  - intros l s Hs. exact Hs.
  - intros p s Hs Hp.
    destruct (ackOutstandingPacket frame ackVisitor art p s) as [s'|] eqn:E; [|done].
    rewrite (ack_trace _ _ _ _ _ _ E), ackedOf_app, ackedOf_entry.
    apply Forall_app. split; [exact Hs|]. by constructor.
  - constructor.
Qed.

(** The loop calls neither the loss detector, nor the persistent
    congestion predicate, nor the congestion controller, also when a check
    aborts it. *)
Lemma quiet_entry t frame' art' k pending p :
  quiet t -> quiet (t ++ entryEvents frame' art' k pending p).
Proof.
  intros (H1 & H2 & H3). unfold quiet.
  rewrite lossHandoffsOf_app, persistentCongestionCallsOf_app, controllerCallsOf_app,
    lossHandoffsOf_entry, persistentCongestionCallsOf_entry, controllerCallsOf_entry,
    H1, H2, H3. done.
Qed.

Lemma loop_quiet :
  match loop with
  | Ok st => quiet (trace st)
  | Fatal _ t => quiet t
  end.
Proof.
  unfold loop.
  apply (matchAckBlocks_invariant pnSpace frame ackVisitor art
           (fun st => quiet (trace st)) (fun _ t => quiet t)).
  - intros l s Hs. exact Hs.
  - intros p s Hs _.
    destruct (ackOutstandingPacket frame ackVisitor art p s) as [s'|c t] eqn:E.
    + rewrite (ack_trace _ _ _ _ _ _ E). by apply quiet_entry.
    + apply ack_Fatal in E as (_ & -> & _). destruct Hs as (H1 & H2 & H3). unfold quiet.
      rewrite lossHandoffsOf_app, persistentCongestionCallsOf_app, controllerCallsOf_app,
        H1, H2, H3. done.
  - done.
Qed.

(** The loop leaves the three counters and the congestion controller of
    the connection alone. *)
Lemma loop_counts st :
  loop = Ok st ->
  initialPacketsCount (outstandings (conn st)) = initialPacketsCount (outstandings c0) /\
  handshakePacketsCount (outstandings (conn st)) = handshakePacketsCount (outstandings c0) /\
  clonedPacketsCount (outstandings (conn st)) = clonedPacketsCount (outstandings c0) /\
  congestionController (conn st) = congestionController c0.
Proof.
  unfold loop. intros H.
  loop_invariant
    (fun st =>
       initialPacketsCount (outstandings (conn st)) = initialPacketsCount (outstandings c0) /\
       handshakePacketsCount (outstandings (conn st)) = handshakePacketsCount (outstandings c0) /\
       clonedPacketsCount (outstandings (conn st)) = clonedPacketsCount (outstandings c0) /\
       congestionController (conn st) = congestionController c0)
    (fun (_ : CheckFailure) (_ : list Event) => True) H.
  - intros l s Hs. exact Hs.
  - intros p s Hs _.
    destruct (ackOutstandingPacket frame ackVisitor art p s) as [s'|] eqn:E; [|done].
    destruct (ack_counts _ _ _ _ _ _ E) as (-> & -> & -> & ->). exact Hs.
  - done.
Qed.

End Accumulated.


(** ** RTT samples *)

Lemma clockReadsFor_cons art p (l : list OutstandingPacket) :
  clockReadsFor art (p :: l) =
  ((if sentBefore art p then 0 else 1) + clockReadsFor art l)%nat.
Proof.
  unfold clockReadsFor. destruct (sentBefore art p) eqn:E.
  - by rewrite filter_cons_False by (rewrite E; done).
  - by rewrite filter_cons_True by done.
Qed.

Lemma clockReadsFor_snoc art (l : list OutstandingPacket) p :
  clockReadsFor art (l ++ [p]) =
  if sentBefore art p then clockReadsFor art l else S (clockReadsFor art l).
Proof.
  unfold clockReadsFor. rewrite filter_app, length_app.
  destruct (sentBefore art p) eqn:E.
  - rewrite filter_cons_False by (rewrite E; done). simpl. lia.
  - rewrite filter_cons_True by done. simpl. lia.
Qed.

Lemma rttSamples_snoc art k (l : list OutstandingPacket) p :
  rttSamples art k (l ++ [p]) =
  rttSamples art k l ++ [(p, rttSampleOf art (k + clockReadsFor art l) p)].
Proof.
  revert k. induction l as [|q l IH]; intros k; simpl.
  - by rewrite Nat.add_0_r.
  - rewrite IH, clockReadsFor_cons. unfold sentBefore.
    destruct (time q <? art)%Z; simpl; repeat f_equal; lia.
Qed.

Lemma rttSamples_fst art k (l : list OutstandingPacket) :
  map fst (rttSamples art k l) = l.
Proof. revert k. induction l as [|q l IH]; intros k; simpl; [done|]. by rewrite IH. Qed.

Lemma rttFeedsFor_snoc frame (xs : list (OutstandingPacket * microseconds)) p s :
  rttFeedsFor frame (xs ++ [(p, s)]) =
  rttFeedsFor frame xs ++
  (if (pn p =? largestAcked frame)%N then [(s, ackDelay frame)] else []).
Proof.
  unfold rttFeedsFor. rewrite filter_app, map_app. f_equal.
  destruct (N.eqb_spec (pn p) (largestAcked frame)) as [E|E].
  - by rewrite filter_cons_True by done.
  - by rewrite filter_cons_False by done.
Qed.

Lemma mrttSamplesOf_snoc art (xs : list (OutstandingPacket * microseconds)) p s :
  mrttSamplesOf art (xs ++ [(p, s)]) =
  mrttSamplesOf art xs ++ (if sentBefore art p then [s] else []).
Proof.
  unfold mrttSamplesOf. rewrite filter_app, map_app. f_equal.
  destruct (sentBefore art p) eqn:E.
  - by rewrite filter_cons_True by done.
  - rewrite filter_cons_False; [done|]. simpl. by rewrite E.
Qed.

Lemma minimumOf_snoc (l : list microseconds) x :
  minimumOf (l ++ [x]) = Some (Z.min (default x (minimumOf l)) x).
Proof.
  induction l as [|y l IH]; simpl.
  - by rewrite Z.min_id.
  - rewrite IH. destruct (minimumOf l); simpl; f_equal; lia.
Qed.

(** [minimumOf] is the least element of the list. *)
Lemma minimumOf_least (l : list microseconds) m :
  minimumOf l = Some m <-> m ∈ l /\ Forall (fun x => (m <= x)%Z) l.
Proof.
  revert m. induction l as [|y l IH]; intros m; simpl.
  - split; [done|]. intros [H _]. by apply elem_of_nil in H.
  - destruct (minimumOf l) as [z|] eqn:E.
    + specialize (IH z). destruct IH as [IH _]. destruct (IH eq_refl) as [Hin Hall].
      split.
      * intros [= <-]. split.
        -- destruct (Z.min_spec y z) as [[_ ->]|[_ ->]]; [left|by right].
        -- constructor; [lia|]. eapply Forall_impl; [exact Hall|]. simpl. lia.
      * intros [Hm Hle]. f_equal. inversion Hle as [|? ? Hy Hl]; subst.
        apply elem_of_cons in Hm as [->|Hm].
        -- rewrite Forall_forall in Hl. specialize (Hl z Hin). lia.
        -- rewrite Forall_forall in Hall. specialize (Hall m Hm).
           rewrite Forall_forall in Hl. specialize (Hl z Hin). lia.
    + assert (l = []) as ->.
      { destruct l as [|w l]; [done|]. simpl in E. discriminate E. }
      split.
      * intros [= <-]. split; [left|]. constructor; [lia|constructor].
      * intros [Hm _]. apply list_elem_of_singleton in Hm. by subst.
Qed.

Lemma minimumOf_None (l : list microseconds) : minimumOf l = None <-> l = [].
Proof. destruct l; simpl; split; done. Qed.

Section SampledLoop.
Variables (c0 : QuicConnectionStateBase) (pnSpace : PacketNumberSpace).
Variables (frame : ReadAckFrame) (ackVisitor : AckVisitor) (art : TimePoint).
Variables (blocks : list AckBlock) (cur : nat).

Let loop : Outcome AckLoopState :=
  matchAckBlocks pnSpace frame ackVisitor art blocks cur (initialLoopState c0 art).

Lemma loop_samples st :
  loop = Ok st ->
  rttFeedsOf (trace st) = rttFeedsFor frame (rttSamples art 0 (ackedOf (trace st))) /\
  clockReads st = clockReadsFor art (ackedOf (trace st)) /\
  mrttSample (ack st) =
  minimumOf (mrttSamplesOf art (rttSamples art 0 (ackedOf (trace st)))).
Proof.
  unfold loop. intros H.
  loop_invariant
    (fun st =>
       rttFeedsOf (trace st) = rttFeedsFor frame (rttSamples art 0 (ackedOf (trace st))) /\
       clockReads st = clockReadsFor art (ackedOf (trace st)) /\
       mrttSample (ack st) =
       minimumOf (mrttSamplesOf art (rttSamples art 0 (ackedOf (trace st)))))
    (fun (_ : CheckFailure) (_ : list Event) => True) H.
  - intros l s Hs. exact Hs.
  - intros p s (Hf & Hk & Hm) _.
    destruct (ackOutstandingPacket frame ackVisitor art p s) as [s'|] eqn:E; [|done].
    rewrite (ack_trace _ _ _ _ _ _ E), (ack_clockReads _ _ _ _ _ _ E),
      (ack_mrttSample _ _ _ _ _ _ E), rttFeedsOf_app, ackedOf_app, ackedOf_entry,
      rttFeedsOf_entry, rttSamples_snoc, rttFeedsFor_snoc, mrttSamplesOf_snoc,
      clockReadsFor_snoc, Hf, Hk, Hm.
    split; [reflexivity|]. split; [reflexivity|].
    destruct (sentBefore art p); [|by rewrite app_nil_r].
    by rewrite minimumOf_snoc.
  - done.
Qed.

End SampledLoop.


(** ** Clones: which matched packets reach the visitor *)

Lemma visitsOf_callsFor e p :
  visitsOf e (callsFor p) =
  if decide (associatedEvent p = Some e) then callsFor p else [].
Proof.
  unfold visitsOf, callsFor. generalize (frames (packet p)). intros fs.
  destruct (decide (associatedEvent p = Some e)) as [E|E].
  - induction fs as [|f fs IH]; simpl; [done|].
    rewrite filter_cons_True by done. by rewrite IH.
  - induction fs as [|f fs IH]; simpl; [done|].
    rewrite filter_cons_False by done. exact IH.
Qed.

Lemma visitsOfOriginals_callsFor p :
  visitsOfOriginals (callsFor p) =
  if decide (associatedEvent p = None) then callsFor p else [].
Proof.
  unfold visitsOfOriginals, callsFor. generalize (frames (packet p)). intros fs.
  destruct (decide (associatedEvent p = None)) as [E|E].
  - induction fs as [|f fs IH]; simpl; [done|].
    rewrite filter_cons_True by done. by rewrite IH.
  - induction fs as [|f fs IH]; simpl; [done|].
    rewrite filter_cons_False by done. exact IH.
Qed.

Lemma visitsOf_app e (a b : list (OutstandingPacket * QuicWriteFrame)) :
  visitsOf e (a ++ b) = visitsOf e a ++ visitsOf e b.
Proof. apply filter_app. Qed.

Lemma visitsOfOriginals_app (a b : list (OutstandingPacket * QuicWriteFrame)) :
  visitsOfOriginals (a ++ b) = visitsOfOriginals a ++ visitsOfOriginals b.
Proof. apply filter_app. Qed.

Lemma entriesOf_snoc e (l : list OutstandingPacket) p :
  entriesOf e (l ++ [p]) =
  entriesOf e l ++ (if decide (associatedEvent p = Some e) then [p] else []).
Proof.
  unfold entriesOf. rewrite filter_app. reflexivity.
Qed.

Lemma originalsOf_snoc (l : list OutstandingPacket) p :
  originalsOf (l ++ [p]) =
  originalsOf l ++ (if decide (associatedEvent p = None) then [p] else []).
Proof.
  unfold originalsOf. rewrite filter_app. reflexivity.
Qed.

Section Clones.
Variables (c0 : QuicConnectionStateBase) (pnSpace : PacketNumberSpace).
Variables (frame : ReadAckFrame) (ackVisitor : AckVisitor) (art : TimePoint).
Variables (blocks : list AckBlock) (cur : nat).

Let loop : Outcome AckLoopState :=
  matchAckBlocks pnSpace frame ackVisitor art blocks cur (initialLoopState c0 art).

Let pending0 : gset PacketEvent := packetEvents (outstandings c0).

(** An event is still pending exactly when it was pending at the start
    and no matched packet carried it; the visitor calls on the packets
    carrying an event are those of the first such packet matched, if the
    event was pending at the start; packets without an event are all
    visited. *)
Lemma loop_clones st :
  loop = Ok st ->
  (forall e, e ∈ packetEvents (outstandings (conn st)) <->
             e ∈ pending0 /\ entriesOf e (ackedOf (trace st)) = []) /\
  (forall e, visitsOf e (visitorCallsOf (trace st)) =
             match entriesOf e (ackedOf (trace st)) with
             | [] => []
             | p :: _ => if bool_decide (e ∈ pending0) then callsFor p else []
             end) /\
  visitsOfOriginals (visitorCallsOf (trace st)) =
  flat_map callsFor (originalsOf (ackedOf (trace st))).
Proof.
  unfold loop. intros H.
  loop_invariant
    (fun st =>
       (forall e, e ∈ packetEvents (outstandings (conn st)) <->
                  e ∈ pending0 /\ entriesOf e (ackedOf (trace st)) = []) /\
       (forall e, visitsOf e (visitorCallsOf (trace st)) =
                  match entriesOf e (ackedOf (trace st)) with
                  | [] => []
                  | p :: _ => if bool_decide (e ∈ pending0) then callsFor p else []
                  end) /\
       visitsOfOriginals (visitorCallsOf (trace st)) =
       flat_map callsFor (originalsOf (ackedOf (trace st))))
    (fun (_ : CheckFailure) (_ : list Event) => True) H.
  - intros l s Hs. exact Hs.
  - intros p s (Hpend & Hvis & Horig) _.
    destruct (ackOutstandingPacket frame ackVisitor art p s) as [s'|] eqn:E; [|done].
    rewrite (ack_trace _ _ _ _ _ _ E), (ack_packetEvents _ _ _ _ _ _ E),
      visitorCallsOf_app, ackedOf_app, ackedOf_entry, visitorCallsOf_entry.
    unfold needsProcess, pendingAfter.
    destruct (associatedEvent p) as [e0|] eqn:Ep.
    + (* a clone *)
      split; [|split].
      * intros e. rewrite entriesOf_snoc, Ep, elem_of_difference, Hpend.
        destruct (decide (Some e0 = Some e)) as [[= ->]|Hne].
        -- split; [intros [_ Hn]; exfalso; apply Hn; by apply elem_of_singleton|].
           intros [_ Hnil]. by apply app_nil in Hnil as [_ ?].
        -- rewrite app_nil_r. split; [tauto|]. intros [? ?]. split; [done|].
           intros ->%elem_of_singleton. done.
      * intros e. rewrite visitsOf_app, entriesOf_snoc, Ep, Hvis.
        destruct (decide (Some e0 = Some e)) as [[= ->]|Hne].
        -- destruct (decide (e ∈ packetEvents (outstandings (conn s)))) as [Hin|Hin].
           ++ rewrite (bool_decide_eq_true_2 _ Hin).
              apply Hpend in Hin as [Hin0 ->]. simpl.
              rewrite visitsOf_callsFor, Ep, decide_True by done.
              by rewrite (bool_decide_eq_true_2 _ Hin0).
           ++ rewrite (bool_decide_eq_false_2 _ Hin). rewrite app_nil_r.
              destruct (entriesOf e (ackedOf (trace s))) as [|q qs] eqn:Eq; simpl; [|done].
              destruct (decide (e ∈ pending0)) as [Hin0|Hin0].
              ** exfalso. apply Hin, Hpend. done.
              ** by rewrite (bool_decide_eq_false_2 _ Hin0).
        -- rewrite app_nil_r.
           assert (visitsOf e (if bool_decide (e0 ∈ packetEvents (outstandings (conn s)))
                               then callsFor p else []) = []) as ->.
           { case_bool_decide; [|done].
             rewrite visitsOf_callsFor, Ep. by rewrite decide_False. }
           by rewrite app_nil_r.
      * rewrite visitsOfOriginals_app, originalsOf_snoc, flat_map_app, Horig, Ep.
        rewrite decide_False by done. simpl.
        assert (visitsOfOriginals
                  (if bool_decide (e0 ∈ packetEvents (outstandings (conn s)))
                   then callsFor p else []) = []) as ->.
        { case_bool_decide; [|done].
          rewrite visitsOfOriginals_callsFor, Ep. by rewrite decide_False. }
        done.
    + (* no associated event *)
      split; [|split].
      * intros e. rewrite entriesOf_snoc, Ep, decide_False, app_nil_r by done. apply Hpend.
      * intros e. rewrite visitsOf_app, entriesOf_snoc, Ep, decide_False, app_nil_r by done.
        rewrite visitsOf_callsFor, Ep, decide_False, app_nil_r by done. apply Hvis.
      * rewrite visitsOfOriginals_app, originalsOf_snoc, flat_map_app, Horig, Ep.
        rewrite visitsOfOriginals_callsFor, Ep, !decide_True by done.
        simpl. by rewrite app_nil_r.
  - split; [|split]; [|done..]. intros e. simpl. split; [done|]. by intros [? _].
Qed.

End Clones.


(** ** The ledger: matched packets are the packets erased *)

Lemma erase_empty_range (l : list OutstandingPacket) n : erase l n n = l.
Proof. apply take_drop. Qed.

Lemma erase_length (l : list OutstandingPacket) first last :
  (first <= last <= length l)%nat ->
  length (erase l first last) = (first + (length l - last))%nat.
Proof. intros H. unfold erase. rewrite length_app, length_take, length_drop. lia. Qed.

Lemma ledger_erasePackets r e st : ledger (erasePackets r e st) = erase (ledger st) r e.
Proof. reflexivity. Qed.

Lemma trace_erasePackets r e st : trace (erasePackets r e st) = trace st.
Proof. reflexivity. Qed.

Section Ledger.
Variables (pnSpace : PacketNumberSpace) (frame : ReadAckFrame).
Variables (ackVisitor : AckVisitor) (art : TimePoint).

Lemma walkAckBlock_ledger blk rPacketIt eraseEnd st rPacketIt' eraseEnd' st' :
  (rPacketIt <= eraseEnd <= length (ledger st))%nat ->
  walkAckBlock pnSpace frame ackVisitor art blk rPacketIt eraseEnd st =
    Ok (rPacketIt', eraseEnd', st') ->
  (rPacketIt' <= eraseEnd' <= length (ledger st'))%nat /\
  erase (ledger st') rPacketIt' eraseEnd' ++ ackedOf (trace st') ≡ₚ
    erase (ledger st) rPacketIt eraseEnd ++ ackedOf (trace st) /\
  erase (ledger st') rPacketIt' eraseEnd' `sublist_of` erase (ledger st) rPacketIt eraseEnd.
Proof.
  revert eraseEnd st.
  induction rPacketIt as [|next IH]; intros eraseEnd st Hb H; simpl in H.
  - injection H as <- <- <-. done.
  - destruct (ledger st !! next) as [p|] eqn:Ep; [|injection H as <- <- <-; done].
    case_bool_decide as Hspace.
    + case_bool_decide as Hmoved.
      * apply IH in H.
        -- rewrite erase_empty_range, ledger_erasePackets, trace_erasePackets in H. exact H.
        -- rewrite ledger_erasePackets, erase_length by done. lia.
      * assert (eraseEnd = S next) as -> by lia.
        apply IH in H; [|lia].
        rewrite !erase_empty_range in *. exact H.
    + destruct (_ <? _)%N; [injection H as <- <- <-; done|].
      destruct (ackOutstandingPacket frame ackVisitor art p st) as [st1|] eqn:E; [|done].
      pose proof (ack_ledger _ _ _ _ _ _ E) as Hl.
      apply IH in H; [|rewrite Hl; lia].
      destruct H as (Hb' & Hperm & Hsub).
      rewrite Hl, (ack_trace _ _ _ _ _ _ E), ackedOf_app, ackedOf_entry in *.
      assert (erase (ledger st) (S next) eraseEnd =
              take next (ledger st) ++ p :: drop eraseEnd (ledger st)) as HV.
      { unfold erase. rewrite (take_S_r _ _ _ Ep), <- app_assoc. done. }
      split; [done|]. split.
      * rewrite Hperm, HV. unfold erase.
        rewrite <- !app_assoc. apply Permutation_app_head.
        rewrite (Permutation_app_comm (ackedOf (trace st)) [p]). simpl.
        by rewrite Permutation_middle.
      * rewrite Hsub, HV. unfold erase.
        apply sublist_app; [done|]. by apply sublist_cons.
Qed.

Lemma matchAckBlocks_ledger blocks currentPacketIt st st' :
  (currentPacketIt <= length (ledger st))%nat ->
  matchAckBlocks pnSpace frame ackVisitor art blocks currentPacketIt st = Ok st' ->
  ledger st' ++ ackedOf (trace st') ≡ₚ ledger st ++ ackedOf (trace st) /\
  ledger st' `sublist_of` ledger st.
Proof.
  revert currentPacketIt st.
  induction blocks as [|blk rest IH]; intros currentPacketIt st Hb H; simpl in H.
  - by injection H as <-.
  - destruct (currentPacketIt =? 0)%nat; [by injection H as <-|].
    pose proof (lower_bound_le (ledger st) currentPacketIt (endPacket blk)) as Hlb.
    destruct (lower_bound (ledger st) currentPacketIt (endPacket blk) =? 0)%nat;
      [by injection H as <-|].
    destruct (walkAckBlock _ _ _ _ _ _ _ _) as [[[r e] st1]|] eqn:Ew; simpl in H; [|done].
    apply walkAckBlock_ledger in Ew; [|lia].
    destruct Ew as (Hb1 & Hperm & Hsub). rewrite erase_empty_range in Hperm, Hsub.
    apply IH in H.
    + destruct H as (Hperm' & Hsub'). case_bool_decide.
      * rewrite ledger_erasePackets, trace_erasePackets in *.
        split; [by rewrite Hperm'|by rewrite Hsub'].
      * assert (r = e) as -> by lia. rewrite erase_empty_range in *.
        split; [by rewrite Hperm'|by rewrite Hsub'].
    + case_bool_decide; [|lia]. rewrite ledger_erasePackets, erase_length by done. lia.
Qed.

End Ledger.


(** ** After the loop: the counters and the notifications *)

Lemma settleCounters_Ok st st1 :
  settleCounters st = Ok st1 ->
  checksPass st /\
  trace st1 = trace st /\ ack st1 = ack st /\
  packets (outstandings (conn st1)) = packets (outstandings (conn st)) /\
  packetEvents (outstandings (conn st1)) = packetEvents (outstandings (conn st)) /\
  initialPacketsCount (outstandings (conn st1)) =
    (initialPacketsCount (outstandings (conn st)) - initialPacketAcked st)%N /\
  handshakePacketsCount (outstandings (conn st1)) =
    (handshakePacketsCount (outstandings (conn st)) - handshakePacketAcked st)%N /\
  clonedPacketsCount (outstandings (conn st1)) =
    (clonedPacketsCount (outstandings (conn st)) - clonedPacketsAcked st)%N /\
  ackStates (conn st1) = ackStates (conn st) /\
  congestionController (conn st1) = congestionController (conn st) /\
  appState (conn st1) = appState (conn st).
Proof.
  unfold settleCounters, checksPass. intros H.
  repeat match type of H with
         | (if negb (?a <=? ?b)%N then _ else _) = _ =>
           destruct (N.leb_spec a b); simpl in H; [|discriminate H]
         end.
  injection H as <-. simpl. repeat split; try done; lia.
Qed.

Lemma settleCounters_Fatal st chk t :
  settleCounters st = Fatal chk t ->
  t = trace st /\ isCounterCheck chk = true /\ ~ checksPass st.
Proof.
  unfold settleCounters, checksPass. intros H.
  repeat match type of H with
         | (if negb (?a <=? ?b)%N then _ else _) = _ =>
           destruct (N.leb_spec a b); simpl in H;
           [|injection H as <- <-; repeat split; try done; lia]
         end.
  discriminate H.
Qed.

(** The second half of [processAckFrame], case by case. *)
Lemma notifyAckOrLoss_spec pnSpace lossVisitor st :
  let a := ack st in
  let t0 := trace st ++ [EvHandleAckForLoss (conn st) a pnSpace] in
  let c1 := fst (handleAckForLoss (conn st) lossVisitor a pnSpace) in
  let loss := snd (handleAckForLoss (conn st) lossVisitor a pnSpace) in
  notifyAckOrLoss pnSpace lossVisitor st =
  match congestionController c1 with
  | Some cc =>
    match loss with
    | Some le =>
      match largestLostSentTime le, smallestLostSentTime le with
      | Some largest, Some smallest =>
        let le1 := setPersistentCongestion (isPersistentCongestion c1 smallest largest) le in
        Ok (setCongestionController (onPacketAckOrLoss cc a (Some le1)) c1,
            t0 ++ [EvIsPersistentCongestion smallest largest] ++
                  [EvOnPacketAckOrLoss a (Some le1)])
      | _, _ => Fatal CheckLostSentTimes t0
      end
    | None =>
      if bool_decide (is_Some (largestAckedPacket a))
      then Ok (setCongestionController (onPacketAckOrLoss cc a None) c1,
               t0 ++ [EvOnPacketAckOrLoss a None])
      else Ok (c1, t0)
    end
  | None => Ok (c1, t0)
  end.
Proof.
  unfold notifyAckOrLoss. simpl.
  destruct (handleAckForLoss (conn st) lossVisitor (ack st) pnSpace) as [c1 loss]. simpl.
  destruct (congestionController c1) as [cc|]; [|reflexivity].
  destruct loss as [le|]; simpl.
  - rewrite orb_true_r.
    destruct (largestLostSentTime le), (smallestLostSentTime le); simpl;
      rewrite <- ?app_assoc; reflexivity.
  - rewrite orb_false_r. destruct (bool_decide _); reflexivity.
Qed.

Lemma loop_Fatal pnSpace frame ackVisitor art blocks cur st chk t :
  matchAckBlocks pnSpace frame ackVisitor art blocks cur st = Fatal chk t ->
  chk = CheckHandshakeSpace.
Proof.
  intros H.
  pose proof (matchAckBlocks_invariant pnSpace frame ackVisitor art
                (fun _ => True) (fun c _ => c = CheckHandshakeSpace)) as Hi.
  specialize (fun H1 H2 => Hi H1 H2 blocks cur st I). rewrite H in Hi. apply Hi.
  - done.
  - intros p s _ _. destruct (ackOutstandingPacket _ _ _ _ _) eqn:E; [done|].
    by apply ack_Fatal in E as [-> _].
Qed.

(** [processAckFrame] as its three stages. *)
Lemma processAckFrame_stages c pnSpace frame ackVisitor lossVisitor art :
  processAckFrame c pnSpace frame ackVisitor lossVisitor art =
  match mergeLoop c pnSpace frame ackVisitor art with
  | Ok st =>
    match settleCounters st with
    | Ok st1 => notifyAckOrLoss pnSpace lossVisitor st1
    | Fatal chk t => Fatal chk t
    end
  | Fatal chk t => Fatal chk t
  end.
Proof.
  unfold processAckFrame, reconcileAckFrame, mergeLoop, initialLoopState.
  destruct (matchAckBlocks _ _ _ _ _ _ _); reflexivity.
Qed.


(** What the notifications add to the trace: one hand-off to the loss
    detector, then only calls to the persistent-congestion predicate and
    the congestion controller. *)
Lemma notifyAckOrLoss_trace pnSpace lossVisitor st :
  exists tail,
    outcomeTrace (notifyAckOrLoss pnSpace lossVisitor st) =
      trace st ++ EvHandleAckForLoss (conn st) (ack st) pnSpace :: tail /\
    Forall (fun e => isNotification e = true) tail.
Proof.
  rewrite notifyAckOrLoss_spec.
  destruct (congestionController _) as [cc|]; [|by exists []].
  destruct (snd _) as [le|].
  - destruct (largestLostSentTime le), (smallestLostSentTime le); simpl;
      try (by exists []).
    eexists [_; _]. rewrite <- ?app_assoc. simpl. split; [reflexivity|].
    repeat constructor.
  - destruct (bool_decide _); simpl; [|by exists []].
    eexists [_]. rewrite <- ?app_assoc. simpl. split; [reflexivity|]. repeat constructor.
Qed.

Lemma notification_tail (tail : list Event) :
  Forall (fun e => isNotification e = true) tail ->
  ackedOf tail = [] /\ rttFeedsOf tail = [] /\ visitorCallsOf tail = [] /\
  lossHandoffsOf tail = [].
Proof.
  induction 1 as [|e tail He _ IH]; [done|].
  destruct e; try discriminate He; exact IH.
Qed.

(** How a call of [processAckFrame] unfolds. *)
Lemma processAckFrame_run c pnSpace frame ackVisitor lossVisitor art :
  match processAckFrame c pnSpace frame ackVisitor lossVisitor art with
  | Ok (c', t) =>
    exists st st1,
      mergeLoop c pnSpace frame ackVisitor art = Ok st /\
      settleCounters st = Ok st1 /\
      notifyAckOrLoss pnSpace lossVisitor st1 = Ok (c', t)
  | Fatal chk t =>
    (chk = CheckHandshakeSpace /\
     mergeLoop c pnSpace frame ackVisitor art = Fatal chk t) \/
    (isCounterCheck chk = true /\
     exists st, mergeLoop c pnSpace frame ackVisitor art = Ok st /\
                settleCounters st = Fatal chk t) \/
    (chk = CheckLostSentTimes /\
     exists st st1, mergeLoop c pnSpace frame ackVisitor art = Ok st /\
                    settleCounters st = Ok st1 /\
                    notifyAckOrLoss pnSpace lossVisitor st1 = Fatal chk t)
  end.
Proof.
  rewrite processAckFrame_stages.
  destruct (mergeLoop c pnSpace frame ackVisitor art) as [st|chk t] eqn:El.
  - destruct (settleCounters st) as [st1|chk t] eqn:Es.
    + destruct (notifyAckOrLoss pnSpace lossVisitor st1) as [[c' t]|chk t] eqn:En.
      * eauto.
      * right. right. split; [|eauto].
        rewrite notifyAckOrLoss_spec in En. clear -En.
        repeat case_match; simplify_eq; done.
    + right. left. split; [|eauto]. by apply settleCounters_Fatal in Es as (_ & ? & _).
  - left. split; [|done]. by apply loop_Fatal in El.
Qed.

(** The readings of the trace of a call that returned, in terms of the
    state the loop ended in. *)
Lemma processAckFrame_trace c pnSpace frame ackVisitor lossVisitor art st st1 c' t :
  mergeLoop c pnSpace frame ackVisitor art = Ok st ->
  settleCounters st = Ok st1 ->
  notifyAckOrLoss pnSpace lossVisitor st1 = Ok (c', t) ->
  ackedOf t = ackedOf (trace st) /\
  rttFeedsOf t = rttFeedsOf (trace st) /\
  visitorCallsOf t = visitorCallsOf (trace st) /\
  lossHandoffsOf t = [(conn st1, ack st, pnSpace)].
Proof.
  intros El Es En.
  destruct (notifyAckOrLoss_trace pnSpace lossVisitor st1) as (tail & Ht & Htail).
  rewrite En in Ht. simpl in Ht. subst t.
  apply notification_tail in Htail as (Ha & Hr & Hv & Hl).
  apply settleCounters_Ok in Es as (_ & -> & -> & _).
  pose proof (loop_quiet c pnSpace frame ackVisitor art (ackBlocks frame)
                (lastOutstandingPacket c pnSpace)) as Hq.
  fold (mergeLoop c pnSpace frame ackVisitor art) in Hq. rewrite El in Hq.
  destruct Hq as (Hq & _).
  change (?x :: tail) with ([x] ++ tail).
  rewrite !ackedOf_app, !rttFeedsOf_app, !visitorCallsOf_app, !lossHandoffsOf_app,
    Ha, Hr, Hv, Hl, Hq. simpl. by rewrite !app_nil_r.
Qed.


(** The notifications, read off the trace, when the loop's trace holds
    none. *)
Lemma notifyAckOrLoss_readings pnSpace lossVisitor st :
  quiet (trace st) ->
  let a := ack st in
  let c1 := fst (handleAckForLoss (conn st) lossVisitor a pnSpace) in
  let loss := snd (handleAckForLoss (conn st) lossVisitor a pnSpace) in
  match notifyAckOrLoss pnSpace lossVisitor st with
  | Ok (c', t) =>
    lossHandoffsOf t = [(conn st, a, pnSpace)] /\
    outstandings c' = outstandings c1 /\
    match congestionController c1, loss with
    | Some cc, Some le =>
      exists smallest largest,
        smallestLostSentTime le = Some smallest /\
        largestLostSentTime le = Some largest /\
        persistentCongestionCallsOf t = [(smallest, largest)] /\
        controllerCallsOf t =
          [(a, Some (setPersistentCongestion
                       (isPersistentCongestion c1 smallest largest) le))]
    | Some cc, None =>
      persistentCongestionCallsOf t = [] /\
      controllerCallsOf t =
        if bool_decide (is_Some (largestAckedPacket a)) then [(a, None)] else []
    | None, _ =>
      persistentCongestionCallsOf t = [] /\ controllerCallsOf t = []
    end
  | Fatal chk t =>
    chk = CheckLostSentTimes /\
    lossHandoffsOf t = [(conn st, a, pnSpace)] /\
    persistentCongestionCallsOf t = [] /\ controllerCallsOf t = [] /\
    exists cc le,
      congestionController c1 = Some cc /\ loss = Some le /\
      (smallestLostSentTime le = None \/ largestLostSentTime le = None)
  end.
Proof.
  intros (Hq1 & Hq2 & Hq3). simpl. rewrite notifyAckOrLoss_spec.
  destruct (congestionController _) as [cc|] eqn:Ecc.
  - destruct (snd _) as [le|] eqn:Eloss.
    + destruct (largestLostSentTime le) as [largest|] eqn:El,
        (smallestLostSentTime le) as [smallest|] eqn:Es; simpl;
        rewrite ?lossHandoffsOf_app, ?persistentCongestionCallsOf_app,
          ?controllerCallsOf_app, ?Hq1, ?Hq2, ?Hq3; simpl; eauto 12.
    + destruct (bool_decide _); simpl;
        rewrite ?lossHandoffsOf_app, ?persistentCongestionCallsOf_app,
          ?controllerCallsOf_app, ?Hq1, ?Hq2, ?Hq3; simpl; done.
  - simpl. rewrite ?lossHandoffsOf_app, ?persistentCongestionCallsOf_app,
      ?controllerCallsOf_app, ?Hq1, ?Hq2, ?Hq3; simpl. done.
Qed.

(** The state the loop ends in carries a trace without notifications. *)
Lemma mergeLoop_quiet c pnSpace frame ackVisitor art :
  match mergeLoop c pnSpace frame ackVisitor art with
  | Ok st => quiet (trace st)
  | Fatal _ t => quiet t
  end.
Proof. apply loop_quiet. Qed.

Lemma settled_quiet c pnSpace frame ackVisitor art st st1 :
  mergeLoop c pnSpace frame ackVisitor art = Ok st ->
  settleCounters st = Ok st1 ->
  quiet (trace st1).
Proof.
  intros El Es. apply settleCounters_Ok in Es as (_ & -> & _).
  pose proof (mergeLoop_quiet c pnSpace frame ackVisitor art) as Hq. by rewrite El in Hq.
Qed.

(** * The specification's claims *)

(** C9. The hand-off to the loss detector occurs exactly once in every
    call of [processAckFrame] that returns, whatever the ack blocks
    matched.  A call that a check aborts has made the hand-off once when
    the failed check is the one on the loss event's sent times, and not
    yet when it is an earlier check. *)
Theorem C9_loss_detector_once c pnSpace frame ackVisitor lossVisitor art :
  match processAckFrame c pnSpace frame ackVisitor lossVisitor art with
  | Ok (_, t) => exists c1 a, lossHandoffsOf t = [(c1, a, pnSpace)]
  | Fatal chk t =>
    length (lossHandoffsOf t) =
    match chk with CheckLostSentTimes => 1%nat | _ => 0%nat end
  end.
Proof.
  pose proof (processAckFrame_run c pnSpace frame ackVisitor lossVisitor art) as Hrun.
  destruct (processAckFrame c pnSpace frame ackVisitor lossVisitor art) as [[c' t]|chk t].
  - destruct Hrun as (st & st1 & El & Es & En).
    pose proof (notifyAckOrLoss_readings pnSpace lossVisitor st1
                  (settled_quiet _ _ _ _ _ _ _ El Es)) as Hn.
    rewrite En in Hn. destruct Hn as (Hh & _). eauto.
  - destruct Hrun as [(-> & El)|[(Hchk & st & El & Es)|(-> & st & st1 & El & Es & En)]].
    + pose proof (mergeLoop_quiet c pnSpace frame ackVisitor art) as Hq.
      rewrite El in Hq. destruct Hq as (-> & _). done.
    + pose proof (mergeLoop_quiet c pnSpace frame ackVisitor art) as Hq.
      rewrite El in Hq. destruct Hq as (Hq & _).
      apply settleCounters_Fatal in Es as (-> & _ & _). rewrite Hq.
      destruct chk; done.
    + pose proof (notifyAckOrLoss_readings pnSpace lossVisitor st1
                    (settled_quiet _ _ _ _ _ _ _ El Es)) as Hn.
      rewrite En in Hn. destruct Hn as (_ & -> & _). done.
Qed.

(** C4. The congestion controller's [onPacketAckOrLoss] is called at most
    once in a call of [processAckFrame], however many ack blocks matched;
    in a call that returns it is called exactly once precisely when a
    congestion controller is attached and a packet was acknowledged or
    the loss detector produced a loss event; a call that a check aborts
    has not called it. *)
Theorem C4_single_notification c pnSpace frame ackVisitor lossVisitor art :
  (length (controllerCallsOf
             (outcomeTrace (processAckFrame c pnSpace frame ackVisitor lossVisitor art)))
   <= 1)%nat /\
  match processAckFrame c pnSpace frame ackVisitor lossVisitor art with
  | Ok (_, t) =>
    exists c1 a,
      lossHandoffsOf t = [(c1, a, pnSpace)] /\
      (length (controllerCallsOf t) = 1%nat <->
       is_Some (congestionController (fst (handleAckForLoss c1 lossVisitor a pnSpace))) /\
       (ackedOf t <> [] \/ is_Some (snd (handleAckForLoss c1 lossVisitor a pnSpace))))
  | Fatal _ t => controllerCallsOf t = []
  end.
Proof.
  pose proof (processAckFrame_run c pnSpace frame ackVisitor lossVisitor art) as Hrun.
  destruct (processAckFrame c pnSpace frame ackVisitor lossVisitor art) as [[c' t]|chk t];
    simpl.
  - destruct Hrun as (st & st1 & El & Es & En).
    pose proof (notifyAckOrLoss_readings pnSpace lossVisitor st1
                  (settled_quiet _ _ _ _ _ _ _ El Es)) as Hn.
    destruct (processAckFrame_trace _ _ _ _ _ _ _ _ _ _ El Es En) as (Ha & _).
    pose proof (loop_largestAckedPacket c pnSpace frame ackVisitor art _ _ st El) as Hl.
    rewrite En in Hn. simpl in Hn. destruct Hn as (Hh & _ & Hn).
    pose proof (settleCounters_Ok _ _ Es) as (_ & _ & Hack & _). rewrite Hack in *.
    rewrite <- Ha in Hl.
    destruct (congestionController _) as [cc|] eqn:Ecc.
    + destruct (snd _) as [le|] eqn:Eloss.
      * destruct Hn as (s & l & _ & _ & _ & Hc). rewrite Hc. split; [simpl; lia|].
        exists (conn st1), (ack st). split; [done|]. rewrite Ecc, Eloss. simpl.
        split; [eauto|done].
      * destruct Hn as (_ & Hc). rewrite Hc.
        case_bool_decide as Hlargest; simpl; (split; [lia|]);
          exists (conn st1), (ack st); (split; [done|]); rewrite Ecc, Eloss.
        -- split; [|done]. intros _. split; [eauto|]. left. by apply Hl.
        -- split; [done|]. intros [_ [Hne|[? [=]]]]. exfalso. by apply Hlargest, Hl.
    + destruct Hn as (_ & Hc). rewrite Hc. split; [simpl; lia|].
      exists (conn st1), (ack st). split; [done|]. rewrite Ecc.
      split; [done|]. intros [[? [=]] _].
  - assert (controllerCallsOf t = []) as Hnone; [|rewrite Hnone; split; [simpl; lia|done]].
    destruct Hrun as [(-> & El)|[(Hchk & st & El & Es)|(-> & st & st1 & El & Es & En)]].
    + pose proof (mergeLoop_quiet c pnSpace frame ackVisitor art) as Hq.
      rewrite El in Hq. by destruct Hq as (_ & _ & ->).
    + pose proof (mergeLoop_quiet c pnSpace frame ackVisitor art) as Hq.
      rewrite El in Hq. destruct Hq as (_ & _ & Hq).
      by apply settleCounters_Fatal in Es as (-> & _ & _).
    + pose proof (notifyAckOrLoss_readings pnSpace lossVisitor st1
                    (settled_quiet _ _ _ _ _ _ _ El Es)) as Hn.
      rewrite En in Hn. by destruct Hn as (_ & _ & _ & -> & _).
Qed.


(** C5 (amended). When the loss detector produces a loss event and a
    congestion controller is attached, the persistent-congestion predicate
    is evaluated once, on the smallest and the largest lost sent times of
    that event, and its result is stored on the loss event handed to the
    congestion controller.  When no congestion controller is attached the
    predicate is not evaluated and the loss event goes nowhere.  A call
    that a check aborts has not evaluated the predicate. *)
Theorem C5_persistent_congestion_when_attached
    c pnSpace frame ackVisitor lossVisitor art :
  match processAckFrame c pnSpace frame ackVisitor lossVisitor art with
  | Ok (_, t) =>
    exists c1 a,
      lossHandoffsOf t = [(c1, a, pnSpace)] /\
      let c2 := fst (handleAckForLoss c1 lossVisitor a pnSpace) in
      match snd (handleAckForLoss c1 lossVisitor a pnSpace) with
      | Some le =>
        match congestionController c2 with
        | Some _ =>
          exists smallest largest,
            smallestLostSentTime le = Some smallest /\
            largestLostSentTime le = Some largest /\
            persistentCongestionCallsOf t = [(smallest, largest)] /\
            controllerCallsOf t =
              [(a, Some (setPersistentCongestion
                           (isPersistentCongestion c2 smallest largest) le))]
        | None => persistentCongestionCallsOf t = [] /\ controllerCallsOf t = []
        end
      | None => persistentCongestionCallsOf t = []
      end
  | Fatal _ t => persistentCongestionCallsOf t = []
  end.
Proof.
  pose proof (processAckFrame_run c pnSpace frame ackVisitor lossVisitor art) as Hrun.
  destruct (processAckFrame c pnSpace frame ackVisitor lossVisitor art) as [[c' t]|chk t].
  - destruct Hrun as (st & st1 & El & Es & En).
    pose proof (notifyAckOrLoss_readings pnSpace lossVisitor st1
                  (settled_quiet _ _ _ _ _ _ _ El Es)) as Hn.
    rewrite En in Hn. simpl in Hn. destruct Hn as (Hh & _ & Hn).
    exists (conn st1), (ack st1). split; [done|]. simpl.
    destruct (congestionController _) as [cc|]; [destruct (snd _) as [le|]|].
    + done.
    + by destruct Hn.
    + destruct (snd _); by destruct Hn.
  - destruct Hrun as [(-> & El)|[(Hchk & st & El & Es)|(-> & st & st1 & El & Es & En)]].
    + pose proof (mergeLoop_quiet c pnSpace frame ackVisitor art) as Hq.
      rewrite El in Hq. by destruct Hq as (_ & -> & _).
    + pose proof (mergeLoop_quiet c pnSpace frame ackVisitor art) as Hq.
      rewrite El in Hq. destruct Hq as (_ & Hq & _).
      by apply settleCounters_Fatal in Es as (-> & _ & _).
    + pose proof (notifyAckOrLoss_readings pnSpace lossVisitor st1
                    (settled_quiet _ _ _ _ _ _ _ El Es)) as Hn.
      rewrite En in Hn. by destruct Hn as (_ & _ & -> & _).
Qed.

(** The notifications leave the readings of the loop's trace as they
    are, also when the check on the loss event aborts the call. *)
Lemma notifyAckOrLoss_keeps pnSpace lossVisitor st :
  ackedOf (outcomeTrace (notifyAckOrLoss pnSpace lossVisitor st)) = ackedOf (trace st) /\
  rttFeedsOf (outcomeTrace (notifyAckOrLoss pnSpace lossVisitor st)) = rttFeedsOf (trace st) /\
  visitorCallsOf (outcomeTrace (notifyAckOrLoss pnSpace lossVisitor st)) =
    visitorCallsOf (trace st).
Proof.
  destruct (notifyAckOrLoss_trace pnSpace lossVisitor st) as (tail & -> & Htail).
  apply notification_tail in Htail as (Ha & Hr & Hv & _).
  change (?x :: tail) with ([x] ++ tail).
  rewrite !ackedOf_app, !rttFeedsOf_app, !visitorCallsOf_app, Ha, Hr, Hv. simpl.
  by rewrite !app_nil_r.
Qed.

(** C3 (amended). The RTT sample of a matched packet is the difference,
    in microseconds, between the ack's receive time and the packet's send
    time when the former is later, and between a fresh reading of the
    clock and the send time otherwise; the RTT estimator is fed, with the
    frame's ack delay, the samples of exactly the matched packets whose
    number is the frame's [largestAcked], in the order they are matched.
    This holds of every call that does not abort on a handshake packet in
    the AppData space. *)
Theorem C3_rtt_fed_for_largest_acked c pnSpace frame ackVisitor lossVisitor art :
  match processAckFrame c pnSpace frame ackVisitor lossVisitor art with
  | Ok (_, t) => rttFeedsOf t = rttFeedsFor frame (rttSamples art 0 (ackedOf t))
  | Fatal chk t =>
    match chk with
    | CheckHandshakeSpace => True
    | _ => rttFeedsOf t = rttFeedsFor frame (rttSamples art 0 (ackedOf t))
    end
  end.
Proof.
  pose proof (processAckFrame_run c pnSpace frame ackVisitor lossVisitor art) as Hrun.
  destruct (processAckFrame c pnSpace frame ackVisitor lossVisitor art) as [[c' t]|chk t].
  - destruct Hrun as (st & st1 & El & Es & En).
    destruct (notifyAckOrLoss_keeps pnSpace lossVisitor st1) as (Ha & Hr & _).
    rewrite En in Ha, Hr. simpl in Ha, Hr. rewrite Ha, Hr.
    apply settleCounters_Ok in Es as (_ & -> & _).
    by apply (loop_samples c pnSpace frame ackVisitor art _ _ st El).
  - destruct Hrun as [(-> & El)|[(Hchk & st & El & Es)|(-> & st & st1 & El & Es & En)]].
    + done.
    + apply settleCounters_Fatal in Es as (-> & _ & _).
      pose proof (loop_samples c pnSpace frame ackVisitor art _ _ st El) as (Hs & _).
      destruct chk; done.
    + destruct (notifyAckOrLoss_keeps pnSpace lossVisitor st1) as (Ha & Hr & _).
      rewrite En in Ha, Hr. simpl in Ha, Hr. rewrite Ha, Hr.
      apply settleCounters_Ok in Es as (_ & -> & _).
      by apply (loop_samples c pnSpace frame ackVisitor art _ _ st El).
Qed.

Lemma mrttSamplesOf_explicit art k (l : list OutstandingPacket) :
  mrttSamplesOf art (rttSamples art k l) =
  map (fun p => duration_cast_microseconds (art - time p))
    (filter (fun p => (time p < art)%Z) l).
Proof.
  revert k. induction l as [|p l IH]; intros k; [done|].
  unfold mrttSamplesOf in *. simpl.
  destruct (Z.ltb_spec (time p) art) as [Hlt|Hge].
  - rewrite filter_cons_True by (unfold sentBefore; simpl; by apply Z.ltb_lt).
    rewrite (filter_cons_True (fun p => (time p < art)%Z)) by done.
    simpl. rewrite IH. unfold rttSampleOf.
    by rewrite (proj2 (Z.ltb_lt _ _) Hlt).
  - rewrite filter_cons_False.
    2:{ unfold sentBefore. simpl. rewrite (proj2 (Z.ltb_ge _ _) Hge). done. }
    rewrite (filter_cons_False (fun p => (time p < art)%Z)) by lia.
    apply IH.
Qed.

(** C6 (amended). The packets a returning call matches are the packets
    it removes from the ledger, and the minimum-RTT sample of the ack
    event handed to the loss detector, and to the congestion controller,
    is the least of the ack's receive time less the send time, in
    microseconds, over exactly the matched packets sent before the ack
    was received; the clock does not enter it.  It is absent when no
    matched packet was sent before the ack was received. *)
Theorem C6_min_rtt_sample c pnSpace frame ackVisitor lossVisitor art :
  match processAckFrame c pnSpace frame ackVisitor lossVisitor art with
  | Ok (_, t) =>
    exists c1 a,
      lossHandoffsOf t = [(c1, a, pnSpace)] /\
      Forall (fun call => fst call = a) (controllerCallsOf t) /\
      packets (outstandings c) ≡ₚ packets (outstandings c1) ++ ackedOf t /\
      packets (outstandings c1) `sublist_of` packets (outstandings c) /\
      let samples := mrttSamplesOf art (rttSamples art 0 (ackedOf t)) in
      samples =
        map (fun p => duration_cast_microseconds (art - time p))
          (filter (fun p => (time p < art)%Z) (ackedOf t)) /\
      mrttSample a = minimumOf samples /\
      (forall m, mrttSample a = Some m <->
                 m ∈ samples /\ Forall (fun x => (m <= x)%Z) samples) /\
      (mrttSample a = None <-> samples = [])
  | Fatal _ _ => True
  end.
Proof.
  pose proof (processAckFrame_run c pnSpace frame ackVisitor lossVisitor art) as Hrun.
  destruct (processAckFrame c pnSpace frame ackVisitor lossVisitor art) as [[c' t]|chk t];
    [|done].
  destruct Hrun as (st & st1 & El & Es & En).
  destruct (processAckFrame_trace _ _ _ _ _ _ _ _ _ _ El Es En) as (Ha & _ & _ & Hh).
  pose proof (loop_samples c pnSpace frame ackVisitor art _ _ st El) as (_ & _ & Hm).
  pose proof (notifyAckOrLoss_readings pnSpace lossVisitor st1
                (settled_quiet _ _ _ _ _ _ _ El Es)) as Hn.
  rewrite En in Hn. simpl in Hn. destruct Hn as (_ & _ & Hn).
  pose proof (settleCounters_Ok _ _ Es) as (_ & _ & Hack & Hpk & _). rewrite Hack in Hn.
  pose proof (matchAckBlocks_ledger pnSpace frame ackVisitor art (ackBlocks frame)
                (lastOutstandingPacket c pnSpace) (initialLoopState c art) st) as Hled.
  destruct Hled as (Hperm & Hsub); [unfold lastOutstandingPacket, ledger; simpl; lia|exact El|].
  unfold ledger in Hperm, Hsub. simpl in Hperm, Hsub. rewrite app_nil_r in Hperm.
  exists (conn st1), (ack st). split; [done|]. split; [|split; [|split]].
  - destruct (congestionController _) as [cc|]; [destruct (snd _) as [le|]|].
    + destruct Hn as (s & lg & _ & _ & _ & ->). by repeat constructor.
    + destruct Hn as (_ & ->). destruct (bool_decide _); by repeat constructor.
    + destruct Hn as (_ & ->). constructor.
  - by rewrite Ha, Hpk.
  - by rewrite Hpk.
  - simpl. rewrite Ha, Hm. split; [apply mrttSamplesOf_explicit|]. split; [done|]. split.
    + intros m. apply minimumOf_least.
    + apply minimumOf_None.
Qed.


(** C2 (amended). Of the packets an ack frame matches, all of them in
    the space acknowledged, every one is
    removed from the ledger, adds its encoded size to [ackedBytes] and,
    if it carries an associated event, one to the cloned-packets-acked
    count, processed or not.  Among the matched packets that share an
    associated event the ack visitor is called only for the one matched
    first, once per frame it carries, and only if the event is pending
    when the call starts; it is never called for a later one.  Packets
    the frame does not match stay in the ledger, in their order. *)
Theorem C2_clones_visited_once c pnSpace frame ackVisitor lossVisitor art :
  match processAckFrame c pnSpace frame ackVisitor lossVisitor art with
  | Ok (_, t) =>
    exists c1 a,
      lossHandoffsOf t = [(c1, a, pnSpace)] /\
      Forall (fun p => spaceOf p = pnSpace) (ackedOf t) /\
      packets (outstandings c) ≡ₚ packets (outstandings c1) ++ ackedOf t /\
      packets (outstandings c1) `sublist_of` packets (outstandings c) /\
      (forall e,
         visitsOf e (visitorCallsOf t) =
         match entriesOf e (ackedOf t) with
         | [] => []
         | p :: _ =>
           if bool_decide (e ∈ packetEvents (outstandings c)) then callsFor p else []
         end) /\
      ackedBytes a = wrap64 (sumEncodedSize (ackedOf t)) /\
      clonedPacketsCount (outstandings c) =
        (clonedPacketsCount (outstandings c1) +
         wrap64 (N.of_nat (length (clonesOf (ackedOf t)))))%N
  | Fatal _ _ => True
  end.
Proof.
  pose proof (processAckFrame_run c pnSpace frame ackVisitor lossVisitor art) as Hrun.
  destruct (processAckFrame c pnSpace frame ackVisitor lossVisitor art) as [[c' t]|chk t];
    [|done].
  destruct Hrun as (st & st1 & El & Es & En).
  destruct (processAckFrame_trace _ _ _ _ _ _ _ _ _ _ El Es En) as (Ha & _ & Hv & Hh).
  pose proof (settleCounters_Ok _ _ Es)
    as (Hpass & _ & _ & Hpk & _ & _ & _ & Hcl & _).
  destruct Hpass as (_ & _ & Hle & _).
  pose proof (loop_clones c pnSpace frame ackVisitor art _ _ st El) as (_ & Hvis & _).
  pose proof (loop_ackedBytes c pnSpace frame ackVisitor art _ _ st El) as (Hb & _).
  pose proof (loop_clonedPacketsAcked c pnSpace frame ackVisitor art _ _ st El) as Hca.
  pose proof (loop_counts c pnSpace frame ackVisitor art _ _ st El) as (_ & _ & Hc0 & _).
  pose proof (matchAckBlocks_ledger pnSpace frame ackVisitor art (ackBlocks frame)
                (lastOutstandingPacket c pnSpace) (initialLoopState c art) st) as Hled.
  destruct Hled as (Hperm & Hsub); [unfold lastOutstandingPacket, ledger; simpl; lia|exact El|].
  unfold ledger in Hperm, Hsub. simpl in Hperm, Hsub. rewrite app_nil_r in Hperm.
  pose proof (loop_spaces c pnSpace frame ackVisitor art _ _ st El) as Hsp.
  exists (conn st1), (ack st). rewrite Ha, Hv, Hpk.
  repeat split; try done.
  rewrite Hcl, <- Hca, <- Hc0. lia.
Qed.



(** * Received-packet intervals *)

Lemma tracked_app (s1 s2 : IntervalSet) n : tracked (s1 ++ s2) n = tracked s1 n || tracked s2 n.
Proof. apply existsb_app. Qed.

Lemma tracked_withdrawFrom w i n :
  tracked (withdrawFrom w i) n = inInterval n i && negb (inInterval n w).
Proof.
  unfold withdrawFrom, tracked, inInterval.
  destruct (N.ltb_spec (start i) (start w)), (N.ltb_spec (end_ w) (end_ i)); simpl;
    repeat match goal with
           | |- context [(?a <=? ?b)%N] => destruct (N.leb_spec a b); simpl
           end; try reflexivity; lia.
Qed.

Lemma tracked_withdraw (s : IntervalSet) w n :
  tracked (withdraw s w) n = tracked s n && negb (inInterval n w).
Proof.
  unfold withdraw. induction s as [|i s IH]; simpl; [done|].
  change (existsb (inInterval n) ?l) with (tracked l n).
  rewrite tracked_app, tracked_withdrawFrom, IH.
  change (existsb (inInterval n) s) with (tracked s n).
  destruct (inInterval n i), (tracked s n), (inInterval n w); reflexivity.
Qed.

Lemma tracked_withdraw_all (ws : list Interval) (s : IntervalSet) n :
  tracked (fold_left withdraw ws s) n =
  tracked s n && forallb (fun w => negb (inInterval n w)) ws.
Proof.
  revert s. induction ws as [|w ws IH]; intros s; simpl.
  - by rewrite andb_true_r.
  - rewrite IH, tracked_withdraw. by rewrite andb_assoc.
Qed.

Lemma commonAckVisitorForAckFrame_acks ackState (frame : WriteAckFrame) :
  acks (commonAckVisitorForAckFrame ackState frame) =
  fold_left withdraw (rev (wa_ackBlocks frame) ++ purgedRange (wa_ackBlocks frame))
    (acks ackState).
Proof.
  unfold commonAckVisitorForAckFrame, purgedRange. rewrite fold_left_app.
  destruct (frontEnd (wa_ackBlocks frame)) as [largest|]; [|reflexivity].
  destruct (kAckPurgingThresh <? largest)%N; reflexivity.
Qed.

(** C7. [commonAckVisitorForAckFrame] withdraws from the ack state the
    intervals of the confirmed frame's ack blocks, last block first, and
    then, when the largest acknowledged packet number (the end of the
    first block) exceeds the purging threshold, the range from 0 to that
    number minus the threshold.  A packet number stays tracked exactly
    when it was tracked and lies in none of the withdrawn ranges.
    Afterwards no packet number below the largest acknowledged minus the
    threshold is tracked, and no well-formed interval of the ack state
    ends below it. *)
Theorem C7_withdraw_and_purge ackState (frame : WriteAckFrame) :
  let blocks := wa_ackBlocks frame in
  let after := acks (commonAckVisitorForAckFrame ackState frame) in
  after = fold_left withdraw (rev blocks ++ purgedRange blocks) (acks ackState) /\
  (forall largestAcked,
     frontEnd blocks = Some largestAcked ->
     purgedRange blocks =
       if (kAckPurgingThresh <? largestAcked)%N
       then [mkInterval 0%N (largestAcked - kAckPurgingThresh)%N] else []) /\
  (forall n,
     tracked after n =
     tracked (acks ackState) n &&
     forallb (fun b => negb (inInterval n b)) blocks &&
     forallb (fun b => negb (inInterval n b)) (purgedRange blocks)) /\
  (forall largestAcked n,
     frontEnd blocks = Some largestAcked ->
     (Z.of_N n < Z.of_N largestAcked - Z.of_N kAckPurgingThresh)%Z ->
     tracked after n = false) /\
  (forall largestAcked i,
     frontEnd blocks = Some largestAcked ->
     i ∈ after -> (start i <= end_ i)%N ->
     (Z.of_N largestAcked - Z.of_N kAckPurgingThresh <= Z.of_N (end_ i))%Z).
Proof.
  simpl.
  assert (forall n,
            tracked (acks (commonAckVisitorForAckFrame ackState frame)) n =
            tracked (acks ackState) n &&
            forallb (fun b => negb (inInterval n b)) (wa_ackBlocks frame) &&
            forallb (fun b => negb (inInterval n b)) (purgedRange (wa_ackBlocks frame)))
    as Htracked.
  { intros n.
    rewrite commonAckVisitorForAckFrame_acks, tracked_withdraw_all, forallb_app.
    rewrite andb_assoc. do 2 f_equal.
    rewrite <- (rev_involutive (wa_ackBlocks frame)) at 2.
    generalize (rev (wa_ackBlocks frame)). intros l.
    induction l as [|b l IH]; simpl; [done|].
    rewrite forallb_app, <- IH. simpl. rewrite andb_true_r. apply andb_comm. }
  assert (forall largestAcked n,
            frontEnd (wa_ackBlocks frame) = Some largestAcked ->
            (Z.of_N n < Z.of_N largestAcked - Z.of_N kAckPurgingThresh)%Z ->
            tracked (acks (commonAckVisitorForAckFrame ackState frame)) n = false)
    as Hpurged.
  { intros largest n Hfront Hlt. rewrite Htracked. unfold purgedRange. rewrite Hfront.
    destruct (N.ltb_spec kAckPurgingThresh largest); [|lia].
    simpl. unfold inInterval. simpl.
    destruct (N.leb_spec n (largest - kAckPurgingThresh)); [|lia].
    simpl. replace (0 <=? n)%N with true by (symmetry; apply N.leb_le; lia).
    simpl. by rewrite andb_false_r. }
  split; [apply commonAckVisitorForAckFrame_acks|].
  split; [intros largest Hfront; unfold purgedRange; by rewrite Hfront|].
  split; [exact Htracked|]. split; [exact Hpurged|].
  intros largest i Hfront Hin Hvalid.
  destruct (Z.le_gt_cases (Z.of_N largest - Z.of_N kAckPurgingThresh) (Z.of_N (end_ i)))
    as [?|Hlt]; [done|].
  exfalso.
  assert (tracked (acks (commonAckVisitorForAckFrame ackState frame)) (end_ i) = true)
    as Ht.
  { unfold tracked. apply existsb_exists. exists i. split; [by apply list_elem_of_In|].
    unfold inInterval. apply andb_true_intro.
    split; apply N.leb_le; [done|lia]. }
  rewrite (Hpurged largest (end_ i) Hfront) in Ht; [done|lia].
Qed.

(** C10. When the confirmed frame has no ack block,
    [commonAckVisitorForAckFrame] leaves the ack state as it is: nothing
    is withdrawn and nothing is purged. *)
Theorem C10_no_blocks_no_change ackState (frame : WriteAckFrame) :
  wa_ackBlocks frame = [] ->
  commonAckVisitorForAckFrame ackState frame = ackState /\
  purgedRange (wa_ackBlocks frame) = [].
Proof.
  intros Hempty. unfold commonAckVisitorForAckFrame, purgedRange. rewrite Hempty. simpl.
  by destruct ackState.
Qed.


(** * A ledger of one packet-number space

    When the ledger holds packets of the acknowledged space only, in
    ascending order, the bisection finds the first packet, from the
    cursor towards the front, whose number does not exceed the block's
    end; a frame whose blocks cover no outstanding packet number then
    changes nothing. *)

Lemma ascending_take (l : list OutstandingPacket) n : ascending l -> ascending (take n l).
Proof.
  intros Hasc i j p q Hij Hp Hq.
  apply lookup_take_Some in Hp as [Hp _]. apply lookup_take_Some in Hq as [Hq _].
  by apply (Hasc i j).
Qed.

Lemma lower_bound_loop_sorted (l : list OutstandingPacket) val cur turns first len :
  ascending (take cur l) ->
  (len <= turns)%nat -> (len <= first)%nat -> (first <= cur)%nat ->
  (cur <= length l)%nat ->
  (forall i p, (first <= i < cur)%nat -> l !! i = Some p -> (val < pn p)%N) ->
  (forall i p, (i < first - len)%nat -> l !! i = Some p -> (pn p <= val)%N) ->
  let r := lower_bound_loop turns l val first len in
  (r <= cur)%nat /\
  (forall i p, (r <= i < cur)%nat -> l !! i = Some p -> (val < pn p)%N) /\
  (forall i p, (i < r)%nat -> l !! i = Some p -> (pn p <= val)%N).
Proof.
  intros Hasc. revert first len.
  induction turns as [|turns IH]; intros first len Hturns Hlen Hfirst Hcur Hhi Hlo; simpl.
  - assert (len = 0%nat) as -> by lia. rewrite Nat.sub_0_r in Hlo. done.
  - destruct (Nat.eqb_spec len 0) as [->|Hpos].
    { rewrite Nat.sub_0_r in Hlo. done. }
    assert (Nat.div2 len < len)%nat as Hhalf by (apply Nat.lt_div2; lia).
    revert Hhalf. generalize (Nat.div2 len). intros half Hhalf.
    destruct (first - half)%nat as [|m] eqn:Em; [lia|]. simpl.
    destruct (l !! m) as [p|] eqn:Ep.
    2:{ apply lookup_ge_None in Ep. lia. }
    fold (pn p). destruct (N.ltb_spec val (pn p)) as [Hgt|Hle].
    + replace (S m - 1)%nat with m by lia. apply IH; try lia.
      * intros i q Hi Hq.
        destruct (decide (first <= i)%nat); [apply (Hhi i q); [lia|done]|].
        assert (pn p <= pn q)%N; [|lia].
        apply (Hasc m i); [lia|by rewrite lookup_take_lt by lia..].
      * intros i q Hi Hq. apply (Hlo i q); [lia|done].
    + apply IH; try lia; [done|].
      intros i q Hi Hq.
      assert (pn q <= pn p)%N; [|lia].
      apply (Hasc i m); [lia|by rewrite lookup_take_lt by lia..].
Qed.

Lemma lower_bound_sorted (l : list OutstandingPacket) cur val :
  ascending (take cur l) -> (cur <= length l)%nat ->
  let r := lower_bound l cur val in
  (r <= cur)%nat /\
  (forall i p, (r <= i < cur)%nat -> l !! i = Some p -> (val < pn p)%N) /\
  (forall i p, (i < r)%nat -> l !! i = Some p -> (pn p <= val)%N).
Proof.
  intros Hasc Hcur. unfold lower_bound.
  apply lower_bound_loop_sorted; try done; intros i p Hi; lia.
Qed.

Lemma matchAckBlocks_covers_none pnSpace frame ackVisitor art blocks cur st :
  Forall (fun p => spaceOf p = pnSpace) (ledger st) ->
  ascending (ledger st) ->
  (forall p blk, p ∈ ledger st -> blk ∈ blocks ->
                 ~ (startPacket blk <= pn p <= endPacket blk)%N) ->
  (cur <= length (ledger st))%nat ->
  matchAckBlocks pnSpace frame ackVisitor art blocks cur st = Ok st.
Proof.
  intros Hspace Hasc. revert cur.
  induction blocks as [|blk rest IH]; intros cur Hnone Hcur; simpl; [done|].
  destruct (cur =? 0)%nat; [done|].
  destruct (lower_bound_sorted (ledger st) cur (endPacket blk)
              (ascending_take _ _ Hasc) Hcur) as (Hr & _ & Hlo).
  destruct (lower_bound (ledger st) cur (endPacket blk)) as [|next] eqn:Er; [done|].
  simpl.
  destruct (ledger st !! next) as [p|] eqn:Ep.
  2:{ apply lookup_ge_None in Ep. lia. }
  assert (p ∈ ledger st) as Hin by (by eapply list_elem_of_lookup_2).
  rewrite Forall_forall in Hspace. specialize (Hspace p Hin). unfold spaceOf in Hspace.
  rewrite bool_decide_eq_false_2 by (intros Hne; by apply Hne).
  specialize (Hlo next p ltac:(lia) Ep).
  fold (pn p).
  destruct (N.ltb_spec (pn p) (startPacket blk)) as [Hlt|Hge].
  - simpl. rewrite bool_decide_eq_false_2 by (intros Hne; by apply Hne).
    apply IH; [|lia]. intros q b Hq Hb. apply Hnone; [done|by right].
  - exfalso. apply (Hnone p blk Hin); [by left|lia].
Qed.

(** A frame whose blocks cover no outstanding packet number, over a
    ledger of the acknowledged space in ascending order, with counters
    that fit the ledger: the loop matches nothing, and the loss detector
    receives the connection as it was on entry, with an empty ack event. *)
Lemma covers_none_single_space c pnSpace frame ackVisitor lossVisitor art :
  Forall (fun p => spaceOf p = pnSpace) (packets (outstandings c)) ->
  ascending (packets (outstandings c)) ->
  coversNone frame (packets (outstandings c)) ->
  ledgerInvariant (outstandings c) ->
  (N.of_nat (length (packets (outstandings c))) < 2 ^ 64)%N ->
  reconcileAckFrame c pnSpace frame ackVisitor art = Ok (initialLoopState c art) /\
  exists tail,
    outcomeTrace (processAckFrame c pnSpace frame ackVisitor lossVisitor art) =
      EvHandleAckForLoss c (newAckEvent art) pnSpace :: tail /\
    Forall (fun e => isNotification e = true) tail.
Proof.
  intros Hspace Hasc Hnone (Hinv1 & Hinv2) Hlen.
  assert (reconcileAckFrame c pnSpace frame ackVisitor art = Ok (initialLoopState c art))
    as Hrec.
  { unfold reconcileAckFrame. fold (initialLoopState c art).
    rewrite (matchAckBlocks_covers_none pnSpace frame ackVisitor art (ackBlocks frame)
               (lastOutstandingPacket c pnSpace) (initialLoopState c art));
      [|done|done|exact Hnone|unfold lastOutstandingPacket, ledger; simpl; lia].
    simpl. unfold settleCounters. simpl.
    rewrite !N.sub_0_r, wrap64_small by lia.
    repeat match goal with
           | |- context [(?a <=? ?b)%N] =>
             replace (a <=? b)%N with true by (symmetry; apply N.leb_le; lia)
           end.
    simpl. unfold initialLoopState. destruct c as [[] ? ? ? ?]. reflexivity. }
  split; [exact Hrec|].
  unfold processAckFrame. rewrite Hrec. simpl.
  destruct (notifyAckOrLoss_trace pnSpace lossVisitor (initialLoopState c art))
    as (tail & Ht & Htail).
  exists tail. split; [exact Ht|exact Htail].
Qed.


(** ** What the walk matches in a ledger of one space

    When the packets ahead of the cursor belong to the acknowledged space
    and are in ascending order, and the ack blocks are in descending
    order, the packets matched are those the blocks cover, from the
    highest packet number down. *)

Lemma filter_true_none (f : OutstandingPacket -> bool) (l : list OutstandingPacket) :
  Forall (fun p => f p = false) l -> filter (fun p => f p = true) l = [].
Proof.
  induction 1 as [|p l Hp _ IH]; [done|].
  rewrite filter_cons_False by (rewrite Hp; done). exact IH.
Qed.

Lemma filter_true_all (f : OutstandingPacket -> bool) (l : list OutstandingPacket) :
  Forall (fun p => f p = true) l -> filter (fun p => f p = true) l = l.
Proof.
  induction 1 as [|p l Hp _ IH]; [done|].
  rewrite filter_cons_True by done. by rewrite IH.
Qed.

Lemma filter_true_ext (f g : OutstandingPacket -> bool) (l : list OutstandingPacket) :
  Forall (fun p => f p = g p) l ->
  filter (fun p => f p = true) l = filter (fun p => g p = true) l.
Proof.
  induction 1 as [|p l Hp _ IH]; [done|].
  destruct (f p) eqn:Ef.
  - rewrite !filter_cons_True by congruence. by rewrite IH.
  - rewrite !filter_cons_False by congruence. exact IH.
Qed.

Lemma coveredBy_later blk rest p :
  (startPacket blk <= endPacket blk)%N ->
  Forall (fun later => (endPacket later < startPacket blk)%N) rest ->
  (endPacket blk < pn p)%N ->
  coveredBy (blk :: rest) p = false.
Proof.
  intros Hvalid Hlater Hp. unfold coveredBy. simpl.
  apply orb_false_intro.
  - unfold covers. apply andb_false_intro2. apply N.leb_gt. done.
  - apply not_true_is_false. intros Hex. apply existsb_exists in Hex as (b & Hb & Hc).
    rewrite Forall_forall in Hlater. apply list_elem_of_In in Hb.
    specialize (Hlater b Hb). unfold covers in Hc.
    apply andb_prop in Hc as [_ Hc]. apply N.leb_le in Hc. lia.
Qed.

Section SingleSpace.
Variables (pnSpace : PacketNumberSpace) (frame : ReadAckFrame).
Variables (ackVisitor : AckVisitor) (art : TimePoint).

Lemma walkAckBlock_single_space blk rPacketIt eraseEnd st k eraseEnd' st' :
  (rPacketIt <= length (ledger st))%nat ->
  Forall (fun p => spaceOf p = pnSpace) (take rPacketIt (ledger st)) ->
  walkAckBlock pnSpace frame ackVisitor art blk rPacketIt eraseEnd st =
    Ok (k, eraseEnd', st') ->
  eraseEnd' = eraseEnd /\ ledger st' = ledger st /\ (k <= rPacketIt)%nat /\
  ackedOf (trace st') =
    ackedOf (trace st) ++ rev (drop k (take rPacketIt (ledger st))) /\
  Forall (fun p => (startPacket blk <= pn p)%N) (drop k (take rPacketIt (ledger st))) /\
  (forall j p, k = S j -> ledger st !! j = Some p -> (pn p < startPacket blk)%N).
Proof.
  revert st. induction rPacketIt as [|next IH]; intros st Hlen Hspace H; simpl in H.
  - injection H as <- <- <-. simpl. rewrite app_nil_r. repeat split; try done.
  - destruct (ledger st !! next) as [p|] eqn:Ep.
    2:{ apply lookup_ge_None in Ep. lia. }
    assert (spaceOf p = pnSpace) as Hp.
    { rewrite Forall_forall in Hspace. apply Hspace.
      apply elem_of_take. exists next. split; [done|lia]. }
    unfold spaceOf in Hp.
    rewrite bool_decide_eq_false_2 in H by (intros Hne; by apply Hne).
    fold (pn p) in H.
    destruct (N.ltb_spec (pn p) (startPacket blk)) as [Hlt|Hge].
    + injection H as <- <- <-.
      rewrite drop_ge by (rewrite length_take; lia). simpl. rewrite app_nil_r.
      repeat split; try done.
      intros j q [= <-] Hq. rewrite Ep in Hq. by injection Hq as <-.
    + destruct (ackOutstandingPacket frame ackVisitor art p st) as [st1|] eqn:E; [|done].
      pose proof (ack_ledger _ _ _ _ _ _ E) as Hl.
      apply IH in H.
      2:{ rewrite Hl. lia. }
      2:{ rewrite Hl. rewrite (take_S_r _ _ _ Ep) in Hspace.
          by apply Forall_app in Hspace as [? _]. }
      destruct H as (-> & Hl' & Hk & Hacked & Hall & Hbound).
      rewrite Hl in *. rewrite (ack_trace _ _ _ _ _ _ E), ackedOf_app, ackedOf_entry in Hacked.
      rewrite (take_S_r _ _ _ Ep), drop_app_le by (rewrite length_take; lia).
      repeat split; try done; try lia.
      * rewrite Hacked, rev_app_distr, <- app_assoc. done.
      * apply Forall_app. split; [done|]. by constructor.
Qed.

Lemma matchAckBlocks_single_space blocks cur st st' :
  (cur <= length (ledger st))%nat ->
  Forall (fun p => spaceOf p = pnSpace) (take cur (ledger st)) ->
  ascending (take cur (ledger st)) ->
  descendingBlocks blocks ->
  matchAckBlocks pnSpace frame ackVisitor art blocks cur st = Ok st' ->
  ackedOf (trace st') =
  ackedOf (trace st) ++
  rev (filter (fun p => coveredBy blocks p = true) (take cur (ledger st))).
Proof.
  revert cur st.
  induction blocks as [|blk rest IH]; intros cur st Hcur Hspace Hasc Hdesc H; simpl in H.
  - injection H as <-. rewrite filter_true_none, app_nil_r; [done|].
    apply Forall_forall. done.
  - destruct Hdesc as (Hvalid & Hlater & Hdesc).
    destruct (Nat.eqb_spec cur 0) as [->|Hcur0].
    { injection H as <-. simpl. by rewrite app_nil_r. }
    set (l := ledger st) in *.
    destruct (lower_bound_sorted l cur (endPacket blk) Hasc Hcur) as (Hr & Hhi & Hlo).
    set (r := lower_bound l cur (endPacket blk)) in *.
    assert (Forall (fun p => coveredBy (blk :: rest) p = false) (drop r (take cur l)))
      as Hpart3.
    { apply Forall_forall. intros p Hp.
      apply list_elem_of_lookup in Hp as [j Hj].
      rewrite lookup_drop in Hj. apply lookup_take_Some in Hj as [Hj Hlt].
      apply coveredBy_later; try done. apply (Hhi (r + j)%nat); [lia|done]. }
    destruct (Nat.eqb_spec r 0) as [Hr0|Hr0].
    { injection H as <-. rewrite Hr0, drop_0 in Hpart3.
      rewrite (filter_true_none _ _ Hpart3), app_nil_r. done. }
    destruct (walkAckBlock _ _ _ _ _ _ _ _) as [[[k e] st1]|] eqn:Ew; simpl in H; [|done].
    apply walkAckBlock_single_space in Ew.
    2:{ fold l. lia. }
    2:{ fold l. replace (take r l) with (take r (take cur l))
          by (rewrite take_take; f_equal; lia).
        by apply Forall_take. }
    fold l in Ew. destruct Ew as (-> & Hl1 & Hk & Hacked & Hpart2 & Hbound).
    assert (ledger (if bool_decide (k ≠ r) then erasePackets k r st1 else st1) =
            take k l ++ drop r l) as Hl2.
    { case_bool_decide as Hkr.
      - by rewrite ledger_erasePackets, Hl1.
      - assert (k = r) as -> by lia. by rewrite Hl1, take_drop. }
    assert (trace (if bool_decide (k ≠ r) then erasePackets k r st1 else st1) = trace st1)
      as Ht2 by (by case_bool_decide).
    apply IH in H; try done.
    2:{ rewrite Hl2, length_app, length_take, length_drop. lia. }
    2:{ rewrite Hl2, take_app_le by (rewrite length_take; lia).
        rewrite take_take. replace (take (k `min` k) l) with (take k (take cur l))
          by (rewrite take_take; f_equal; lia).
        by apply Forall_take. }
    2:{ rewrite Hl2, take_app_le by (rewrite length_take; lia).
        rewrite take_take. replace (take (k `min` k) l) with (take k (take cur l))
          by (rewrite take_take; f_equal; lia).
        by apply ascending_take. }
    rewrite H, Ht2, Hacked, Hl2, take_app_le by (rewrite length_take; lia).
    rewrite take_take, Nat.min_id, <- app_assoc. f_equal.
    (* the packets ahead of the cursor, in three parts *)
    assert (take cur l = take k l ++ drop k (take r l) ++ drop r (take cur l)) as Hsplit.
    { rewrite <- (take_drop r (take cur l)) at 1.
      rewrite take_take, Nat.min_l by lia.
      rewrite <- (take_drop k (take r l)) at 1.
      rewrite take_take, Nat.min_l by lia. by rewrite <- app_assoc. }
    rewrite Hsplit, !filter_app, (filter_true_none _ _ Hpart3), app_nil_r, rev_app_distr.
    f_equal.
    + rewrite filter_true_all; [done|].
      apply Forall_forall. intros p Hp.
      rewrite Forall_forall in Hpart2. pose proof (Hpart2 p Hp) as Hstart.
      apply list_elem_of_lookup in Hp as [j Hj].
      rewrite lookup_drop in Hj. apply lookup_take_Some in Hj as [Hj Hlt].
      pose proof (Hlo (k + j)%nat p Hlt Hj) as Hend.
      unfold coveredBy. simpl. apply orb_true_intro. left.
      unfold covers. apply andb_true_intro. split; by apply N.leb_le.
    + f_equal. apply filter_true_ext. apply Forall_forall. intros p Hp.
      unfold coveredBy. simpl.
      assert (covers blk p = false) as ->; [|done].
      destruct k as [|j]; [by apply elem_of_nil in Hp|].
      destruct (l !! j) as [q|] eqn:Eq.
      2:{ apply lookup_ge_None in Eq. lia. }
      specialize (Hbound j q eq_refl Eq).
      apply elem_of_take in Hp as (i & Hi & Hlt).
      assert (pn p <= pn q)%N.
      { apply (Hasc i j); [lia|by rewrite lookup_take_lt by lia..]. }
      unfold covers. apply andb_false_intro1. apply N.leb_gt. lia.
Qed.

End SingleSpace.

(** The packets a returning call matches, in a ledger of the
    acknowledged space in ascending order and for ack blocks in
    descending order: the packets ahead of the starting cursor that the
    blocks cover, highest first. *)
Lemma single_space_matches_covered c pnSpace frame ackVisitor lossVisitor art c' t :
  Forall (fun p => spaceOf p = pnSpace) (packets (outstandings c)) ->
  ascending (packets (outstandings c)) ->
  descendingBlocks (ackBlocks frame) ->
  processAckFrame c pnSpace frame ackVisitor lossVisitor art = Ok (c', t) ->
  ackedOf t =
  rev (filter (fun p => coveredBy (ackBlocks frame) p = true)
         (take (lastOutstandingPacket c pnSpace) (packets (outstandings c)))).
Proof.
  intros Hspace Hasc Hdesc H.
  pose proof (processAckFrame_run c pnSpace frame ackVisitor lossVisitor art) as Hrun.
  rewrite H in Hrun. destruct Hrun as (st & st1 & El & Es & En).
  destruct (processAckFrame_trace _ _ _ _ _ _ _ _ _ _ El Es En) as (-> & _).
  unfold mergeLoop in El. apply matchAckBlocks_single_space in El; try done.
  - unfold lastOutstandingPacket, ledger. simpl. lia.
  - by apply Forall_take.
  - by apply ascending_take.
Qed.


(** * Further properties of the reconciler *)

(** ** One matched packet: the other fields *)

Lemma ack_largest frame ackVisitor art p st st' :
  ackOutstandingPacket frame ackVisitor art p st = Ok st' ->
  let newLargest :=
    match largestAckedPacket (ack st) with
    | None => true
    | Some n => (n <? pn p)%N
    end in
  largestAckedPacket (ack st') =
    (if newLargest then Some (pn p) else largestAckedPacket (ack st)) /\
  largestAckedPacketSentTime (ack st') =
    (if newLargest then time p else largestAckedPacketSentTime (ack st)) /\
  largestAckedPacketAppLimited (ack st') =
    (if newLargest then isAppLimited p else largestAckedPacketAppLimited (ack st)).
Proof. intros H. unfold pn. ack_inv H; simpl; auto. Qed.

Lemma ack_lossState frame ackVisitor art p st st' :
  ackOutstandingPacket frame ackVisitor art p st = Ok st' ->
  let ls := lossState (conn st) in
  let ls' := lossState (conn st') in
  ls_totalBytesSent ls' = ls_totalBytesSent ls /\
  totalBytesAcked ls' = wrap64 (totalBytesAcked ls + encodedSize p) /\
  totalBytesSentAtLastAck ls' = ls_totalBytesSent ls /\
  totalBytesAckedAtLastAck ls' = totalBytesAcked ls' /\
  lastAckedTime ls' = Some art /\
  lastAckedPacketSentTime ls' = lastAckedPacketSentTime ls /\
  lastAckedPacketSentTimeLocal st' =
    Some (default (time p) (lastAckedPacketSentTimeLocal st)).
Proof.
  intros H. ack_inv H; simpl; destruct (lastAckedPacketSentTimeLocal st); simpl; auto 10.
Qed.

Lemma ack_handshakeCounts frame ackVisitor art p st st' :
  ackOutstandingPacket frame ackVisitor art p st = Ok st' ->
  let processed :=
    isHandshake p && needsProcess (packetEvents (outstandings (conn st))) p in
  initialPacketAcked st' =
    (if processed && bool_decide (spaceOf p = Initial)
     then wrap64 (initialPacketAcked st + 1) else initialPacketAcked st) /\
  handshakePacketAcked st' =
    (if processed && bool_decide (spaceOf p = Handshake)
     then wrap64 (handshakePacketAcked st + 1) else handshakePacketAcked st) /\
  (processed = true -> spaceOf p <> AppData).
Proof.
  intros H. unfold needsProcess, spaceOf.
  ack_inv H; simpl;
    destruct (isHandshake p && _) eqn:Eproc; simpl in *;
    try destruct (getPacketNumberSpace (header (packet p))); simpl in *;
    unfold mret, Outcome_ret in Ecount; simplify_eq; repeat split; done.
Qed.

Lemma applyVisits_callsFor ackVisitor frame p (scope : VisitorScope) :
  applyVisits ackVisitor frame (callsFor p) scope =
  fold_left (fun s f => ackVisitor s p f frame) (frames (packet p)) scope.
Proof.
  unfold applyVisits, callsFor. revert scope.
  induction (frames (packet p)) as [|f fs IH]; intros scope; simpl; [done|]. apply IH.
Qed.

Lemma ack_scope frame ackVisitor art p st st' :
  ackOutstandingPacket frame ackVisitor art p st = Ok st' ->
  (ackStates (conn st'), appState (conn st')) =
    applyVisits ackVisitor frame
      (if needsProcess (packetEvents (outstandings (conn st))) p then callsFor p else [])
      (ackStates (conn st), appState (conn st)) /\
  rtt (lossState (conn st')) =
    applyRttFeeds
      (if (pn p =? largestAcked frame)%N
       then [(rttSampleOf art (clockReads st) p, ackDelay frame)] else [])
      (rtt (lossState (conn st))).
Proof.
  intros H. unfold needsProcess, rttSampleOf, pn.
  ack_inv H; simpl; rewrite ?Etime;
    (split;
     [destruct (match associatedEvent p with Some _ => _ | None => _ end);
      [rewrite applyVisits_callsFor; symmetry; apply surjective_pairing|reflexivity]
     |destruct (_ =? _)%N; reflexivity]).
Qed.

(** ** Invariants that see the ledger

    As above, for a property that packets of the ledger share: it may
    depend on the list of outstanding packets as long as it survives the
    removal of packets, and the step may use that the matched packet is
    in the ledger. *)

Lemma erase_sublist (l : list OutstandingPacket) first last :
  (first <= last)%nat -> erase l first last `sublist_of` l.
Proof.
  intros H. unfold erase. rewrite <- (take_drop first l) at 3.
  apply sublist_app; [done|].
  replace last with (first + (last - first))%nat by lia.
  rewrite <- drop_drop. apply sublist_drop.
Qed.

Section LedgerInvariant.
Variables (pnSpace : PacketNumberSpace) (frame : ReadAckFrame).
Variables (ackVisitor : AckVisitor) (art : TimePoint).
Variable P : AckLoopState -> Prop.
Variable Q : CheckFailure -> list Event -> Prop.
Hypothesis P_sublist : forall l st,
  l `sublist_of` ledger st -> P st -> P (setPackets l st).
Hypothesis P_step : forall p st,
  P st -> p ∈ ledger st -> spaceOf p = pnSpace ->
  match ackOutstandingPacket frame ackVisitor art p st with
  | Ok st' => P st'
  | Fatal c t => Q c t
  end.

Lemma walkAckBlock_invariant_in blk rPacketIt eraseEnd st :
  (rPacketIt <= eraseEnd <= length (ledger st))%nat ->
  P st ->
  match walkAckBlock pnSpace frame ackVisitor art blk rPacketIt eraseEnd st with
  | Ok (_, _, st') => P st'
  | Fatal c t => Q c t
  end.
Proof.
  revert eraseEnd st. induction rPacketIt as [|next IH]; intros eraseEnd st Hb HP; simpl.
  - exact HP.
  - destruct (ledger st !! next) as [p|] eqn:Ep; [|exact HP].
    case_bool_decide as Hspace.
    + case_bool_decide as Hmoved.
      * apply IH.
        -- rewrite ledger_erasePackets, erase_length by done. lia.
        -- apply P_sublist; [apply erase_sublist; lia|exact HP].
      * apply IH; [lia|exact HP].
    + destruct (_ <? _)%N; [exact HP|].
      assert (spaceOf p = pnSpace) as Hp by (unfold spaceOf; congruence).
      assert (p ∈ ledger st) as Hin by (by eapply list_elem_of_lookup_2).
      pose proof (P_step p st HP Hin Hp) as Hstep.
      destruct (ackOutstandingPacket frame ackVisitor art p st) as [st'|c t] eqn:E;
        [|exact Hstep].
      apply IH; [|exact Hstep]. rewrite (ack_ledger _ _ _ _ _ _ E). lia.
Qed.

Lemma matchAckBlocks_invariant_in blocks currentPacketIt st :
  (currentPacketIt <= length (ledger st))%nat ->
  P st ->
  match matchAckBlocks pnSpace frame ackVisitor art blocks currentPacketIt st with
  | Ok st' => P st'
  | Fatal c t => Q c t
  end.
Proof.
  revert currentPacketIt st.
  induction blocks as [|blk rest IH]; intros currentPacketIt st Hb HP; simpl.
  - exact HP.
  - destruct (currentPacketIt =? 0)%nat; [exact HP|].
    pose proof (lower_bound_le (ledger st) currentPacketIt (endPacket blk)) as Hlb.
    destruct (lower_bound (ledger st) currentPacketIt (endPacket blk) =? 0)%nat; [exact HP|].
    pose proof (walkAckBlock_invariant_in blk
                  (lower_bound (ledger st) currentPacketIt (endPacket blk))
                  (lower_bound (ledger st) currentPacketIt (endPacket blk)) st
                  ltac:(lia) HP) as Hw.
    destruct (walkAckBlock _ _ _ _ _ _ _ _) as [[[r e] st1]|c t] eqn:Ew; simpl; [|exact Hw].
    apply walkAckBlock_ledger in Ew as (Hb1 & _ & _); [|lia].
    case_bool_decide as Hmoved.
    + apply IH.
      * rewrite ledger_erasePackets, erase_length by done. lia.
      * apply P_sublist; [apply erase_sublist; lia|exact Hw].
    + apply IH; [lia|exact Hw].
Qed.

End LedgerInvariant.


(** ** What the loop leaves in the ack event and in the connection *)

Lemma sublist_same_length (l1 l2 : list OutstandingPacket) :
  l1 `sublist_of` l2 -> (length l2 <= length l1)%nat -> l1 = l2.
Proof.
  induction 1 as [|x l1 l2 Hs IH|x l1 l2 Hs IH]; simpl; intros Hlen.
  - done.
  - f_equal. apply IH. lia.
  - apply sublist_length in Hs. lia.
Qed.

Lemma handshakeIn_snoc s (l : list OutstandingPacket) p :
  length (handshakeIn s (l ++ [p])) =
  if isHandshake p && bool_decide (spaceOf p = s)
  then S (length (handshakeIn s l)) else length (handshakeIn s l).
Proof.
  unfold handshakeIn. rewrite filter_app, length_app.
  destruct (isHandshake p) eqn:Eh; simpl.
  - case_bool_decide as Hs.
    + rewrite filter_cons_True by done. simpl. lia.
    + rewrite filter_cons_False by (by intros [_ ?]). simpl. lia.
  - rewrite filter_cons_False by (intros [? _]; congruence). simpl. lia.
Qed.

Lemma applyVisits_app ackVisitor frame calls1 calls2 (scope : VisitorScope) :
  applyVisits ackVisitor frame (calls1 ++ calls2) scope =
  applyVisits ackVisitor frame calls2 (applyVisits ackVisitor frame calls1 scope).
Proof. apply fold_left_app. Qed.

Lemma applyRttFeeds_app feeds1 feeds2 (r : RttState) :
  applyRttFeeds (feeds1 ++ feeds2) r = applyRttFeeds feeds2 (applyRttFeeds feeds1 r).
Proof. apply fold_left_app. Qed.

Section Effects.
Variables (c0 : QuicConnectionStateBase) (pnSpace : PacketNumberSpace).
Variables (frame : ReadAckFrame) (ackVisitor : AckVisitor) (art : TimePoint).
Variables (blocks : list AckBlock) (cur : nat).

Let loop : Outcome AckLoopState :=
  matchAckBlocks pnSpace frame ackVisitor art blocks cur (initialLoopState c0 art).

(** The largest acknowledged packet number of the ack event is the
    greatest number matched, with the send time and the app-limited flag
    of a matched packet of that number. *)
Lemma loop_largest st :
  loop = Ok st ->
  match largestAckedPacket (ack st) with
  | None => ackedOf (trace st) = []
  | Some n =>
    Forall (fun q => (pn q <= n)%N) (ackedOf (trace st)) /\
    exists p, p ∈ ackedOf (trace st) /\ pn p = n /\
      largestAckedPacketSentTime (ack st) = time p /\
      largestAckedPacketAppLimited (ack st) = isAppLimited p
  end.
Proof.
  unfold loop. intros H.
  loop_invariant
    (fun st =>
       match largestAckedPacket (ack st) with
       | None => ackedOf (trace st) = []
       | Some n =>
         Forall (fun q => (pn q <= n)%N) (ackedOf (trace st)) /\
         exists p, p ∈ ackedOf (trace st) /\ pn p = n /\
           largestAckedPacketSentTime (ack st) = time p /\
           largestAckedPacketAppLimited (ack st) = isAppLimited p
       end)
    (fun (_ : CheckFailure) (_ : list Event) => True) H.
  - intros l s Hs. exact Hs.
  - intros p s Hs _.
    destruct (ackOutstandingPacket frame ackVisitor art p s) as [s'|] eqn:E; [|done].
    destruct (ack_largest _ _ _ _ _ _ E) as (-> & -> & ->).
    rewrite (ack_trace _ _ _ _ _ _ E), ackedOf_app, ackedOf_entry.
    destruct (largestAckedPacket (ack s)) as [n|] eqn:En.
    + destruct Hs as (Hall & q & Hq & Hn & Ht & Ha).
      destruct (N.ltb_spec n (pn p)) as [Hlt|Hge].
      * split.
        -- apply Forall_app. split; [|by repeat constructor].
           eapply Forall_impl; [exact Hall|]. simpl. intros; lia.
        -- exists p. split; [|done]. apply elem_of_app. right. by apply list_elem_of_singleton.
      * split.
        -- apply Forall_app. split; [exact Hall|by repeat constructor].
        -- exists q. split; [|done]. apply elem_of_app. by left.
    + rewrite Hs. simpl. split; [by repeat constructor|].
      exists p. split; [|done]. by apply list_elem_of_singleton.
  - reflexivity.
Qed.

(** The loss state: the bytes acknowledged grow by the encoded sizes of
    the matched packets, modulo 2^64; the two snapshots, the time of the
    last ack and the local copy of the last acknowledged packet's send
    time are set once a packet is matched, the latter from the first
    packet matched. *)
Lemma loop_lossState st :
  loop = Ok st ->
  let ls0 := lossState c0 in
  let ls := lossState (conn st) in
  ls_totalBytesSent ls = ls_totalBytesSent ls0 /\
  lastAckedPacketSentTime ls = lastAckedPacketSentTime ls0 /\
  match ackedOf (trace st) with
  | [] =>
    lastAckedPacketSentTimeLocal st = None /\
    totalBytesAcked ls = totalBytesAcked ls0 /\
    totalBytesSentAtLastAck ls = totalBytesSentAtLastAck ls0 /\
    totalBytesAckedAtLastAck ls = totalBytesAckedAtLastAck ls0 /\
    lastAckedTime ls = lastAckedTime ls0
  | first :: _ =>
    lastAckedPacketSentTimeLocal st = Some (time first) /\
    totalBytesAcked ls =
      wrap64 (totalBytesAcked ls0 + sumEncodedSize (ackedOf (trace st))) /\
    totalBytesSentAtLastAck ls = ls_totalBytesSent ls0 /\
    totalBytesAckedAtLastAck ls = totalBytesAcked ls /\
    lastAckedTime ls = Some art
  end.
Proof.
  unfold loop. intros H. simpl.
  loop_invariant
    (fun st =>
       ls_totalBytesSent (lossState (conn st)) = ls_totalBytesSent (lossState c0) /\
       lastAckedPacketSentTime (lossState (conn st)) =
         lastAckedPacketSentTime (lossState c0) /\
       match ackedOf (trace st) with
       | [] =>
         lastAckedPacketSentTimeLocal st = None /\
         totalBytesAcked (lossState (conn st)) = totalBytesAcked (lossState c0) /\
         totalBytesSentAtLastAck (lossState (conn st)) =
           totalBytesSentAtLastAck (lossState c0) /\
         totalBytesAckedAtLastAck (lossState (conn st)) =
           totalBytesAckedAtLastAck (lossState c0) /\
         lastAckedTime (lossState (conn st)) = lastAckedTime (lossState c0)
       | first :: _ =>
         lastAckedPacketSentTimeLocal st = Some (time first) /\
         totalBytesAcked (lossState (conn st)) =
           wrap64 (totalBytesAcked (lossState c0) + sumEncodedSize (ackedOf (trace st))) /\
         totalBytesSentAtLastAck (lossState (conn st)) =
           ls_totalBytesSent (lossState c0) /\
         totalBytesAckedAtLastAck (lossState (conn st)) =
           totalBytesAcked (lossState (conn st)) /\
         lastAckedTime (lossState (conn st)) = Some art
       end)
    (fun (_ : CheckFailure) (_ : list Event) => True) H.
  - intros l s Hs. exact Hs.
  - intros p s (Hsent & Hlast & Hs) _.
    destruct (ackOutstandingPacket frame ackVisitor art p s) as [s'|] eqn:E; [|done].
    destruct (ack_lossState _ _ _ _ _ _ E) as (-> & Hacked & -> & -> & -> & -> & ->).
    rewrite Hacked, (ack_trace _ _ _ _ _ _ E), ackedOf_app, ackedOf_entry,
      sumEncodedSize_snoc.
    split; [exact Hsent|]. split; [exact Hlast|].
    destruct (ackedOf (trace s)) as [|q m] eqn:Em; simpl.
    + destruct Hs as (-> & -> & _). simpl. repeat split; try done;
        f_equal; lia.
    + destruct Hs as (-> & -> & _). simpl. repeat split; try done;
        rewrite wrap64_add_l; f_equal; lia.
  - simpl. done.
Qed.

(** The visitor's scope is the scope on entry after the visitor calls of
    the trace, in order; the RTT estimator's state is the state on entry
    after the feeds of the trace; every visitor call is made on a matched
    packet. *)
Lemma loop_effects st :
  loop = Ok st ->
  (ackStates (conn st), appState (conn st)) =
    applyVisits ackVisitor frame (visitorCallsOf (trace st)) (ackStates c0, appState c0) /\
  rtt (lossState (conn st)) =
    applyRttFeeds (rttFeedsOf (trace st)) (rtt (lossState c0)) /\
  Forall (fun call => fst call ∈ ackedOf (trace st)) (visitorCallsOf (trace st)).
Proof.
  unfold loop. intros H.
  loop_invariant
    (fun st =>
       (ackStates (conn st), appState (conn st)) =
         applyVisits ackVisitor frame (visitorCallsOf (trace st))
           (ackStates c0, appState c0) /\
       rtt (lossState (conn st)) =
         applyRttFeeds (rttFeedsOf (trace st)) (rtt (lossState c0)) /\
       Forall (fun call => fst call ∈ ackedOf (trace st)) (visitorCallsOf (trace st)))
    (fun (_ : CheckFailure) (_ : list Event) => True) H.
  - intros l s Hs. exact Hs.
  - intros p s (Hscope & Hrtt & Hcalls) _.
    destruct (ackOutstandingPacket frame ackVisitor art p s) as [s'|] eqn:E; [|done].
    destruct (ack_scope _ _ _ _ _ _ E) as (-> & ->).
    rewrite (ack_trace _ _ _ _ _ _ E), visitorCallsOf_app, rttFeedsOf_app, ackedOf_app,
      visitorCallsOf_entry, rttFeedsOf_entry, ackedOf_entry,
      applyVisits_app, applyRttFeeds_app, <- Hscope, <- Hrtt.
    split; [done|]. split; [done|].
    apply Forall_app. split.
    + eapply Forall_impl; [exact Hcalls|]. simpl. intros call Hin.
      apply elem_of_app. by left.
    + destruct (needsProcess _ p); [|constructor].
      unfold callsFor. apply Forall_forall. intros call Hin.
      apply list_elem_of_fmap in Hin as (f & -> & _). simpl.
      apply elem_of_app. right. by apply list_elem_of_singleton.
  - simpl. split; [done|]. split; [done|]. constructor.
Qed.

(** The counts of handshake packets: only the count of the space
    acknowledged can move, and the loop aborts only on a processed
    handshake packet of the AppData space. *)
Lemma loop_handshakeCounts :
  match loop with
  | Ok st =>
    (pnSpace <> Initial -> initialPacketAcked st = 0%N) /\
    (pnSpace <> Handshake -> handshakePacketAcked st = 0%N) /\
    (pnSpace = AppData ->
     Forall (fun p => isHandshake p = true -> is_Some (associatedEvent p))
       (ackedOf (trace st)))
  | Fatal chk t =>
    pnSpace = AppData /\
    exists t0 p, t = t0 ++ [EvAcked p] /\ isHandshake p = true /\ spaceOf p = AppData
  end.
Proof.
  unfold loop.
  apply (matchAckBlocks_invariant pnSpace frame ackVisitor art
           (fun st =>
              (pnSpace <> Initial -> initialPacketAcked st = 0%N) /\
              (pnSpace <> Handshake -> handshakePacketAcked st = 0%N) /\
              (pnSpace = AppData ->
               Forall (fun p => isHandshake p = true -> is_Some (associatedEvent p))
                 (ackedOf (trace st))))
           (fun _ t =>
              pnSpace = AppData /\
              exists t0 p, t = t0 ++ [EvAcked p] /\ isHandshake p = true /\
                           spaceOf p = AppData)).
  - intros l s Hs. exact Hs.
  - intros p s (Hi & Hh & Hc) Hp.
    destruct (ackOutstandingPacket frame ackVisitor art p s) as [s'|chk t] eqn:E.
    + destruct (ack_handshakeCounts _ _ _ _ _ _ E) as (-> & -> & Hproc).
      rewrite (ack_trace _ _ _ _ _ _ E), ackedOf_app, ackedOf_entry.
      split; [|split].
      * intros Hne. rewrite bool_decide_eq_false_2 by congruence.
        rewrite andb_false_r. by apply Hi.
      * intros Hne. rewrite bool_decide_eq_false_2 by congruence.
        rewrite andb_false_r. by apply Hh.
      * intros Hs. apply Forall_app. split; [by apply Hc|]. constructor; [|constructor].
        intros Hhs. rewrite Hhs in Hproc. simpl in Hproc.
        unfold needsProcess in Hproc.
        destruct (associatedEvent p) as [e|]; [by eexists|].
        exfalso. apply Hproc; [done|congruence].
    + apply ack_Fatal in E as (_ & -> & Hs & Hhs). split; [congruence|eauto].
  - simpl. repeat split; done.
Qed.

(** A loop that matched no packet leaves the state it started from,
    the list of outstanding packets apart. *)
Lemma loop_nothing_matched st :
  loop = Ok st ->
  ackedOf (trace st) = [] ->
  st = setPackets (ledger st) (initialLoopState c0 art).
Proof.
  unfold loop. intros H.
  loop_invariant
    (fun st => ackedOf (trace st) = [] ->
               st = setPackets (ledger st) (initialLoopState c0 art))
    (fun (_ : CheckFailure) (_ : list Event) => True) H.
  - intros l s Hs Hnil. specialize (Hs Hnil). rewrite Hs. reflexivity.
  - intros p s _ _.
    destruct (ackOutstandingPacket frame ackVisitor art p s) as [s'|] eqn:E; [|done].
    rewrite (ack_trace _ _ _ _ _ _ E), ackedOf_app, ackedOf_entry.
    intros Hnil. by apply app_nil in Hnil as [_ ?].
  - intros _. unfold initialLoopState, setPackets, ledger. simpl.
    destruct c0 as [[] ? ? ? ?]. reflexivity.
Qed.

End Effects.


(** ** What a returning call hands to the loss detector *)

Lemma settleCounters_lossState st st1 :
  settleCounters st = Ok st1 ->
  lossState (conn st1) =
  match lastAckedPacketSentTimeLocal st with
  | Some sent =>
    mkLossState (ls_totalBytesSent (lossState (conn st)))
      (totalBytesAcked (lossState (conn st)))
      (totalBytesSentAtLastAck (lossState (conn st)))
      (totalBytesAckedAtLastAck (lossState (conn st)))
      (lastAckedTime (lossState (conn st))) (Some sent) (rtt (lossState (conn st)))
  | None => lossState (conn st)
  end.
Proof.
  unfold settleCounters. intros H.
  repeat match type of H with
         | (if negb (?a <=? ?b)%N then _ else _) = _ =>
           destruct (N.leb_spec a b); simpl in H; [|discriminate H]
         end.
  injection H as <-. reflexivity.
Qed.

Lemma settleCounters_initial c art st1 :
  settleCounters (initialLoopState c art) = Ok st1 -> st1 = initialLoopState c art.
Proof.
  unfold settleCounters. intros H.
  repeat match type of H with
         | (if negb (?a <=? ?b)%N then _ else _) = _ =>
           destruct (N.leb_spec a b); simpl in H; [|discriminate H]
         end.
  injection H as <-. simpl. rewrite !N.sub_0_r.
  unfold initialLoopState. destruct c as [[] ? ? ? ?]. reflexivity.
Qed.

(** The ledger the loop leaves, against the ledger on entry. *)
Lemma mergeLoop_ledger c pnSpace frame ackVisitor art st :
  mergeLoop c pnSpace frame ackVisitor art = Ok st ->
  packets (outstandings c) ≡ₚ ledger st ++ ackedOf (trace st) /\
  ledger st `sublist_of` packets (outstandings c).
Proof.
  intros El.
  pose proof (matchAckBlocks_ledger pnSpace frame ackVisitor art (ackBlocks frame)
                (lastOutstandingPacket c pnSpace) (initialLoopState c art) st) as Hled.
  destruct Hled as (Hperm & Hsub); [unfold lastOutstandingPacket, ledger; simpl; lia|exact El|].
  unfold ledger in *. simpl in Hperm, Hsub. rewrite app_nil_r in Hperm. done.
Qed.

Lemma mergeLoop_nothing_matched c pnSpace frame ackVisitor art st :
  mergeLoop c pnSpace frame ackVisitor art = Ok st ->
  ackedOf (trace st) = [] ->
  st = initialLoopState c art.
Proof.
  intros El Hnil.
  pose proof (loop_nothing_matched c pnSpace frame ackVisitor art _ _ st El Hnil) as Hst.
  destruct (mergeLoop_ledger _ _ _ _ _ _ El) as (Hperm & Hsub).
  rewrite Hnil, app_nil_r in Hperm.
  assert (ledger st = packets (outstandings c)) as Hl.
  { apply sublist_same_length; [done|]. by rewrite Hperm. }
  rewrite Hst, Hl. unfold initialLoopState, setPackets. simpl.
  destruct c as [[] ? ? ? ?]. reflexivity.
Qed.

Lemma entriesOf_carriedEvents e (l : list OutstandingPacket) :
  entriesOf e l = [] <-> e ∉ carriedEvents l.
Proof.
  unfold carriedEvents, entriesOf. rewrite elem_of_list_to_set, list_elem_of_omap. split.
  - intros Hnil (p & Hp & He). by apply (filter_nil_not_elem_of _ _ p Hnil).
  - intros Hno.
    destruct (filter (fun p => associatedEvent p = Some e) l) as [|q qs] eqn:Ef; [done|].
    exfalso. apply Hno. exists q.
    assert (q ∈ filter (fun p => associatedEvent p = Some e) l) as Hq
      by (rewrite Ef; by left).
    apply list_elem_of_filter in Hq as [? ?]. done.
Qed.

(** X1. The largest acknowledged packet number of the ack event that a
    returning call hands to the loss detector is the greatest packet
    number matched, and the event's sent time and app-limited flag are
    those of a matched packet of that number; it is absent exactly when
    no packet was matched. *)
Theorem largest_acked_is_maximum c pnSpace frame ackVisitor lossVisitor art :
  match processAckFrame c pnSpace frame ackVisitor lossVisitor art with
  | Ok (_, t) =>
    exists c1 a,
      lossHandoffsOf t = [(c1, a, pnSpace)] /\
      match largestAckedPacket a with
      | None => ackedOf t = []
      | Some n =>
        Forall (fun q => (pn q <= n)%N) (ackedOf t) /\
        exists p, p ∈ ackedOf t /\ pn p = n /\
          largestAckedPacketSentTime a = time p /\
          largestAckedPacketAppLimited a = isAppLimited p
      end
  | Fatal _ _ => True
  end.
Proof.
  pose proof (processAckFrame_run c pnSpace frame ackVisitor lossVisitor art) as Hrun.
  destruct (processAckFrame c pnSpace frame ackVisitor lossVisitor art) as [[c' t]|chk t];
    [|done].
  destruct Hrun as (st & st1 & El & Es & En).
  destruct (processAckFrame_trace _ _ _ _ _ _ _ _ _ _ El Es En) as (Ha & _ & _ & Hh).
  exists (conn st1), (ack st). split; [done|]. rewrite Ha.
  apply (loop_largest c pnSpace frame ackVisitor art _ _ st El).
Qed.

(** X2. The ack event of a returning call carries the ack's receive time
    and one record for each matched packet, in the order the packets were
    matched: the packet's send time, encoded size, last-acked-packet
    information, total bytes sent and app-limited flag. *)
Theorem acked_packets_recorded c pnSpace frame ackVisitor lossVisitor art :
  match processAckFrame c pnSpace frame ackVisitor lossVisitor art with
  | Ok (_, t) =>
    exists c1 a,
      lossHandoffsOf t = [(c1, a, pnSpace)] /\
      ackTime a = art /\
      ackedPackets a = map ackPacketOf (ackedOf t)
  | Fatal _ _ => True
  end.
Proof.
  pose proof (processAckFrame_run c pnSpace frame ackVisitor lossVisitor art) as Hrun.
  destruct (processAckFrame c pnSpace frame ackVisitor lossVisitor art) as [[c' t]|chk t];
    [|done].
  destruct Hrun as (st & st1 & El & Es & En).
  destruct (processAckFrame_trace _ _ _ _ _ _ _ _ _ _ El Es En) as (Ha & _ & _ & Hh).
  exists (conn st1), (ack st). split; [done|]. rewrite Ha. split.
  - apply (loop_ackedBytes c pnSpace frame ackVisitor art _ _ st El).
  - apply (loop_ackedPackets c pnSpace frame ackVisitor art _ _ st El).
Qed.

(** X3. The loss state a returning call hands to the loss detector.  The
    total of bytes sent is never changed.  When no packet was matched the
    acknowledged bytes, the two snapshots and the two last-ack times are
    those on entry.  Otherwise the acknowledged bytes have grown by the
    encoded sizes of the matched packets, modulo 2^64, the snapshots hold
    the total of bytes sent and the new total of bytes acknowledged, the
    last ack time is the ack's receive time, and the last acknowledged
    packet's send time is that of the packet matched first. *)
Theorem loss_state_accounting c pnSpace frame ackVisitor lossVisitor art :
  match processAckFrame c pnSpace frame ackVisitor lossVisitor art with
  | Ok (_, t) =>
    exists c1 a,
      lossHandoffsOf t = [(c1, a, pnSpace)] /\
      ls_totalBytesSent (lossState c1) = ls_totalBytesSent (lossState c) /\
      match ackedOf t with
      | [] =>
        totalBytesAcked (lossState c1) = totalBytesAcked (lossState c) /\
        totalBytesSentAtLastAck (lossState c1) = totalBytesSentAtLastAck (lossState c) /\
        totalBytesAckedAtLastAck (lossState c1) = totalBytesAckedAtLastAck (lossState c) /\
        lastAckedTime (lossState c1) = lastAckedTime (lossState c) /\
        lastAckedPacketSentTime (lossState c1) = lastAckedPacketSentTime (lossState c)
      | first :: _ =>
        totalBytesAcked (lossState c1) =
          wrap64 (totalBytesAcked (lossState c) + sumEncodedSize (ackedOf t)) /\
        totalBytesSentAtLastAck (lossState c1) = ls_totalBytesSent (lossState c) /\
        totalBytesAckedAtLastAck (lossState c1) = totalBytesAcked (lossState c1) /\
        lastAckedTime (lossState c1) = Some art /\
        lastAckedPacketSentTime (lossState c1) = Some (time first)
      end
  | Fatal _ _ => True
  end.
Proof.
  pose proof (processAckFrame_run c pnSpace frame ackVisitor lossVisitor art) as Hrun.
  destruct (processAckFrame c pnSpace frame ackVisitor lossVisitor art) as [[c' t]|chk t];
    [|done].
  destruct Hrun as (st & st1 & El & Es & En).
  destruct (processAckFrame_trace _ _ _ _ _ _ _ _ _ _ El Es En) as (Ha & _ & _ & Hh).
  exists (conn st1), (ack st). split; [done|]. rewrite Ha.
  pose proof (loop_lossState c pnSpace frame ackVisitor art _ _ st El) as Hls.
  simpl in Hls. destruct Hls as (Hsent & Hlast & Hls).
  rewrite (settleCounters_lossState _ _ Es).
  destruct (ackedOf (trace st)) as [|first rest].
  - destruct Hls as (-> & ? & ? & ? & ?). done.
  - destruct Hls as (-> & ? & ? & ? & ?). simpl. done.
Qed.

(** X4. The counters of handshake packets.  A returning call changes the
    count of Initial packets only when it acknowledges the Initial space
    and the count of Handshake packets only when it acknowledges the
    Handshake space; when it acknowledges the AppData space, every
    matched packet flagged as handshake carries an associated event.  The
    check on a handshake packet's space can abort the call only when the
    AppData space is acknowledged, and the trace then ends with the
    packet that failed it, a handshake packet of that space. *)
Theorem handshake_counters_by_space c pnSpace frame ackVisitor lossVisitor art :
  match processAckFrame c pnSpace frame ackVisitor lossVisitor art with
  | Ok (_, t) =>
    exists c1 a,
      lossHandoffsOf t = [(c1, a, pnSpace)] /\
      (pnSpace <> Initial ->
       initialPacketsCount (outstandings c1) = initialPacketsCount (outstandings c)) /\
      (pnSpace <> Handshake ->
       handshakePacketsCount (outstandings c1) = handshakePacketsCount (outstandings c)) /\
      (pnSpace = AppData ->
       Forall (fun p => isHandshake p = true -> is_Some (associatedEvent p)) (ackedOf t))
  | Fatal chk t =>
    chk = CheckHandshakeSpace ->
    pnSpace = AppData /\
    exists t0 p, t = t0 ++ [EvAcked p] /\ isHandshake p = true /\ spaceOf p = AppData
  end.
Proof.
  pose proof (processAckFrame_run c pnSpace frame ackVisitor lossVisitor art) as Hrun.
  pose proof (loop_handshakeCounts c pnSpace frame ackVisitor art (ackBlocks frame)
                (lastOutstandingPacket c pnSpace)) as Hloop.
  fold (mergeLoop c pnSpace frame ackVisitor art) in Hloop.
  destruct (processAckFrame c pnSpace frame ackVisitor lossVisitor art) as [[c' t]|chk t].
  - destruct Hrun as (st & st1 & El & Es & En).
    destruct (processAckFrame_trace _ _ _ _ _ _ _ _ _ _ El Es En) as (Ha & _ & _ & Hh).
    rewrite El in Hloop. destruct Hloop as (Hi & Hhs & Hc).
    pose proof (settleCounters_Ok _ _ Es) as (_ & _ & _ & _ & _ & Hi1 & Hh1 & _).
    pose proof (loop_counts c pnSpace frame ackVisitor art _ _ st El) as (Hi0 & Hh0 & _).
    exists (conn st1), (ack st). split; [done|]. rewrite Ha. split; [|split].
    + intros Hne. rewrite Hi1, (Hi Hne), Hi0. lia.
    + intros Hne. rewrite Hh1, (Hhs Hne), Hh0. lia.
    + exact Hc.
  - intros ->.
    destruct Hrun as [(_ & El)|[(Hchk & _)|(Hchk & _)]]; [|done..].
    rewrite El in Hloop. exact Hloop.
Qed.

(** X5. The packet events pending in the connection that a returning
    call hands to the loss detector are those pending on entry, less the
    events carried by the matched packets. *)
Theorem pending_events_after c pnSpace frame ackVisitor lossVisitor art :
  match processAckFrame c pnSpace frame ackVisitor lossVisitor art with
  | Ok (_, t) =>
    exists c1 a,
      lossHandoffsOf t = [(c1, a, pnSpace)] /\
      packetEvents (outstandings c1) =
        packetEvents (outstandings c) ∖ carriedEvents (ackedOf t)
  | Fatal _ _ => True
  end.
Proof.
  pose proof (processAckFrame_run c pnSpace frame ackVisitor lossVisitor art) as Hrun.
  destruct (processAckFrame c pnSpace frame ackVisitor lossVisitor art) as [[c' t]|chk t];
    [|done].
  destruct Hrun as (st & st1 & El & Es & En).
  destruct (processAckFrame_trace _ _ _ _ _ _ _ _ _ _ El Es En) as (Ha & _ & _ & Hh).
  exists (conn st1), (ack st). split; [done|]. rewrite Ha.
  pose proof (settleCounters_Ok _ _ Es) as (_ & _ & _ & _ & -> & _).
  pose proof (loop_clones c pnSpace frame ackVisitor art _ _ st El) as (Hpend & _).
  apply set_eq. intros e.
  rewrite elem_of_difference, Hpend, entriesOf_carriedEvents. done.
Qed.

(** X6. What the loop does to the connection through its collaborators.
    In the connection a returning call hands to the loss detector, the
    ack states and the application state are those on entry after the
    visitor calls of the trace, applied in order, and the RTT estimator's
    state is the state on entry after the feeds of the trace, in order.
    The visitor is called only on matched packets, and the congestion
    controller is the one attached on entry. *)
Theorem visitor_and_rtt_effects c pnSpace frame ackVisitor lossVisitor art :
  match processAckFrame c pnSpace frame ackVisitor lossVisitor art with
  | Ok (_, t) =>
    exists c1 a,
      lossHandoffsOf t = [(c1, a, pnSpace)] /\
      (ackStates c1, appState c1) =
        applyVisits ackVisitor frame (visitorCallsOf t) (ackStates c, appState c) /\
      rtt (lossState c1) = applyRttFeeds (rttFeedsOf t) (rtt (lossState c)) /\
      Forall (fun call => fst call ∈ ackedOf t) (visitorCallsOf t) /\
      congestionController c1 = congestionController c
  | Fatal _ _ => True
  end.
Proof.
  pose proof (processAckFrame_run c pnSpace frame ackVisitor lossVisitor art) as Hrun.
  destruct (processAckFrame c pnSpace frame ackVisitor lossVisitor art) as [[c' t]|chk t];
    [|done].
  destruct Hrun as (st & st1 & El & Es & En).
  destruct (processAckFrame_trace _ _ _ _ _ _ _ _ _ _ El Es En) as (Ha & Hr & Hv & Hh).
  exists (conn st1), (ack st). split; [done|]. rewrite Ha, Hr, Hv.
  pose proof (settleCounters_Ok _ _ Es)
    as (_ & _ & _ & _ & _ & _ & _ & _ & -> & -> & ->).
  pose proof (loop_effects c pnSpace frame ackVisitor art _ _ st El)
    as (Hscope & Hrtt & Hcalls).
  pose proof (loop_counts c pnSpace frame ackVisitor art _ _ st El) as (_ & _ & _ & Hcc).
  repeat split; try done.
  rewrite (settleCounters_lossState _ _ Es).
  by destruct (lastAckedPacketSentTimeLocal st).
Qed.

(** X7. A returning call that matched no packet has changed nothing
    before the loss detector runs: the loss detector receives the
    connection as it was on entry, with the empty ack event, and neither
    the RTT estimator nor the ack visitor has been called. *)
Theorem nothing_matched_nothing_changed c pnSpace frame ackVisitor lossVisitor art :
  match processAckFrame c pnSpace frame ackVisitor lossVisitor art with
  | Ok (_, t) =>
    ackedOf t = [] ->
    lossHandoffsOf t = [(c, newAckEvent art, pnSpace)] /\
    rttFeedsOf t = [] /\ visitorCallsOf t = []
  | Fatal _ _ => True
  end.
Proof.
  pose proof (processAckFrame_run c pnSpace frame ackVisitor lossVisitor art) as Hrun.
  destruct (processAckFrame c pnSpace frame ackVisitor lossVisitor art) as [[c' t]|chk t];
    [|done].
  destruct Hrun as (st & st1 & El & Es & En).
  destruct (processAckFrame_trace _ _ _ _ _ _ _ _ _ _ El Es En) as (Ha & Hr & Hv & Hh).
  rewrite Ha, Hr, Hv, Hh. intros Hnil.
  pose proof (mergeLoop_nothing_matched _ _ _ _ _ _ El Hnil) as ->.
  apply settleCounters_initial in Es as ->. done.
Qed.

(** X8. A returning call leaves the outstanding packets of the other
    packet-number spaces in the ledger, in their order. *)
Theorem other_spaces_untouched c pnSpace frame ackVisitor lossVisitor art :
  match processAckFrame c pnSpace frame ackVisitor lossVisitor art with
  | Ok (_, t) =>
    exists c1 a,
      lossHandoffsOf t = [(c1, a, pnSpace)] /\
      otherSpaces pnSpace (packets (outstandings c1)) =
        otherSpaces pnSpace (packets (outstandings c))
  | Fatal _ _ => True
  end.
Proof.
  pose proof (processAckFrame_run c pnSpace frame ackVisitor lossVisitor art) as Hrun.
  destruct (processAckFrame c pnSpace frame ackVisitor lossVisitor art) as [[c' t]|chk t];
    [|done].
  destruct Hrun as (st & st1 & El & Es & En).
  destruct (processAckFrame_trace _ _ _ _ _ _ _ _ _ _ El Es En) as (Ha & _ & _ & Hh).
  exists (conn st1), (ack st). split; [done|].
  pose proof (settleCounters_Ok _ _ Es) as (_ & _ & _ & -> & _).
  destruct (mergeLoop_ledger _ _ _ _ _ _ El) as (Hperm & Hsub).
  pose proof (loop_spaces c pnSpace frame ackVisitor art _ _ st El) as Hsp.
  unfold otherSpaces. fold (ledger st).
  apply sublist_same_length.
  - clear -Hsub. induction Hsub as [|x l1 l2 Hs IH|x l1 l2 Hs IH]; [done|..].
    + rewrite !filter_cons. destruct (decide (spaceOf x <> pnSpace)); [by constructor|done].
    + rewrite filter_cons. destruct (decide (spaceOf x <> pnSpace)); [by constructor|done].
  - rewrite Hperm, filter_app, length_app.
    assert (filter (fun p => spaceOf p <> pnSpace) (ackedOf (trace st)) = []) as ->.
    { clear -Hsp. induction Hsp as [|p l Hp _ IH]; [done|].
      rewrite filter_cons_False by (intros Hne; by apply Hne). exact IH. }
    simpl. lia.
Qed.


(** ** Where the search for a block's end leaves the loop *)

Lemma lower_bound_loop_all_above (l : list OutstandingPacket) val turns first len :
  (len <= turns)%nat -> (len <= first)%nat -> (first <= length l)%nat ->
  (forall i p, (i < first)%nat -> l !! i = Some p -> (val < pn p)%N) ->
  lower_bound_loop turns l val first len = (first - len)%nat.
Proof.
  revert first len.
  induction turns as [|turns IH]; intros first len Hturns Hlen Hfirst Habove; simpl.
  - lia.
  - destruct (Nat.eqb_spec len 0) as [->|Hpos]; [lia|].
    assert (Nat.div2 len < len)%nat as Hhalf by (apply Nat.lt_div2; lia).
    revert Hhalf. generalize (Nat.div2 len). intros half Hhalf.
    destruct (first - half)%nat as [|m] eqn:Em; [lia|]. simpl.
    destruct (l !! m) as [p|] eqn:Ep.
    2:{ apply lookup_ge_None in Ep. lia. }
    fold (pn p). destruct (N.ltb_spec val (pn p)) as [Hgt|Hle].
    + rewrite IH; try lia.
      intros i q Hi Hq. apply (Habove i q); [lia|done].
    + specialize (Habove m p ltac:(lia) Ep). lia.
Qed.

(** X9. When the frame has no ack block, or its first block ends below
    every packet ahead of the starting cursor (in particular when there
    is none), the loop matches nothing and leaves the connection as it
    is: the search for the first block's end runs off the front of the
    ledger and the loop is left, so that the later blocks are not
    examined, whatever they cover. *)
Theorem first_block_below_matches_nothing c pnSpace frame ackVisitor lossVisitor art :
  firstBlockBelow (ackBlocks frame)
    (take (lastOutstandingPacket c pnSpace) (packets (outstandings c))) ->
  mergeLoop c pnSpace frame ackVisitor art = Ok (initialLoopState c art) /\
  ackedOf (outcomeTrace (processAckFrame c pnSpace frame ackVisitor lossVisitor art)) = [].
Proof.
  intros Hbelow.
  assert (mergeLoop c pnSpace frame ackVisitor art = Ok (initialLoopState c art)) as El.
  { unfold mergeLoop, firstBlockBelow in *.
    destruct (ackBlocks frame) as [|blk rest]; simpl; [done|].
    destruct (lastOutstandingPacket c pnSpace =? 0)%nat; [done|].
    unfold lower_bound.
    rewrite lower_bound_loop_all_above.
    - by rewrite Nat.sub_diag.
    - done.
    - done.
    - unfold lastOutstandingPacket, ledger. simpl. lia.
    - intros i p Hi Hp. rewrite Forall_forall in Hbelow. apply Hbelow.
      apply elem_of_take. exists i. done. }
  split; [exact El|].
  rewrite processAckFrame_stages, El.
  destruct (settleCounters (initialLoopState c art)) as [st1|chk t] eqn:Es.
  - apply settleCounters_initial in Es as ->.
    destruct (notifyAckOrLoss_trace pnSpace lossVisitor (initialLoopState c art))
      as (tail & -> & Htail).
    apply notification_tail in Htail as (Ha & _). simpl. exact Ha.
  - apply settleCounters_Fatal in Es as (-> & _). reflexivity.
Qed.

(** ** Ledgers in ascending order *)

Lemma ascending_nil : ascending ([] : list OutstandingPacket).
Proof. intros i j p q _ Hp. by rewrite lookup_nil in Hp. Qed.

Lemma ascending_cons p (l : list OutstandingPacket) :
  Forall (fun q => (pn p <= pn q)%N) l -> ascending l -> ascending (p :: l).
Proof.
  intros Hall Hasc i j x y Hij Hx Hy.
  destruct i as [|i], j as [|j]; simpl in *; simplify_eq.
  - lia.
  - rewrite Forall_forall in Hall. apply Hall. by eapply list_elem_of_lookup_2.
  - lia.
  - apply (Hasc i j); [lia|done..].
Qed.

Lemma ascending_sublist (l1 l2 : list OutstandingPacket) :
  l1 `sublist_of` l2 -> ascending l2 -> ascending l1.
Proof.
  induction 1 as [|x l1 l2 Hs IH|x l1 l2 Hs IH]; intros Hasc.
  - done.
  - apply ascending_cons.
    + apply Forall_forall. intros q Hq.
      assert (q ∈ l2) as Hq2 by (by eapply elem_of_sublist).
      apply list_elem_of_lookup in Hq2 as [j Hj].
      apply (Hasc 0%nat (S j)); [lia|done..].
    + apply IH. intros i j p q Hij Hp Hq. apply (Hasc (S i) (S j)); [lia|done..].
  - apply IH. intros i j p q Hij Hp Hq. apply (Hasc (S i) (S j)); [lia|done..].
Qed.

Lemma drop_take_drop (l : list OutstandingPacket) r cur :
  (r <= cur <= length l)%nat -> drop r (take cur l) ++ drop cur l = drop r l.
Proof.
  intros H. rewrite <- (take_drop cur l) at 3.
  rewrite drop_app_le by (rewrite length_take; lia). done.
Qed.

Lemma filter_iff_on (P1 P2 : OutstandingPacket -> Prop)
    `{!forall p, Decision (P1 p), !forall p, Decision (P2 p)}
    (l : list OutstandingPacket) :
  Forall (fun p => P1 p <-> P2 p) l -> filter P1 l = filter P2 l.
Proof.
  induction 1 as [|p l Hiff _ IH]; [done|].
  destruct (decide (P1 p)) as [H1|H1].
  - rewrite !filter_cons_True by (done || by apply Hiff). by rewrite IH.
  - rewrite !filter_cons_False by (done || (intros H2; by apply H1, Hiff)). by rewrite IH.
Qed.

Lemma acknowledged_nil pnSpace p : acknowledged pnSpace [] p = false.
Proof. unfold acknowledged. simpl. apply andb_false_r. Qed.

Lemma acknowledged_covers pnSpace blk rest p :
  spaceOf p = pnSpace -> covers blk p = true -> acknowledged pnSpace (blk :: rest) p = true.
Proof.
  intros Hs Hc. unfold acknowledged, coveredBy. simpl.
  by rewrite Hc, bool_decide_eq_true_2.
Qed.

Lemma acknowledged_later pnSpace blk rest p :
  covers blk p = false ->
  acknowledged pnSpace (blk :: rest) p = acknowledged pnSpace rest p.
Proof. intros Hc. unfold acknowledged, coveredBy. simpl. by rewrite Hc. Qed.

Lemma acknowledged_space pnSpace blocks p :
  acknowledged pnSpace blocks p = true -> spaceOf p = pnSpace.
Proof.
  unfold acknowledged. intros H. apply andb_prop in H as [H _].
  by apply bool_decide_eq_true in H.
Qed.

Section AscendingLedger.
Variables (pnSpace : PacketNumberSpace) (frame : ReadAckFrame).
Variables (ackVisitor : AckVisitor) (art : TimePoint).

(** One walk, whatever the order of the ledger: of the packets it
    passed, those of the acknowledged space are matched, last first, and
    those of the other spaces stay; it stops at the front of the ledger
    or on a packet of the acknowledged space below the block's start. *)
Lemma walkAckBlock_run blk rPacketIt eraseEnd st k e st' :
  (rPacketIt <= eraseEnd <= length (ledger st))%nat ->
  walkAckBlock pnSpace frame ackVisitor art blk rPacketIt eraseEnd st = Ok (k, e, st') ->
  (k <= rPacketIt)%nat /\
  ackedOf (trace st') =
    ackedOf (trace st) ++
    rev (filter (fun p => spaceOf p = pnSpace) (drop k (take rPacketIt (ledger st)))) /\
  erase (ledger st') k e =
    take k (ledger st) ++
    filter (fun p => spaceOf p <> pnSpace) (drop k (take rPacketIt (ledger st))) ++
    drop eraseEnd (ledger st) /\
  Forall (fun p => spaceOf p = pnSpace -> (startPacket blk <= pn p)%N)
    (drop k (take rPacketIt (ledger st))) /\
  (forall j q, k = S j -> ledger st !! j = Some q ->
               spaceOf q = pnSpace /\ (pn q < startPacket blk)%N).
Proof.
  revert eraseEnd st.
  induction rPacketIt as [|next IH]; intros eraseEnd st Hb H; simpl in H.
  - injection H as <- <- <-. simpl. rewrite app_nil_r. by repeat split.
  - destruct (ledger st !! next) as [p|] eqn:Ep.
    2:{ apply lookup_ge_None in Ep. lia. }
    assert (forall j, (j <= next)%nat ->
              drop j (take (S next) (ledger st)) = drop j (take next (ledger st)) ++ [p])
      as Hsnoc.
    { intros j Hj. rewrite (take_S_r _ _ _ Ep).
      by rewrite drop_app_le by (rewrite length_take; lia). }
    case_bool_decide as Hspace.
    + (* a packet of another space *)
      assert (spaceOf p <> pnSpace) as Hp by (unfold spaceOf; congruence).
      assert (exists st2,
                walkAckBlock pnSpace frame ackVisitor art blk next next st2 =
                  Ok (k, e, st') /\
                trace st2 = trace st /\
                take next (ledger st2) = take next (ledger st) /\
                drop next (ledger st2) = p :: drop eraseEnd (ledger st) /\
                (next <= length (ledger st2))%nat) as (st2 & H2 & Ht2 & Htake2 & Hdrop2 & Hb2).
      { case_bool_decide as Hmoved.
        - exists (erasePackets (S next) eraseEnd st).
          rewrite ledger_erasePackets, trace_erasePackets. unfold erase.
          rewrite (take_S_r _ _ _ Ep), <- app_assoc.
          repeat split; try done.
          + rewrite take_app_le by (rewrite length_take; lia).
            rewrite take_take. f_equal. lia.
          + rewrite drop_app_length'; [done|]. rewrite length_take. lia.
          + rewrite length_app, length_take. lia.
        - assert (eraseEnd = S next) as -> by lia.
          exists st. repeat split; try done; [|lia]. by apply drop_S. }
      apply IH in H2; [|lia].
      destruct H2 as (Hk & Hacked & Herase & Hall & Hstop).
      assert (take k (ledger st2) = take k (ledger st)) as Htakek.
      { replace (take k (ledger st2)) with (take k (take next (ledger st2)))
          by (rewrite take_take; f_equal; lia).
        rewrite Htake2, take_take. f_equal. lia. }
      rewrite Htake2, Htakek, Hdrop2, Ht2 in *.
      rewrite Hsnoc by lia. rewrite !filter_app.
      rewrite (filter_cons_False (fun q => spaceOf q = pnSpace)) by done.
      rewrite (filter_cons_True (fun q => spaceOf q <> pnSpace)) by done.
      simpl. rewrite app_nil_r, <- !app_assoc. simpl.
      split; [lia|]. split; [done|]. split; [done|]. split.
      * apply Forall_app. split; [done|]. by repeat constructor.
      * intros j q Hj Hq. apply (Hstop j q Hj).
        rewrite <- (lookup_take_lt _ next) by lia. rewrite Htake2.
        by rewrite lookup_take_lt by lia.
    + (* a packet of the acknowledged space *)
      assert (spaceOf p = pnSpace) as Hp by (unfold spaceOf; congruence).
      fold (pn p) in H. destruct (N.ltb_spec (pn p) (startPacket blk)) as [Hlt|Hge].
      { injection H as <- <- <-.
        rewrite drop_ge by (rewrite length_take; lia). simpl.
        rewrite app_nil_r. repeat split; try done; by simplify_eq. }
      destruct (ackOutstandingPacket frame ackVisitor art p st) as [st1|] eqn:E; [|done].
      pose proof (ack_ledger _ _ _ _ _ _ E) as Hl.
      apply IH in H; [|rewrite Hl; lia].
      destruct H as (Hk & Hacked & Herase & Hall & Hstop).
      rewrite Hl, (ack_trace _ _ _ _ _ _ E), ackedOf_app, ackedOf_entry in *.
      rewrite Hsnoc by lia. rewrite !filter_app.
      rewrite (filter_cons_True (fun q => spaceOf q = pnSpace)) by done.
      rewrite (filter_cons_False (fun q => spaceOf q <> pnSpace)) by (intros Hne; by apply Hne).
      simpl. rewrite app_nil_r, rev_app_distr. simpl.
      split; [lia|]. split; [by rewrite Hacked, <- app_assoc|]. split; [done|]. split.
      * apply Forall_app. split; [done|]. repeat constructor. intros _. lia.
      * done.
Qed.

(** In a ledger in ascending order and for blocks in descending order,
    the loop matches the packets ahead of the cursor that the frame
    acknowledges, last first, and leaves the others. *)
Lemma matchAckBlocks_ascending blocks cur st st' :
  (cur <= length (ledger st))%nat ->
  ascending (take cur (ledger st)) ->
  descendingBlocks blocks ->
  matchAckBlocks pnSpace frame ackVisitor art blocks cur st = Ok st' ->
  ackedOf (trace st') =
    ackedOf (trace st) ++
    rev (filter (fun p => acknowledged pnSpace blocks p = true) (take cur (ledger st))) /\
  ledger st' =
    filter (fun p => retained pnSpace blocks p = true) (take cur (ledger st)) ++
    drop cur (ledger st).
Proof.
  revert cur st.
  induction blocks as [|blk rest IH]; intros cur st Hcur Hasc Hdesc H; simpl in H.
  - injection H as <-. split.
    + rewrite filter_true_none, app_nil_r; [done|].
      apply Forall_forall. intros p _. apply acknowledged_nil.
    + rewrite filter_true_all, take_drop; [done|].
      apply Forall_forall. intros p _. unfold retained. by rewrite acknowledged_nil.
  - destruct Hdesc as (Hvalid & Hlater & Hdesc).
    destruct (Nat.eqb_spec cur 0) as [->|Hcur0].
    { injection H as <-. simpl. by rewrite app_nil_r. }
    set (l := ledger st) in *.
    destruct (lower_bound_sorted l cur (endPacket blk) Hasc Hcur) as (Hr & Hhi & Hlo).
    set (r := lower_bound l cur (endPacket blk)) in *.
    assert (Forall (fun p => acknowledged pnSpace (blk :: rest) p = false)
              (drop r (take cur l))) as Hpart3.
    { apply Forall_forall. intros p Hp.
      apply list_elem_of_lookup in Hp as [j Hj].
      rewrite lookup_drop in Hj. apply lookup_take_Some in Hj as [Hj Hlt].
      unfold acknowledged. rewrite coveredBy_later; [apply andb_false_r|done..|].
      apply (Hhi (r + j)%nat); [lia|done]. }
    assert (Forall (fun p => retained pnSpace (blk :: rest) p = true)
              (drop r (take cur l))) as Hkept3.
    { eapply Forall_impl; [exact Hpart3|]. simpl. intros p Hp. unfold retained.
      by rewrite Hp. }
    destruct (Nat.eqb_spec r 0) as [Hr0|Hr0].
    { injection H as <-. rewrite Hr0, drop_0 in Hpart3, Hkept3. fold l.
      rewrite (filter_true_none _ _ Hpart3), (filter_true_all _ _ Hkept3), app_nil_r, take_drop.
      done. }
    destruct (walkAckBlock _ _ _ _ _ _ _ _) as [[[k e] st1]|] eqn:Ew; simpl in H; [|done].
    pose proof (walkAckBlock_ledger pnSpace frame ackVisitor art blk r r st k e st1
                  ltac:(fold l; lia) Ew) as (Hb1 & _ & _).
    apply walkAckBlock_run in Ew; [|fold l; lia].
    fold l in Ew. destruct Ew as (Hk & Hacked & Herase & Hpart2 & Hstop).
    assert (ledger (if bool_decide (k ≠ e) then erasePackets k e st1 else st1) =
            take k l ++
            filter (fun p => spaceOf p <> pnSpace) (drop k (take r l)) ++ drop r l) as Hl2.
    { rewrite <- Herase. case_bool_decide as Hke.
      - by rewrite ledger_erasePackets.
      - assert (k = e) as -> by lia. by rewrite erase_empty_range. }
    assert (trace (if bool_decide (k ≠ e) then erasePackets k e st1 else st1) = trace st1)
      as Ht2 by (by case_bool_decide).
    assert (take k (take k l ++
                    filter (fun p => spaceOf p <> pnSpace) (drop k (take r l)) ++ drop r l) =
            take k l) as Htakek.
    { rewrite take_app_le by (rewrite length_take; lia).
      rewrite take_take. f_equal. lia. }
    apply IH in H; try done.
    2:{ rewrite Hl2, length_app, length_take. lia. }
    2:{ rewrite Hl2, Htakek.
        replace (take k l) with (take k (take cur l))
          by (rewrite take_take; f_equal; lia).
        by apply ascending_take. }
    rewrite Ht2, Hl2, Htakek in H. destruct H as (Hacked' & Hledger').
    rewrite drop_app_length' in Hledger' by (rewrite length_take; lia).
    (* the packets ahead of the cursor, in three parts *)
    assert (take cur l = take k l ++ drop k (take r l) ++ drop r (take cur l)) as Hsplit.
    { rewrite <- (take_drop r (take cur l)) at 1.
      rewrite take_take, Nat.min_l by lia.
      rewrite <- (take_drop k (take r l)) at 1.
      rewrite take_take, Nat.min_l by lia. by rewrite <- app_assoc. }
    (* the packets in front of the walk are below the block *)
    assert (Forall (fun p => covers blk p = false) (take k l)) as Hpart1.
    { apply Forall_forall. intros p Hp.
      destruct k as [|j]; [by apply elem_of_nil in Hp|].
      destruct (l !! j) as [q|] eqn:Eq.
      2:{ apply lookup_ge_None in Eq. lia. }
      destruct (Hstop j q eq_refl Eq) as [_ Hq].
      apply elem_of_take in Hp as (i & Hi & Hlt).
      assert (pn p <= pn q)%N.
      { apply (Hasc i j); [lia|by rewrite lookup_take_lt by lia..]. }
      unfold covers. apply andb_false_intro1. apply N.leb_gt. lia. }
    (* the packets the walk passed are those of the space, all covered *)
    assert (Forall (fun p => acknowledged pnSpace (blk :: rest) p = true <->
                             spaceOf p = pnSpace) (drop k (take r l))) as Hpassed.
    { apply Forall_forall. intros p Hp. split; [apply acknowledged_space|].
      intros Hs. apply acknowledged_covers; [done|].
      rewrite Forall_forall in Hpart2. pose proof (Hpart2 p Hp Hs) as Hstart.
      apply list_elem_of_lookup in Hp as [j Hj].
      rewrite lookup_drop in Hj. apply lookup_take_Some in Hj as [Hj Hlt].
      pose proof (Hlo (k + j)%nat p Hlt Hj) as Hend.
      unfold covers. apply andb_true_intro. split; by apply N.leb_le. }
    split.
    + rewrite Hacked', Hacked, Hsplit, !filter_app, (filter_true_none _ _ Hpart3),
        app_nil_r, rev_app_distr, <- app_assoc.
      f_equal. f_equal.
      * f_equal. symmetry. apply filter_iff_on. exact Hpassed.
      * f_equal. apply filter_true_ext.
        eapply Forall_impl; [exact Hpart1|]. simpl. intros p Hp.
        symmetry. by apply acknowledged_later.
    + rewrite Hledger', Hsplit, !filter_app, (filter_true_all _ _ Hkept3), <- !app_assoc.
      rewrite drop_take_drop by lia.
      f_equal; [|f_equal].
      * apply filter_true_ext.
        eapply Forall_impl; [exact Hpart1|]. simpl. intros p Hp.
        unfold retained. by rewrite acknowledged_later.
      * apply filter_iff_on.
        eapply Forall_impl; [exact Hpassed|]. simpl. intros p [H1 H2].
        unfold retained. destruct (acknowledged pnSpace (blk :: rest) p).
        -- simpl. split; [|done]. intros Hne. exfalso. by apply Hne, H1.
        -- simpl. split; [done|]. intros _ Hs. by apply H2 in Hs.
Qed.

(** A walk that starts without a pending erasure, over packets of which
    those of the acknowledged space are below the block's start, changes
    nothing. *)
Lemma walkAckBlock_idle blk r st :
  (forall i p, (i < r)%nat -> ledger st !! i = Some p ->
               spaceOf p = pnSpace -> (pn p < startPacket blk)%N) ->
  exists k, (k <= r)%nat /\
    walkAckBlock pnSpace frame ackVisitor art blk r r st = Ok (k, k, st).
Proof.
  induction r as [|next IH]; intros Hbelow; simpl.
  - by exists 0%nat.
  - destruct (ledger st !! next) as [p|] eqn:Ep; [|by exists (S next)].
    case_bool_decide as Hspace.
    + rewrite bool_decide_eq_false_2 by (intros Hne; by apply Hne).
      destruct IH as (k & Hk & Hw).
      * intros i q Hi. apply Hbelow. lia.
      * exists k. split; [lia|exact Hw].
    + assert (spaceOf p = pnSpace) as Hp by (unfold spaceOf; congruence).
      specialize (Hbelow next p ltac:(lia) Ep Hp).
      fold (pn p). destruct (N.ltb_spec (pn p) (startPacket blk)); [|lia].
      by exists (S next).
Qed.

Lemma matchAckBlocks_none_acknowledged blocks cur st :
  ascending (ledger st) ->
  Forall (fun p => acknowledged pnSpace blocks p = false) (ledger st) ->
  (cur <= length (ledger st))%nat ->
  matchAckBlocks pnSpace frame ackVisitor art blocks cur st = Ok st.
Proof.
  intros Hasc. revert cur.
  induction blocks as [|blk rest IH]; intros cur Hnone Hcur; simpl; [done|].
  destruct (cur =? 0)%nat; [done|].
  destruct (lower_bound_sorted (ledger st) cur (endPacket blk)
              (ascending_take _ _ Hasc) Hcur) as (Hr & _ & Hlo).
  destruct (lower_bound (ledger st) cur (endPacket blk) =? 0)%nat; [done|].
  destruct (walkAckBlock_idle blk (lower_bound (ledger st) cur (endPacket blk)) st)
    as (k & Hk & ->).
  { intros i p Hi Hp Hs.
    rewrite Forall_forall in Hnone.
    assert (p ∈ ledger st) as Hin by (by eapply list_elem_of_lookup_2).
    specialize (Hnone p Hin). unfold acknowledged, coveredBy in Hnone. simpl in Hnone.
    rewrite bool_decide_eq_true_2 in Hnone by done. simpl in Hnone.
    apply orb_false_elim in Hnone as [Hc _]. unfold covers in Hc.
    specialize (Hlo i p Hi Hp).
    apply andb_false_iff in Hc as [Hc|Hc]; [by apply N.leb_gt in Hc|].
    apply N.leb_gt in Hc. lia. }
  simpl. rewrite bool_decide_eq_false_2 by (intros Hne; by apply Hne).
  apply IH; [|lia].
  eapply Forall_impl; [exact Hnone|]. simpl. intros p Hp.
  unfold acknowledged, coveredBy in *. simpl in Hp.
  destruct (bool_decide (spaceOf p = pnSpace)); [|done]. simpl in *.
  by apply orb_false_elim in Hp as [_ ?].
Qed.

End AscendingLedger.

(** * A frame that references no outstanding packet *)




(** X10. The reconciliation is correct on the ledgers the code expects.
    When the ledger is in ascending order of packet number, whatever
    spaces its packets belong to, and the ack blocks are in descending
    order, a returning call matches exactly the packets ahead of the
    starting cursor that are of the acknowledged space and covered by one
    of the blocks, from the highest number down, and the ledger handed to
    the loss detector is the ledger on entry without them, in the same
    order. *)
Theorem ascending_ledger_matches_covered c pnSpace frame ackVisitor lossVisitor art :
  ascending (packets (outstandings c)) ->
  descendingBlocks (ackBlocks frame) ->
  match processAckFrame c pnSpace frame ackVisitor lossVisitor art with
  | Ok (_, t) =>
    exists c1 a,
      lossHandoffsOf t = [(c1, a, pnSpace)] /\
      ackedOf t =
        rev (filter (fun p => acknowledged pnSpace (ackBlocks frame) p = true)
               (take (lastOutstandingPacket c pnSpace) (packets (outstandings c)))) /\
      packets (outstandings c1) =
        filter (fun p => retained pnSpace (ackBlocks frame) p = true)
          (take (lastOutstandingPacket c pnSpace) (packets (outstandings c))) ++
        drop (lastOutstandingPacket c pnSpace) (packets (outstandings c))
  | Fatal _ _ => True
  end.
Proof.
  intros Hasc Hdesc.
  pose proof (processAckFrame_run c pnSpace frame ackVisitor lossVisitor art) as Hrun.
  destruct (processAckFrame c pnSpace frame ackVisitor lossVisitor art) as [[c' t]|chk t];
    [|done].
  destruct Hrun as (st & st1 & El & Es & En).
  destruct (processAckFrame_trace _ _ _ _ _ _ _ _ _ _ El Es En) as (Ha & _ & _ & Hh).
  pose proof (settleCounters_Ok _ _ Es) as (_ & _ & _ & Hpk & _).
  exists (conn st1), (ack st). split; [done|]. rewrite Ha, Hpk.
  unfold mergeLoop in El. apply matchAckBlocks_ascending in El; try done.
  - unfold lastOutstandingPacket, ledger. simpl. lia.
  - by apply ascending_take.
Qed.

(** X11. In a ledger in ascending order whose counters fit its size, a
    frame that acknowledges no outstanding packet, none of the packets of
    the acknowledged space being covered by a block, is never aborted and
    does nothing but notify: the call is the hand-off of the connection
    as it was on entry, with the empty ack event, to the loss detector
    and what follows it. *)
Theorem nothing_acknowledged_only_notifies c pnSpace frame ackVisitor lossVisitor art :
  ascending (packets (outstandings c)) ->
  Forall (fun p => acknowledged pnSpace (ackBlocks frame) p = false)
    (packets (outstandings c)) ->
  ledgerInvariant (outstandings c) ->
  (N.of_nat (length (packets (outstandings c))) < 2 ^ 64)%N ->
  processAckFrame c pnSpace frame ackVisitor lossVisitor art =
  notifyAckOrLoss pnSpace lossVisitor (initialLoopState c art).
Proof.
  intros Hasc Hnone (Hinv1 & Hinv2) Hlen.
  rewrite processAckFrame_stages. unfold mergeLoop.
  rewrite (matchAckBlocks_none_acknowledged pnSpace frame ackVisitor art (ackBlocks frame)
             (lastOutstandingPacket c pnSpace) (initialLoopState c art));
    [|done|done|unfold lastOutstandingPacket, ledger; simpl; lia].
  destruct (settleCounters (initialLoopState c art)) as [st1|chk t] eqn:Es.
  - by apply settleCounters_initial in Es as ->.
  - apply settleCounters_Fatal in Es as (_ & _ & Hno). exfalso. apply Hno.
    unfold checksPass. simpl. rewrite !N.sub_0_r, wrap64_small by lia.
    repeat split; lia.
Qed.

(** ** Exact counters *)

Lemma Forall_of_sublist (P : OutstandingPacket -> Prop) (l1 l2 : list OutstandingPacket) :
  l1 `sublist_of` l2 -> Forall P l2 -> Forall P l1.
Proof.
  intros Hsub Hall. apply Forall_forall. intros p Hp.
  rewrite Forall_forall in Hall. apply Hall. by eapply elem_of_sublist.
Qed.

Lemma filter_length_split (P : OutstandingPacket -> Prop) `{!forall p, Decision (P p)}
    (l l1 m : list OutstandingPacket) :
  l ≡ₚ l1 ++ m ->
  length (filter P l) = (length (filter P l1) + length (filter P m))%nat.
Proof.
  intros Hperm. rewrite <- length_app, <- filter_app.
  apply Permutation_length. by apply filter_Permutation.
Qed.

Lemma handshakeIn_disjoint (l : list OutstandingPacket) :
  (length (handshakeIn Handshake l) + length (handshakeIn Initial l) <= length l)%nat.
Proof.
  unfold handshakeIn. induction l as [|p l IH]; simpl; [done|].
  rewrite !filter_cons.
  destruct (decide (isHandshake p = true /\ spaceOf p = Handshake)) as [[_ Hh]|_],
    (decide (isHandshake p = true /\ spaceOf p = Initial)) as [[_ Hi]|_]; simpl; try lia.
  congruence.
Qed.

Section ExactCounts.
Variables (c0 : QuicConnectionStateBase) (pnSpace : PacketNumberSpace).
Variables (frame : ReadAckFrame) (ackVisitor : AckVisitor) (art : TimePoint).
Variables (blocks : list AckBlock) (cur : nat).

Let loop : Outcome AckLoopState :=
  matchAckBlocks pnSpace frame ackVisitor art blocks cur (initialLoopState c0 art).

(** When no handshake packet of the ledger is in the AppData space or
    carries an associated event, the loop is not aborted and counts the
    handshake packets it matched. *)
Lemma loop_exact_counts :
  Forall (fun p => isHandshake p = true ->
                   associatedEvent p = None /\ spaceOf p <> AppData)
    (packets (outstandings c0)) ->
  (cur <= length (packets (outstandings c0)))%nat ->
  match loop with
  | Ok st =>
    Forall (fun p => isHandshake p = true ->
                     associatedEvent p = None /\ spaceOf p <> AppData) (ledger st) /\
    initialPacketAcked st =
      wrap64 (N.of_nat (length (handshakeIn Initial (ackedOf (trace st))))) /\
    handshakePacketAcked st =
      wrap64 (N.of_nat (length (handshakeIn Handshake (ackedOf (trace st)))))
  | Fatal _ _ => False
  end.
Proof.
  intros Hgood Hcur. unfold loop.
  apply (matchAckBlocks_invariant_in pnSpace frame ackVisitor art
           (fun st =>
              Forall (fun p => isHandshake p = true ->
                               associatedEvent p = None /\ spaceOf p <> AppData)
                (ledger st) /\
              initialPacketAcked st =
                wrap64 (N.of_nat (length (handshakeIn Initial (ackedOf (trace st))))) /\
              handshakePacketAcked st =
                wrap64 (N.of_nat (length (handshakeIn Handshake (ackedOf (trace st))))))
           (fun _ _ => False)); [| |exact Hcur|done].
  - intros l s Hsub (Hg & Hi & Hh). split; [|done].
    by apply (Forall_of_sublist _ l (ledger s)).
  - intros p s (Hg & Hi & Hh) Hin _.
    rewrite Forall_forall in Hg. pose proof (Hg p Hin) as Hp.
    destruct (ackOutstandingPacket frame ackVisitor art p s) as [s'|chk t] eqn:E.
    + destruct (ack_handshakeCounts _ _ _ _ _ _ E) as (-> & -> & _).
      rewrite (ack_ledger _ _ _ _ _ _ E), (ack_trace _ _ _ _ _ _ E),
        ackedOf_app, ackedOf_entry, !handshakeIn_snoc, Hi, Hh.
      split; [by apply Forall_forall|].
      unfold needsProcess. destruct (isHandshake p) eqn:Ehs; simpl; [|done].
      destruct Hp as [-> _]; [done|].
      split; case_bool_decide; try done; rewrite wrap64_add_l; f_equal; lia.
    + apply ack_Fatal in E as (_ & _ & Hs & Hhs). by destruct (Hp Hhs).
Qed.

End ExactCounts.


(** X12. Exact counters are kept exact.  When, on entry, no handshake
    packet of the ledger is in the AppData space or carries an associated
    event, and the three counters are the numbers of Initial handshake
    packets, of Handshake handshake packets and of packets carrying an
    associated event in a ledger of fewer than 2^64 packets, no check
    before the loss detector aborts the call, and the connection handed to
    the loss detector has exact counters again.  The only abort left is
    the check on a loss event's sent times. *)
Theorem exact_counters_preserved c pnSpace frame ackVisitor lossVisitor art :
  wellCounted (outstandings c) ->
  (N.of_nat (length (packets (outstandings c))) < 2 ^ 64)%N ->
  match processAckFrame c pnSpace frame ackVisitor lossVisitor art with
  | Ok (_, t) =>
    exists c1 a,
      lossHandoffsOf t = [(c1, a, pnSpace)] /\ wellCounted (outstandings c1)
  | Fatal chk _ => chk = CheckLostSentTimes
  end.
Proof.
  intros (Hgood & Hi & Hh & Hc) Hlen.
  pose proof (processAckFrame_run c pnSpace frame ackVisitor lossVisitor art) as Hrun.
  pose proof (loop_exact_counts c pnSpace frame ackVisitor art (ackBlocks frame)
                (lastOutstandingPacket c pnSpace) Hgood
                ltac:(unfold lastOutstandingPacket; lia)) as Hloop.
  fold (mergeLoop c pnSpace frame ackVisitor art) in Hloop.
  assert (forall st,
            mergeLoop c pnSpace frame ackVisitor art = Ok st ->
            checksPass st /\
            forall st1, settleCounters st = Ok st1 -> wellCounted (outstandings (conn st1)))
    as Hsettle.
  { intros st El. rewrite El in Hloop. destruct Hloop as (Hg1 & Hia & Hha).
    destruct (mergeLoop_ledger _ _ _ _ _ _ El) as (Hperm & Hsub).
    pose proof (loop_counts c pnSpace frame ackVisitor art _ _ st El) as (Hi0 & Hh0 & Hc0 & _).
    pose proof (loop_clonedPacketsAcked c pnSpace frame ackVisitor art _ _ st El) as Hca.
    pose proof (filter_length_split
                  (fun p => isHandshake p = true /\ spaceOf p = Initial) _ _ _ Hperm) as Hni.
    pose proof (filter_length_split
                  (fun p => isHandshake p = true /\ spaceOf p = Handshake) _ _ _ Hperm) as Hnh.
    pose proof (filter_length_split
                  (fun p => is_Some (associatedEvent p)) _ _ _ Hperm) as Hnc.
    fold (handshakeIn Initial (packets (outstandings c))) in Hni.
    fold (handshakeIn Initial (ledger st)) in Hni.
    fold (handshakeIn Initial (ackedOf (trace st))) in Hni.
    fold (handshakeIn Handshake (packets (outstandings c))) in Hnh.
    fold (handshakeIn Handshake (ledger st)) in Hnh.
    fold (handshakeIn Handshake (ackedOf (trace st))) in Hnh.
    fold (clonesOf (packets (outstandings c))) in Hnc.
    fold (clonesOf (ledger st)) in Hnc.
    fold (clonesOf (ackedOf (trace st))) in Hnc.
    pose proof (length_filter (fun p => isHandshake p = true /\ spaceOf p = Initial)
                  (packets (outstandings c))) as Hbi.
    pose proof (length_filter (fun p => isHandshake p = true /\ spaceOf p = Handshake)
                  (packets (outstandings c))) as Hbh.
    pose proof (length_filter (fun p => is_Some (associatedEvent p))
                  (packets (outstandings c))) as Hbc.
    fold (handshakeIn Initial (packets (outstandings c))) in Hbi.
    fold (handshakeIn Handshake (packets (outstandings c))) in Hbh.
    fold (clonesOf (packets (outstandings c))) in Hbc.
    pose proof (handshakeIn_disjoint (ledger st)) as Hdis.
    pose proof (length_filter (fun p => is_Some (associatedEvent p)) (ledger st)) as Hbc1.
    fold (clonesOf (ledger st)) in Hbc1.
    pose proof (sublist_length _ _ Hsub) as Hsl.
    rewrite wrap64_small in Hia, Hha, Hca by lia.
    assert (checksPass st) as Hpass.
    { unfold checksPass. simpl. fold (ledger st).
      rewrite Hi0, Hh0, Hc0, Hi, Hh, Hc, Hia, Hha, Hca.
      rewrite wrap64_small by lia. repeat split; lia. }
    split; [exact Hpass|].
    intros st1 Es.
    pose proof (settleCounters_Ok _ _ Es) as (_ & _ & _ & Hpk & _ & Hi1 & Hh1 & Hc1 & _).
    unfold wellCounted. rewrite Hpk, Hi1, Hh1, Hc1. fold (ledger st).
    rewrite Hi0, Hh0, Hc0, Hi, Hh, Hc, Hia, Hha, Hca.
    repeat split; [exact Hg1|lia..]. }
  destruct (processAckFrame c pnSpace frame ackVisitor lossVisitor art) as [[c' t]|chk t].
  - destruct Hrun as (st & st1 & El & Es & En).
    destruct (processAckFrame_trace _ _ _ _ _ _ _ _ _ _ El Es En) as (_ & _ & _ & Hh').
    exists (conn st1), (ack st). split; [done|].
    by apply (Hsettle st El).
  - destruct Hrun as [(_ & El)|[(_ & st & El & Es)|(-> & _)]].
    + by rewrite El in Hloop.
    + apply settleCounters_Fatal in Es as (_ & _ & Hno).
      exfalso. by apply Hno, (Hsettle st El).
    + done.
Qed.

(** ** Reconciling the same frame again *)

(** X13. Reconciling a frame a second time matches nothing.  In a ledger
    in ascending order, with every packet behind the starting cursor of
    another space, and for ack blocks in descending order: when
    everything [processAckFrame] does before the loss detector has been
    done for a frame, doing it again on the resulting connection,
    whatever the receive time and the visitor, passes every check and
    changes nothing. *)
Theorem reconcile_again_changes_nothing
    c pnSpace frame ackVisitor art ackVisitor' (art' : TimePoint) :
  ascending (packets (outstandings c)) ->
  descendingBlocks (ackBlocks frame) ->
  Forall (fun p => spaceOf p <> pnSpace)
    (drop (lastOutstandingPacket c pnSpace) (packets (outstandings c))) ->
  match reconcileAckFrame c pnSpace frame ackVisitor art with
  | Ok st1 =>
    reconcileAckFrame (conn st1) pnSpace frame ackVisitor' art' =
    Ok (initialLoopState (conn st1) art')
  | Fatal _ _ => True
  end.
Proof.
  intros Hasc Hdesc Hbehind.
  unfold reconcileAckFrame at 1. fold (initialLoopState c art).
  fold (mergeLoop c pnSpace frame ackVisitor art).
  destruct (mergeLoop c pnSpace frame ackVisitor art) as [st|] eqn:El; [|done]. simpl.
  destruct (settleCounters st) as [st1|] eqn:Es; [|done].
  pose proof (settleCounters_Ok _ _ Es)
    as (Hpass & _ & _ & Hpk & _ & Hi1 & Hh1 & Hc1 & _).
  destruct (mergeLoop_ledger _ _ _ _ _ _ El) as (_ & Hsub).
  unfold mergeLoop in El. apply matchAckBlocks_ascending in El; try done.
  2:{ unfold lastOutstandingPacket, ledger. simpl. lia. }
  2:{ by apply ascending_take. }
  destruct El as (_ & Hl). unfold ledger in Hl, Hsub. simpl in Hl.
  unfold reconcileAckFrame. fold (initialLoopState (conn st1) art').
  rewrite (matchAckBlocks_none_acknowledged pnSpace frame ackVisitor' art' (ackBlocks frame)
             (lastOutstandingPacket (conn st1) pnSpace) (initialLoopState (conn st1) art')).
  - simpl.
    destruct (settleCounters (initialLoopState (conn st1) art')) as [st2|chk t] eqn:Es2.
    + by apply settleCounters_initial in Es2 as ->.
    + apply settleCounters_Fatal in Es2 as (_ & _ & Hno). exfalso. apply Hno.
      destruct Hpass as (_ & _ & _ & Hsum & Hcl).
      unfold checksPass. simpl. rewrite !N.sub_0_r, Hi1, Hh1, Hc1, Hpk.
      repeat split; try lia; done.
  - unfold ledger. simpl. rewrite Hpk.
    by apply (ascending_sublist _ (packets (outstandings c))).
  - unfold ledger. simpl. rewrite Hpk, Hl. apply Forall_app. split.
    + apply Forall_forall. intros p Hp.
      apply list_elem_of_filter in Hp as [Hp _]. unfold retained in Hp.
      by apply negb_true_iff in Hp.
    + eapply Forall_impl; [exact Hbehind|]. simpl. intros p Hp.
      unfold acknowledged. by rewrite bool_decide_eq_false_2.
  - unfold lastOutstandingPacket, ledger. simpl. lia.
Qed.

(** * The ack visitor for ack frames, continued *)

Lemma commonAckVisitorForAckFrame_tracked ackState (frame : WriteAckFrame) n :
  tracked (acks (commonAckVisitorForAckFrame ackState frame)) n =
  tracked (acks ackState) n &&
  forallb (fun w => negb (inInterval n w))
    (rev (wa_ackBlocks frame) ++ purgedRange (wa_ackBlocks frame)).
Proof. by rewrite commonAckVisitorForAckFrame_acks, tracked_withdraw_all. Qed.

(** X15. [commonAckVisitorForAckFrame] only withdraws.  With withdrawal
    as the removal of an inclusive range, a packet number tracked after
    the call was tracked before it; confirming the same frame a second
    time changes the tracking of no packet number; and the packet numbers
    tracked after two frames have been confirmed do not depend on the
    order of the two. *)
Theorem ack_visitor_only_withdraws ackState (f g : WriteAckFrame) n :
  (tracked (acks (commonAckVisitorForAckFrame ackState f)) n = true ->
   tracked (acks ackState) n = true) /\
  tracked (acks (commonAckVisitorForAckFrame (commonAckVisitorForAckFrame ackState f) f)) n =
    tracked (acks (commonAckVisitorForAckFrame ackState f)) n /\
  tracked (acks (commonAckVisitorForAckFrame (commonAckVisitorForAckFrame ackState f) g)) n =
    tracked (acks (commonAckVisitorForAckFrame (commonAckVisitorForAckFrame ackState g) f)) n.
Proof.
  rewrite !commonAckVisitorForAckFrame_tracked.
  destruct (tracked (acks ackState) n),
    (forallb _ (rev (wa_ackBlocks f) ++ _)), (forallb _ (rev (wa_ackBlocks g) ++ _)); done.
Qed.


(** ** The search for a block's end *)

(** X16. The search that opens the handling of an ack block.  When the
    packets ahead of the cursor are in ascending order of packet number,
    the bisection returns the first position, from the cursor towards the
    front of the ledger, whose packet has a number not above the value
    searched for: every packet it passed has a greater number, and it
    stops on a packet whose number is not above the value, or at the
    front of the ledger. *)
Theorem search_finds_first_not_above (l : list OutstandingPacket) cur val :
  ascending (take cur l) -> (cur <= length l)%nat ->
  (lower_bound l cur val <= cur)%nat /\
  (forall i p, (lower_bound l cur val <= i < cur)%nat -> l !! i = Some p ->
               (val < pn p)%N) /\
  match deref l (lower_bound l cur val) with
  | Some p => (pn p <= val)%N
  | None => lower_bound l cur val = 0%nat
  end.
Proof.
  intros Hasc Hcur.
  destruct (lower_bound_sorted l cur val Hasc Hcur) as (Hr & Hhi & Hlo).
  split; [exact Hr|]. split; [exact Hhi|].
  destruct (lower_bound l cur val) as [|i] eqn:Er; simpl; [done|].
  destruct (l !! i) as [p|] eqn:Ep.
  - apply (Hlo i p); [lia|done].
  - apply lookup_ge_None in Ep. lia.
Qed.

(** ** The order of the trace *)

Section TraceOrder.
Variables (c0 : QuicConnectionStateBase) (pnSpace : PacketNumberSpace).
Variables (frame : ReadAckFrame) (ackVisitor : AckVisitor) (art : TimePoint).
Variables (blocks : list AckBlock) (cur : nat).

Let loop : Outcome AckLoopState :=
  matchAckBlocks pnSpace frame ackVisitor art blocks cur (initialLoopState c0 art).

Lemma loop_trace st :
  loop = Ok st ->
  trace st = loopEvents frame art 0 (packetEvents (outstandings c0)) (ackedOf (trace st)).
Proof.
  unfold loop. intros H.
  assert (forall rest,
            loopEvents frame art 0 (packetEvents (outstandings c0))
              (ackedOf (trace st) ++ rest) =
            trace st ++
            loopEvents frame art (clockReads st) (packetEvents (outstandings (conn st)))
              rest) as Hall.
  { loop_invariant
      (fun st =>
         forall rest,
           loopEvents frame art 0 (packetEvents (outstandings c0))
             (ackedOf (trace st) ++ rest) =
           trace st ++
           loopEvents frame art (clockReads st) (packetEvents (outstandings (conn st)))
             rest)
      (fun (_ : CheckFailure) (_ : list Event) => True) H.
    - intros l s Hs. exact Hs.
    - intros p s Hs _.
      destruct (ackOutstandingPacket frame ackVisitor art p s) as [s'|] eqn:E; [|done].
      intros rest.
      rewrite (ack_trace _ _ _ _ _ _ E), (ack_clockReads _ _ _ _ _ _ E),
        (ack_packetEvents _ _ _ _ _ _ E), ackedOf_app, ackedOf_entry, <- !app_assoc.
      rewrite (Hs ([p] ++ rest)). reflexivity.
    - intros rest. reflexivity. }
  specialize (Hall []). rewrite app_nil_r in Hall. simpl in Hall.
  by rewrite app_nil_r in Hall.
Qed.

End TraceOrder.

(** X17. The trace of a returning call, in order.  For each matched
    packet, in the order matched: the packet; then one feed of the RTT
    estimator if the packet is numbered [largestAcked]; then, if the
    packet is processed, one call of the ack visitor for each frame it
    carries.  After the last matched packet comes the hand-off to the
    loss detector, and after it only calls of the persistent-congestion
    predicate and of the congestion controller. *)
Theorem trace_follows_matched_packets c pnSpace frame ackVisitor lossVisitor art :
  match processAckFrame c pnSpace frame ackVisitor lossVisitor art with
  | Ok (_, t) =>
    exists c1 a tail,
      t = loopEvents frame art 0 (packetEvents (outstandings c)) (ackedOf t) ++
          EvHandleAckForLoss c1 a pnSpace :: tail /\
      Forall (fun e => isNotification e = true) tail
  | Fatal _ _ => True
  end.
Proof.
  pose proof (processAckFrame_run c pnSpace frame ackVisitor lossVisitor art) as Hrun.
  destruct (processAckFrame c pnSpace frame ackVisitor lossVisitor art) as [[c' t]|chk t];
    [|done].
  destruct Hrun as (st & st1 & El & Es & En).
  destruct (processAckFrame_trace _ _ _ _ _ _ _ _ _ _ El Es En) as (Ha & _).
  destruct (notifyAckOrLoss_trace pnSpace lossVisitor st1) as (tail & Ht & Htail).
  rewrite En in Ht. simpl in Ht.
  pose proof (settleCounters_Ok _ _ Es) as (_ & Htr & _).
  pose proof (loop_trace c pnSpace frame ackVisitor art _ _ st El) as Hloop.
  exists (conn st1), (ack st1), tail. split; [|exact Htail].
  rewrite Ha, <- Hloop, <- Htr. exact Ht.
Qed.

(** ** The order of matching *)

Section MatchOrder.
Variables (pnSpace : PacketNumberSpace) (frame : ReadAckFrame).
Variables (ackVisitor : AckVisitor) (art : TimePoint).

Lemma walkAckBlock_order blk rPacketIt eraseEnd st k e st' :
  (rPacketIt <= eraseEnd <= length (ledger st))%nat ->
  walkAckBlock pnSpace frame ackVisitor art blk rPacketIt eraseEnd st = Ok (k, e, st') ->
  (k <= rPacketIt)%nat /\
  take k (ledger st') = take k (ledger st) /\
  exists matched,
    ackedOf (trace st') = ackedOf (trace st) ++ matched /\
    matched `sublist_of` rev (drop k (take rPacketIt (ledger st))) /\
    Forall (fun p => (startPacket blk <= pn p)%N) matched.
Proof.
  revert eraseEnd st.
  induction rPacketIt as [|next IH]; intros eraseEnd st Hb H; simpl in H.
  - injection H as <- <- <-. split; [done|]. split; [done|].
    exists []. rewrite app_nil_r. by repeat split.
  - destruct (ledger st !! next) as [p|] eqn:Ep.
    2:{ injection H as <- <- <-. split; [done|]. split; [done|].
        exists []. rewrite app_nil_r. repeat split; [|done]. apply sublist_nil_l. }
    assert (forall j, (j <= next)%nat ->
              rev (drop j (take (S next) (ledger st))) =
              p :: rev (drop j (take next (ledger st)))) as Hrev.
    { intros j Hj. rewrite (take_S_r _ _ _ Ep).
      rewrite drop_app_le by (rewrite length_take; lia).
      by rewrite rev_app_distr. }
    case_bool_decide as Hspace.
    + case_bool_decide as Hmoved.
      * apply IH in H.
        2:{ rewrite ledger_erasePackets, erase_length by done. lia. }
        destruct H as (Hk & Htake & matched & Hacked & Hsub & Hall).
        rewrite ledger_erasePackets, trace_erasePackets in *. unfold erase in *.
        rewrite take_app_le in Htake by (rewrite length_take; lia).
        rewrite take_app_le in Hsub by (rewrite length_take; lia).
        rewrite take_take in Htake, Hsub.
        replace (k `min` S next)%nat with k in Htake by lia.
        replace (next `min` S next)%nat with next in Hsub by lia.
        split; [lia|]. split; [done|].
        exists matched. split; [done|]. split; [|done].
        rewrite Hrev by lia. by apply sublist_cons.
      * apply IH in H; [|lia].
        destruct H as (Hk & Htake & matched & Hacked & Hsub & Hall).
        split; [lia|]. split; [done|].
        exists matched. split; [done|]. split; [|done].
        rewrite Hrev by lia. by apply sublist_cons.
    + fold (pn p) in H. destruct (N.ltb_spec (pn p) (startPacket blk)) as [Hlt|Hge].
      { injection H as <- <- <-. split; [done|]. split; [done|].
        exists []. rewrite app_nil_r. repeat split; [|done]. apply sublist_nil_l. }
      destruct (ackOutstandingPacket frame ackVisitor art p st) as [st1|] eqn:E; [|done].
      pose proof (ack_ledger _ _ _ _ _ _ E) as Hl.
      apply IH in H; [|rewrite Hl; lia].
      destruct H as (Hk & Htake & matched & Hacked & Hsub & Hall).
      rewrite Hl, (ack_trace _ _ _ _ _ _ E), ackedOf_app, ackedOf_entry in *.
      split; [lia|]. split; [done|].
      exists (p :: matched). split; [by rewrite Hacked, <- app_assoc|]. split.
      * rewrite Hrev by lia. by apply sublist_skip.
      * by constructor.
Qed.

Lemma matchAckBlocks_order blocks cur st st' :
  (cur <= length (ledger st))%nat ->
  matchAckBlocks pnSpace frame ackVisitor art blocks cur st = Ok st' ->
  exists matched,
    ackedOf (trace st') = ackedOf (trace st) ++ matched /\
    matched `sublist_of` rev (take cur (ledger st)) /\
    Forall (fun p => exists blk, blk ∈ blocks /\ (startPacket blk <= pn p)%N) matched.
Proof.
  revert cur st.
  induction blocks as [|blk rest IH]; intros cur st Hcur H; simpl in H.
  - injection H as <-. exists []. rewrite app_nil_r. repeat split; [|done].
    apply sublist_nil_l.
  - destruct (cur =? 0)%nat.
    { injection H as <-. exists []. rewrite app_nil_r. repeat split; [|done].
      apply sublist_nil_l. }
    pose proof (lower_bound_le (ledger st) cur (endPacket blk)) as Hlb.
    set (r := lower_bound (ledger st) cur (endPacket blk)) in *.
    destruct (r =? 0)%nat.
    { injection H as <-. exists []. rewrite app_nil_r. repeat split; [|done].
      apply sublist_nil_l. }
    destruct (walkAckBlock _ _ _ _ _ _ _ _) as [[[k e] st1]|] eqn:Ew; simpl in H; [|done].
    pose proof (walkAckBlock_ledger pnSpace frame ackVisitor art blk r r st k e st1
                  ltac:(lia) Ew) as (Hb1 & _ & _).
    apply walkAckBlock_order in Ew; [|lia].
    destruct Ew as (Hk & Htake & matched1 & Hacked1 & Hsub1 & Hall1).
    assert (take k (ledger (if bool_decide (k ≠ e) then erasePackets k e st1 else st1)) =
            take k (ledger st)) as Htake2.
    { case_bool_decide; [|done].
      rewrite ledger_erasePackets. unfold erase.
      rewrite take_app_le by (rewrite length_take; lia).
      rewrite take_take, Nat.min_id. done. }
    assert (trace (if bool_decide (k ≠ e) then erasePackets k e st1 else st1) = trace st1)
      as Htrace2 by (by case_bool_decide).
    apply IH in H.
    2:{ case_bool_decide; [|lia]. rewrite ledger_erasePackets, erase_length by done. lia. }
    destruct H as (matched2 & Hacked2 & Hsub2 & Hall2).
    rewrite Htake2, Htrace2 in *.
    exists (matched1 ++ matched2). split; [by rewrite Hacked2, Hacked1, <- app_assoc|].
    split.
    + assert (take cur (ledger st) =
              take k (ledger st) ++ drop k (take r (ledger st)) ++
              drop r (take cur (ledger st))) as ->.
      { rewrite <- (take_drop r (take cur (ledger st))) at 1.
        rewrite take_take, Nat.min_l by lia.
        rewrite <- (take_drop k (take r (ledger st))) at 1.
        rewrite take_take, Nat.min_l by lia. by rewrite <- app_assoc. }
      rewrite !rev_app_distr, <- app_assoc. apply sublist_inserts_l. by apply sublist_app.
    + apply Forall_app. split.
      * eapply Forall_impl; [exact Hall1|]. simpl. intros p Hp.
        exists blk. split; [by left|done].
      * eapply Forall_impl; [exact Hall2|]. simpl. intros p (b & Hb & Hp).
        exists b. split; [by right|done].
Qed.

End MatchOrder.

(** X18. Whatever spaces the ledger holds and whatever the order of the
    ack blocks, a returning call matches packets from the starting cursor
    towards the front of the ledger: the packets matched, in the order
    matched, are picked from the packets ahead of the cursor taken last
    to first, so that none is matched twice and none behind the cursor is
    matched.  Every matched packet has a number at or above the start of
    one of the frame's ack blocks. *)
Theorem matched_from_tail_to_front c pnSpace frame ackVisitor lossVisitor art :
  match processAckFrame c pnSpace frame ackVisitor lossVisitor art with
  | Ok (_, t) =>
    ackedOf t `sublist_of`
      rev (take (lastOutstandingPacket c pnSpace) (packets (outstandings c))) /\
    Forall (fun p => exists blk, blk ∈ ackBlocks frame /\ (startPacket blk <= pn p)%N)
      (ackedOf t)
  | Fatal _ _ => True
  end.
Proof.
  pose proof (processAckFrame_run c pnSpace frame ackVisitor lossVisitor art) as Hrun.
  destruct (processAckFrame c pnSpace frame ackVisitor lossVisitor art) as [[c' t]|chk t];
    [|done].
  destruct Hrun as (st & st1 & El & Es & En).
  destruct (processAckFrame_trace _ _ _ _ _ _ _ _ _ _ El Es En) as (-> & _).
  unfold mergeLoop in El. apply matchAckBlocks_order in El.
  - destruct El as (matched & Hacked & Hsub & Hall). simpl in Hacked. subst matched.
    done.
  - unfold lastOutstandingPacket, ledger. simpl. lia.
Qed.

End Properties.

(** * Runs of the reconciler on concrete ledgers *)

(** Properties of every packet of a concrete ledger, by evaluation. *)
Ltac concrete_forall :=
  repeat (apply List.Forall_cons; [by vm_compute|]); apply List.Forall_nil.

Ltac concrete_ascending :=
  repeat first [apply ascending_nil | apply ascending_cons; [concrete_forall|]].

(** The ordering example: blocks [[90,100]] and [[50,70]] over the
    packets 40, 55, 60, 95 and 99 of one space match 99 and 95, then 60
    and 55, and leave 40 outstanding. *)
Example ordering_run :
  exists c' t,
    Scenario.run None Scenario.ordering AppData
      (mkReadAckFrame 100 0 [mkAckBlock 90 100; mkAckBlock 50 70]) = Ok (c', t) /\
    map pn (ackedOf t) = [99; 95; 60; 55]%N /\
    map pn (packets (outstandings c')) = [40%N].
Proof. eexists _, _. split; [vm_compute; reflexivity|]. split; reflexivity. Qed.

(** An Initial packet between AppData packets the block covers: the walk
    acknowledges 4 and 3, erases them when it meets the Initial packet 2,
    skips that packet and acknowledges 1.  The Initial packet stays and
    the Initial counter is untouched. *)
Example skip_other_space_run :
  exists c' t,
    Scenario.run None
      (Scenario.connection
         [Scenario.sent AppData 1 None false; Scenario.sent Initial 2 None true;
          Scenario.sent AppData 3 None false; Scenario.sent AppData 4 None false]
         ∅ 1 0 0 (Some 0%nat))
      AppData (mkReadAckFrame 4 0 [mkAckBlock 1 4]) = Ok (c', t) /\
    map pn (ackedOf t) = [4; 3; 1]%N /\
    packets (outstandings c') = [Scenario.sent Initial 2 None true] /\
    initialPacketsCount (outstandings c') = 1%N.
Proof. eexists _, _. split; [vm_compute; reflexivity|]. repeat split; reflexivity. Qed.

(** Two clones of one pending event, both acknowledged by one frame: the
    visitor is called for packet 2 only, once per frame it carries; both
    packets leave the ledger, both are counted in the acknowledged bytes
    and the cloned counter drops by two. *)
Example clone_pair_run :
  let p1 := Scenario.sent AppData 1 (Some 7%N) false in
  let p2 := Scenario.sent AppData 2 (Some 7%N) false in
  exists c' t a,
    Scenario.run None Scenario.clonePair AppData
      (mkReadAckFrame 2 0 [mkAckBlock 1 2]) = Ok (c', t) /\
    ackedOf t = [p2; p1] /\
    visitorCallsOf t = [(p2, 2%N); (p2, 1002%N)] /\
    packets (outstandings c') = [] /\
    clonedPacketsCount (outstandings c') = 0%N /\
    controllerCallsOf t = [(a, None)] /\
    ackedBytes a = 200%N.
Proof.
  simpl. eexists _, _, _. split; [vm_compute; reflexivity|]. repeat split; reflexivity.
Qed.



(** C2, as stated, fails: packets 1 and 2 are clones of one pending
    event and the frame acknowledges packet 2 alone.  The visitor is
    called for packet 2, once for each of its two frames, and packet 1 is
    still in the ledger afterwards. *)
Lemma C2_counterexample :
  let p1 := Scenario.sent AppData 1 (Some 7%N) false in
  let p2 := Scenario.sent AppData 2 (Some 7%N) false in
  exists c' t,
    Scenario.run None Scenario.clonePair AppData
      (mkReadAckFrame 2 0 [mkAckBlock 2 2]) = Ok (c', t) /\
    packets (outstandings Scenario.clonePair) = [p1; p2] /\
    ackedOf t = [p2] /\
    visitorCallsOf t = [(p2, 2%N); (p2, 1002%N)] /\
    packets (outstandings c') = [p1].
Proof.
  simpl. eexists _, _. split; [vm_compute; reflexivity|]. repeat split; reflexivity.
Qed.

(** C3, as stated, fails: packet 2 was sent at 20 ns, the ack is received
    at 5000 ns and the clock reads 1000000 ns or later.  The estimator is
    fed 4 microseconds, the receive time less the send time, whereas the
    later of the receive time and the clock, less the send time, is more
    than 4 microseconds at every reading of the clock. *)
Lemma C3_counterexample :
  let p := Scenario.sent AppData 2 None false in
  exists c' t,
    Scenario.run None (Scenario.connection [p] ∅ 0 0 0 (Some 0%nat)) AppData
      (mkReadAckFrame 2 0 [mkAckBlock 2 2]) = Ok (c', t) /\
    ackedOf t = [p] /\
    rttFeedsOf t = [(4, 0)%Z] /\
    forall k, (4 < rttSampleByMax (X := Scenario.collaborators None) 5000 k p)%Z.
Proof.
  simpl. eexists _, _. split; [vm_compute; reflexivity|].
  split; [reflexivity|]. split; [reflexivity|].
  intros k. unfold rttSampleByMax, duration_cast_microseconds. simpl.
  rewrite Z.max_r by lia.
  apply Z.lt_le_trans with (Z.quot 999980 1000); [reflexivity|].
  apply Z.quot_le_mono; lia.
Qed.

(** C5, as stated, fails: no congestion controller is attached and the
    loss detector produces a loss event with both sent times.  The
    persistent-congestion predicate is not evaluated and the loss event
    is handed to no one. *)
Lemma C5_counterexample :
  let le := Scenario.lossAt (Some 10%Z) (Some 500%Z) in
  exists c' t c1 a,
    Scenario.run (Some le)
      (Scenario.connection [Scenario.sent AppData 2 None false] ∅ 0 0 0 None) AppData
      (mkReadAckFrame 2 0 [mkAckBlock 2 2]) = Ok (c', t) /\
    lossHandoffsOf t = [(c1, a, AppData)] /\
    snd (handleAckForLoss (Collaborators := Scenario.collaborators (Some le))
           c1 tt a AppData) = Some le /\
    persistentCongestionCallsOf t = [] /\
    controllerCallsOf t = [].
Proof.
  simpl. eexists _, _, _, _. split; [vm_compute; reflexivity|].
  split; [reflexivity|]. repeat split; reflexivity.
Qed.

(** C6, as stated, fails with the sample the specification gives a
    matched entry, the later of the receive time and the clock, less the
    send time.  Packet 2 was sent at 20 ns, the ack is received at
    5000 ns, after it was sent, and the clock reads 1000000 ns or later.
    The minimum-RTT sample of the ack event is 4 microseconds, the
    receive time less the send time, whereas the entry's sample by the
    later of the two times is more than 4 microseconds at every reading
    of the clock. *)
Lemma C6_counterexample :
  exists c' t c1 a,
    Scenario.run None
      (Scenario.connection [Scenario.sent AppData 2 None false] ∅ 0 0 0 (Some 0%nat))
      AppData (mkReadAckFrame 2 0 [mkAckBlock 2 2]) = Ok (c', t) /\
    lossHandoffsOf t = [(c1, a, AppData)] /\
    ackedOf t = [Scenario.sent AppData 2 None false] /\
    (time (Scenario.sent AppData 2 None false) < 5000)%Z /\
    mrttSample a = Some 4%Z /\
    forall k, (4 < rttSampleByMax (X := Scenario.collaborators None) 5000 k
                     (Scenario.sent AppData 2 None false))%Z.
Proof.
  eexists _, _, _, _. split; [vm_compute; reflexivity|].
  split; [reflexivity|]. split; [reflexivity|]. split; [reflexivity|].
  split; [reflexivity|].
  intros k. unfold rttSampleByMax, duration_cast_microseconds. simpl.
  rewrite Z.max_r by lia.
  apply Z.lt_le_trans with (Z.quot 999980 1000); [reflexivity|].
  apply Z.quot_le_mono; lia.
Qed.

(** C7, at an ack state tracking 0 to 1000 and a confirmed frame whose
    only block is 900 to 1000, with the purging threshold at 256: packet
    number 10 lies below 1000 - 256 and is no longer tracked. *)
Lemma C7_withdraw_and_purge_witness :
  frontEnd (wa_ackBlocks (mkWriteAckFrame [mkInterval 900 1000])) = Some 1000%N /\
  (Z.of_N 10 < Z.of_N 1000 -
     Z.of_N (kAckPurgingThresh (Collaborators := Scenario.collaborators None)))%Z /\
  tracked
    (acks (commonAckVisitorForAckFrame (X := Scenario.collaborators None)
             (mkAckState [mkInterval 0 1000]) (mkWriteAckFrame [mkInterval 900 1000])))
    10 = false.
Proof.
  split; [reflexivity|]. split; [reflexivity|].
  apply (proj1 (proj2 (proj2 (proj2
           (C7_withdraw_and_purge (X := Scenario.collaborators None)
              (mkAckState [mkInterval 0 1000]) (mkWriteAckFrame [mkInterval 900 1000])))))
           1000%N 10%N); reflexivity.
Defined.

(** A ledger in ascending order within each space but not overall, which
    is not a ledger the search is written for: AppData packet 8, Initial
    packet 1 and AppData packet 9.  The block 4 to 6, for the AppData
    space, covers none of the three numbers.  The search for the block's
    end stops on the Initial packet, the first packet from the tail whose
    number is at most 6; the walk skips it and then acknowledges AppData
    packet 8. *)
Example unordered_ledger_run :
  exists c' t,
    Scenario.run None Scenario.interleaved AppData
      (mkReadAckFrame 6 0 [mkAckBlock 4 6]) = Ok (c', t) /\
    ackedOf t = [Scenario.sent AppData 8 None false] /\
    packets (outstandings c') =
      [Scenario.sent Initial 1 None true; Scenario.sent AppData 9 None false].
Proof. eexists _, _. split; [vm_compute; reflexivity|]. split; reflexivity. Qed.


(** C10, at a confirmed frame without ack blocks: the ack state tracking
    3 to 9 is returned as it is. *)
Lemma C10_no_blocks_no_change_witness :
  wa_ackBlocks (mkWriteAckFrame []) = [] /\
  commonAckVisitorForAckFrame (X := Scenario.collaborators None)
    (mkAckState [mkInterval 3 9]) (mkWriteAckFrame []) = mkAckState [mkInterval 3 9].
Proof.
  split; [reflexivity|].
  apply (C10_no_blocks_no_change (X := Scenario.collaborators None)
           (mkAckState [mkInterval 3 9]) (mkWriteAckFrame [])).
  reflexivity.
Defined.

(** * The further properties, at concrete ledgers *)

(** X9, at the lone packet 5 and a frame whose first block, 1 to 2, ends
    below it: nothing is matched, although the second block is 5 to 5. *)
Lemma first_block_below_matches_nothing_witness :
  firstBlockBelow (ackBlocks (mkReadAckFrame 5 0 [mkAckBlock 1 2; mkAckBlock 5 5]))
    (take (lastOutstandingPacket (X := Scenario.collaborators None) Scenario.lone AppData)
       (packets (outstandings Scenario.lone))) /\
  ackedOf (outcomeTrace
             (Scenario.run None Scenario.lone AppData
                (mkReadAckFrame 5 0 [mkAckBlock 1 2; mkAckBlock 5 5]))) = [].
Proof.
  assert (firstBlockBelow (ackBlocks (mkReadAckFrame 5 0 [mkAckBlock 1 2; mkAckBlock 5 5]))
            (take (lastOutstandingPacket (X := Scenario.collaborators None)
                     Scenario.lone AppData)
               (packets (outstandings Scenario.lone)))) as Hbelow.
  { vm_compute. concrete_forall. }
  split; [exact Hbelow|].
  apply (first_block_below_matches_nothing (X := Scenario.collaborators None)
           Scenario.lone AppData (mkReadAckFrame 5 0 [mkAckBlock 1 2; mkAckBlock 5 5])
           Scenario.visitor tt 5000%Z Hbelow).
Defined.

(** X10, at a ledger holding the Initial packet 1, the Handshake packet
    3 and the AppData packets 2, 4 and 5: the blocks 4 to 5 and 1 to 2,
    for the AppData space, match 5, 4 and 2, and the loss detector
    receives the ledger holding packets 1 and 3. *)
Lemma ascending_ledger_matches_covered_witness :
  ascending (packets (outstandings Scenario.mixed)) /\
  descendingBlocks (ackBlocks (mkReadAckFrame 5 0 [mkAckBlock 4 5; mkAckBlock 1 2])) /\
  exists c' t c1 a,
    Scenario.run None Scenario.mixed AppData
      (mkReadAckFrame 5 0 [mkAckBlock 4 5; mkAckBlock 1 2]) = Ok (c', t) /\
    lossHandoffsOf t = [(c1, a, AppData)] /\
    map pn (ackedOf t) = [5; 4; 2]%N /\
    map pn (packets (outstandings c1)) = [1; 3]%N.
Proof.
  assert (ascending (packets (outstandings Scenario.mixed))) as Hasc
    by (simpl; concrete_ascending).
  assert (descendingBlocks
            (ackBlocks (mkReadAckFrame 5 0 [mkAckBlock 4 5; mkAckBlock 1 2])))
    as Hdesc by (simpl; repeat split; first [by vm_compute | concrete_forall]).
  split; [exact Hasc|]. split; [exact Hdesc|].
  pose proof (ascending_ledger_matches_covered (X := Scenario.collaborators None)
                Scenario.mixed AppData
                (mkReadAckFrame 5 0 [mkAckBlock 4 5; mkAckBlock 1 2])
                Scenario.visitor tt 5000%Z Hasc Hdesc) as H.
  unfold Scenario.run.
  destruct (processAckFrame _ _ _ _ _ _) as [[c' t]|chk t] eqn:Ep;
    [|vm_compute in Ep; discriminate Ep].
  destruct H as (c1 & a & Hh & Ha & Hl).
  exists c', t, c1, a. split; [reflexivity|]. split; [exact Hh|].
  rewrite Ha, Hl. split; reflexivity.
Defined.

(** X11, at the same ledger and the blocks 3 to 3 and 1 to 1 for the
    AppData space, which cover packets of the other spaces only: the
    call is the hand-off of the untouched connection. *)
Lemma nothing_acknowledged_only_notifies_witness :
  ascending (packets (outstandings Scenario.mixed)) /\
  Forall (fun p => acknowledged AppData
                     (ackBlocks (mkReadAckFrame 3 0 [mkAckBlock 3 3; mkAckBlock 1 1])) p =
                   false)
    (packets (outstandings Scenario.mixed)) /\
  ledgerInvariant (outstandings Scenario.mixed) /\
  (N.of_nat (length (packets (outstandings Scenario.mixed))) < 2 ^ 64)%N /\
  Scenario.run None Scenario.mixed AppData
    (mkReadAckFrame 3 0 [mkAckBlock 3 3; mkAckBlock 1 1]) =
  notifyAckOrLoss (X := Scenario.collaborators None) AppData tt
    (initialLoopState Scenario.mixed 5000%Z).
Proof.
  assert (ascending (packets (outstandings Scenario.mixed))) as Hasc
    by (simpl; concrete_ascending).
  assert (Forall (fun p => acknowledged AppData
                             (ackBlocks (mkReadAckFrame 3 0 [mkAckBlock 3 3; mkAckBlock 1 1]))
                             p = false)
            (packets (outstandings Scenario.mixed))) as Hnone
    by (simpl; concrete_forall).
  assert (ledgerInvariant (outstandings Scenario.mixed)) as Hinv
    by (split; by vm_compute).
  assert (N.of_nat (length (packets (outstandings Scenario.mixed))) < 2 ^ 64)%N as Hlen
    by reflexivity.
  split; [exact Hasc|]. split; [exact Hnone|]. split; [exact Hinv|]. split; [exact Hlen|].
  apply (nothing_acknowledged_only_notifies (X := Scenario.collaborators None)
           Scenario.mixed AppData (mkReadAckFrame 3 0 [mkAckBlock 3 3; mkAckBlock 1 1])
           Scenario.visitor tt 5000%Z Hasc Hnone Hinv Hlen).
Defined.

(** X12, at the ledger holding the Initial packet 1, the Handshake packet
    3 and the AppData packets 2, 4 and 5, with exact counters: the frame
    acknowledging packet 1 in the Initial space is not aborted, the
    counter of Initial packets drops from one to zero, and the loss
    detector receives a ledger of four packets whose counters are exact
    again. *)
Lemma exact_counters_preserved_witness :
  wellCounted (outstandings Scenario.mixed) /\
  (N.of_nat (length (packets (outstandings Scenario.mixed))) < 2 ^ 64)%N /\
  exists c' t c1 a,
    Scenario.run None Scenario.mixed Initial
      (mkReadAckFrame 1 0 [mkAckBlock 1 1]) = Ok (c', t) /\
    lossHandoffsOf t = [(c1, a, Initial)] /\
    map pn (ackedOf t) = [1%N] /\
    initialPacketsCount (outstandings c1) = 0%N /\
    wellCounted (outstandings c1).
Proof.
  assert (wellCounted (outstandings Scenario.mixed)) as Hwell.
  { split; [simpl; concrete_forall|]. repeat split; reflexivity. }
  assert (N.of_nat (length (packets (outstandings Scenario.mixed))) < 2 ^ 64)%N
    as Hlen by reflexivity.
  split; [exact Hwell|]. split; [exact Hlen|].
  pose proof (exact_counters_preserved (X := Scenario.collaborators None)
                Scenario.mixed Initial (mkReadAckFrame 1 0 [mkAckBlock 1 1])
                Scenario.visitor tt 5000%Z Hwell Hlen) as H.
  unfold Scenario.run.
  destruct (processAckFrame _ _ _ _ _ _) as [[c' t]|chk t] eqn:Ep;
    [|vm_compute in Ep; discriminate Ep].
  destruct H as (c1 & a & Hh & Hw).
  exists c', t, c1, a. split; [reflexivity|]. split; [exact Hh|].
  vm_compute in Ep. injection Ep as <- <-.
  injection Hh as <- <-.
  split; [reflexivity|]. split; [reflexivity|exact Hw].
Defined.

(** X13, at the same ledger: once the blocks 4 to 5 and 1 to 2 have been
    reconciled for the AppData space, reconciling them again on the
    resulting connection, at a later receive time, changes nothing. *)
Lemma reconcile_again_changes_nothing_witness :
  ascending (packets (outstandings Scenario.mixed)) /\
  descendingBlocks (ackBlocks (mkReadAckFrame 5 0 [mkAckBlock 4 5; mkAckBlock 1 2])) /\
  Forall (fun p => spaceOf p <> AppData)
    (drop (lastOutstandingPacket (X := Scenario.collaborators None) Scenario.mixed AppData)
       (packets (outstandings Scenario.mixed))) /\
  exists st1,
    reconcileAckFrame (X := Scenario.collaborators None) Scenario.mixed AppData
      (mkReadAckFrame 5 0 [mkAckBlock 4 5; mkAckBlock 1 2])
      Scenario.visitor 5000%Z = Ok st1 /\
    reconcileAckFrame (X := Scenario.collaborators None) (conn st1) AppData
      (mkReadAckFrame 5 0 [mkAckBlock 4 5; mkAckBlock 1 2])
      Scenario.visitor 6000%Z = Ok (initialLoopState (conn st1) 6000%Z).
Proof.
  assert (ascending (packets (outstandings Scenario.mixed))) as Hasc
    by (simpl; concrete_ascending).
  assert (descendingBlocks
            (ackBlocks (mkReadAckFrame 5 0 [mkAckBlock 4 5; mkAckBlock 1 2])))
    as Hdesc by (simpl; repeat split; first [by vm_compute | concrete_forall]).
  assert (Forall (fun p => spaceOf p <> AppData)
            (drop (lastOutstandingPacket (X := Scenario.collaborators None)
                     Scenario.mixed AppData)
               (packets (outstandings Scenario.mixed)))) as Hbehind
    by (simpl; concrete_forall).
  split; [exact Hasc|]. split; [exact Hdesc|]. split; [exact Hbehind|].
  pose proof (reconcile_again_changes_nothing (X := Scenario.collaborators None)
                Scenario.mixed AppData
                (mkReadAckFrame 5 0 [mkAckBlock 4 5; mkAckBlock 1 2])
                Scenario.visitor 5000%Z Scenario.visitor 6000%Z
                Hasc Hdesc Hbehind) as H.
  destruct (reconcileAckFrame _ _ _ _ _) as [st1|chk t] eqn:Er;
    [|vm_compute in Er; discriminate Er].
  exists st1. split; [reflexivity|exact H].
Defined.

(** X16, at the ordering example: searching the packets 40, 55, 60, 95
    and 99 from the tail for the value 70 stops on a packet whose number
    is not above 70. *)
Lemma search_finds_first_not_above_witness :
  ascending (take 5 (packets (outstandings Scenario.ordering))) /\
  (5 <= length (packets (outstandings Scenario.ordering)))%nat /\
  match deref (packets (outstandings Scenario.ordering))
          (lower_bound (packets (outstandings Scenario.ordering)) 5 70) with
  | Some p => (pn p <= 70)%N
  | None => lower_bound (packets (outstandings Scenario.ordering)) 5 70 = 0%nat
  end.
Proof.
  assert (ascending (take 5 (packets (outstandings Scenario.ordering)))) as Hasc
    by (simpl; concrete_ascending).
  assert (5 <= length (packets (outstandings Scenario.ordering)))%nat as Hlen
    by (simpl; lia).
  split; [exact Hasc|]. split; [exact Hlen|].
  apply (proj2 (proj2 (search_finds_first_not_above
                         (packets (outstandings Scenario.ordering)) 5 70%N Hasc Hlen))).
Defined.
